(** * Median filter on sparse histograms (hist-bst.c, omp-median-filter-2D-sparse.c)

    A shallow embedding of the BST-based dynamic histogram and of the
    row-wise sliding-window median filter built on it, with the proofs of
    the properties the specification states about them.

    Modelling conventions.
    - The program is modelled twice.  The first model computes with
      unbounded integers in [Z] and has [assert] compiled in; the
      invariants of the tree and the properties that rest on them are
      stated on it.  The module
      [I32] has every function that does arithmetic once more, with the
      wrap-around of the 32-bit [int] written out, and with the build as
      a parameter: assertions compiled in, or compiled away by [NDEBUG]
      as the Makefile has it.  The theorems about [I32] state the ranges
      of the sizes and of the counts for which they hold; within these
      ranges the two models compute the same results (the lemmas whose
      names start with [I32_]).
    - [data_t] values are integers in [Z]: the C code never does
      arithmetic on keys, it only compares them.
    - A failed assertion aborts the program, which is the [Abort] outcome
      of the [result] type.  An access outside a pixel buffer and a read
      through a NULL pointer are undefined in C and are an [Abort] as
      well.  The functions of the histogram without their assertions are
      also modelled with unbounded integers, under the names that end in
      [_ndebug].
    - A [HistNode *] is a position in the tree: the subtree it points to
      together with the path of its ancestors, innermost first.  The
      [parent] field of the C struct is the head of that path. *)

From stdpp Require Import base list sorting.
From Stdlib Require Import ZArith Lia.

Local Open Scope Z_scope.

(** * The program *)

(** The functions in this part compute with unbounded integers.  The ones
    that do arithmetic are defined once more, in the arithmetic of [int],
    in the module [I32] below. *)

(** ** Outcomes *)

Inductive fault : Type :=
| insert_negative_c        (* hist_insert: assert(c>=0) *)
| delete_negative_c        (* hist_delete: assert(c>=0) *)
| delete_underflow         (* hist_delete: assert(n->count >= 0) *)
| minimum_of_null          (* hist_minimum: assert(n != NULL) *)
| median_of_empty          (* hist_median: assert(n != NULL), H->root *)
| median_fell_off          (* hist_median: assert(n != NULL) inside the loop *)
| median_target_too_big    (* hist_median: assert(n->counts >= target) *)
| filter_ndims             (* median_filter_2D_sparse_byrow: assert(ndims == 2) *)
| out_of_bounds            (* read or write outside a buffer *)
| null_dereference.       (* NDEBUG: a read through a NULL pointer *)

Inductive result (A : Type) : Type :=
| Done (a : A)
| Abort (f : fault).
Arguments Done {A} a.
Arguments Abort {A} f.

Definition bind {A B : Type} (m : result A) (k : A → result B) : result B :=
  match m with
  | Done a => k a
  | Abort f => Abort f
  end.

Notation "'do' x <- m ; k" := (bind m (fun x => k))
  (at level 10, x name, m at level 100, k at level 200).

(** A [for] loop whose body may abort, over the values of its index. *)
Fixpoint for_each {A S : Type} (body : S → A → result S) (xs : list A) (s : S)
  : result S :=
  match xs with
  | [] => Done s
  | x :: xs' => do s' <- body s x; for_each body xs' s'
  end.

(** ** The tree *)

Inductive HistNode : Type :=
| NULL
| Node (left : HistNode) (key count counts : Z) (right : HistNode).

Record Hist : Type := mkHist { root : HistNode }.

(** One step of the path from a node up to the root: the parent's own
    fields and its other child. *)
Inductive frame : Type :=
| LeftOf (key count counts : Z) (right : HistNode)
| RightOf (left : HistNode) (key count counts : Z).

Definition path : Type := list frame.

(** The parent node, with [n] in the slot the frame leaves open. *)
Definition up (f : frame) (n : HistNode) : HistNode :=
  match f with
  | LeftOf k c cs r => Node n k c cs r
  | RightOf l k c cs => Node l k c cs n
  end.

(** The whole tree around a position. *)
Fixpoint plug (p : path) (n : HistNode) : HistNode :=
  match p with
  | [] => n
  | f :: p' => plug p' (up f n)
  end.

(** [n->counts] of a child pointer, with the NULL test the code makes
    before each read. *)
Definition counts_of (n : HistNode) : Z :=
  match n with
  | NULL => 0
  | Node _ _ _ cs _ => cs
  end.

(** ** update_counts, update_counts_to_root *)

Definition update_counts (n : HistNode) : HistNode * bool :=
  match n with
  | NULL => (NULL, false)
  | Node l k c old_counts r =>
      let new_counts := c + counts_of l + counts_of r in
      (Node l k c new_counts r, negb (old_counts =? new_counts))
  end.

(** [while (update_counts(n)) n = n->parent;] from the position [(p, n)];
    the result is the whole tree.  A NULL parent ends the loop, because
    [update_counts(NULL)] is 0. *)
Fixpoint update_counts_to_root (p : path) (n : HistNode) : HistNode :=
  let (n', changed) := update_counts n in
  if changed then
    match p with
    | [] => n'
    | f :: p' => update_counts_to_root p' (up f n')
    end
  else plug p n'.

(** ** Creation and insertion *)

Definition hist_new_node (k count : Z) (left right : HistNode) : HistNode :=
  Node left k count (-1) right.

Definition hist_create : Hist := mkHist NULL.

Definition hist_clear (H : Hist) : Hist := mkHist NULL.

Fixpoint hist_insert_rec (n : HistNode) (k c : Z) : HistNode :=
  let n' :=
    match n with
    | NULL => hist_new_node k c NULL NULL
    | Node l key cnt cs r =>
        if k <? key then Node (hist_insert_rec l k c) key cnt cs r
        else if k >? key then Node l key cnt cs (hist_insert_rec r k c)
        else Node l key (cnt + c) cs r
    end in
  fst (update_counts n').

Definition hist_insert (H : Hist) (k c : Z) : result Hist :=
  if c <? 0 then Abort insert_negative_c
  else if c >? 0 then Done (mkHist (hist_insert_rec (root H) k c))
  else Done H.

(** ** Lookup *)

Fixpoint hist_lookup_from (p : path) (n : HistNode) (v : Z)
  : option (path * HistNode) :=
  match n with
  | NULL => None
  | Node l key cnt cs r =>
      if key =? v then Some (p, n)
      else if v <? key then hist_lookup_from (LeftOf key cnt cs r :: p) l v
      else hist_lookup_from (RightOf l key cnt cs :: p) r v
  end.

Definition hist_lookup (H : Hist) (v : Z) : option (path * HistNode) :=
  hist_lookup_from [] (root H) v.

Definition hist_get (H : Hist) (k : Z) : Z :=
  match hist_lookup H k with
  | Some (_, Node _ _ cnt _ _) => cnt
  | _ => 0
  end.

(** The leftmost node below [n], as a position relative to [p]. *)
Fixpoint hist_minimum_from (p : path) (n : HistNode) : path * HistNode :=
  match n with
  | Node (Node _ _ _ _ _ as l) key cnt cs r =>
      hist_minimum_from (LeftOf key cnt cs r :: p) l
  | _ => (p, n)
  end.

Definition hist_minimum (n : HistNode) : result (path * HistNode) :=
  match n with
  | NULL => Abort minimum_of_null
  | _ => Done (hist_minimum_from [] n)
  end.

(** ** Deletion *)

(** [hist_transplant(T, u, v)] puts [v] in the slot of [u]: with [u] at
    the end of path [p], the position of [v] afterwards. *)
Definition hist_transplant (p : path) (v : HistNode) : path * HistNode := (p, v).

(** The repair after a node with at most one child was replaced by that
    child: [update_from] is the parent when there is one, the child
    otherwise. *)
Definition update_from_parent_or (loc : path * HistNode) : HistNode :=
  match loc with
  | ([], child) => update_counts_to_root [] child
  | (f :: p', child) => update_counts_to_root p' (up f child)
  end.

Definition hist_delete (H : Hist) (v c : Z) : result Hist :=
  let n := hist_lookup H v in
  if c <? 0 then Abort delete_negative_c
  else
    match n with
    | None | Some (_, NULL) => Done H   (* n == NULL; a lookup that succeeds
                                           gives a node *)
    | Some (p, Node l key cnt cs r) =>
        let cnt' := cnt - c in
        if cnt' <? 0 then Abort delete_underflow
        else if cnt' >? 0 then
          Done (mkHist (update_counts_to_root p (Node l key cnt' cs r)))
        else
          match l, r with
          | NULL, _ => Done (mkHist (update_from_parent_or (hist_transplant p r)))
          | _, NULL => Done (mkHist (update_from_parent_or (hist_transplant p l)))
          | _, _ =>
              do m <- hist_minimum r;
              match m with
              | (_, NULL) => Abort minimum_of_null
              | ([], Node _ km cm csm rm) =>
                  (* min_of_right is n->right itself *)
                  Done (mkHist (update_counts_to_root p (Node l km cm csm rm)))
              | (f :: pm, Node _ km cm csm rm) =>
                  (* min_of_right is deeper: its right child takes its
                     slot, and the repair starts at its former parent *)
                  Done (mkHist (update_counts_to_root
                                  (pm ++ RightOf l km cm csm :: p) (up f rm)))
              end
          end
    end.

(** ** Emptiness, merge, median *)

Definition hist_is_empty (H : Hist) : bool :=
  match root H with
  | NULL => true
  | Node _ _ _ cs _ => cs =? 0
  end.

Fixpoint hist_add_rec (H : Hist) (n : HistNode) : result Hist :=
  match n with
  | NULL => Done H
  | Node l key cnt _ r =>
      do H1 <- hist_insert H key cnt;
      do H2 <- hist_add_rec H1 l;
      hist_add_rec H2 r
  end.

Definition hist_add (H1 H2 : Hist) : result Hist := hist_add_rec H1 (root H2).

Fixpoint hist_sub_rec (H : Hist) (n : HistNode) : result Hist :=
  match n with
  | NULL => Done H
  | Node l key cnt _ r =>
      do H1 <- hist_delete H key cnt;
      do H2 <- hist_sub_rec H1 l;
      hist_sub_rec H2 r
  end.

Definition hist_sub (H1 H2 : Hist) : result Hist := hist_sub_rec H1 (root H2).

(** The body of [while (1)] in [hist_median]; every turn of the loop that
    does not return moves to a child. *)
Fixpoint hist_median_loop (n : HistNode) (target : Z) : result Z :=
  match n with
  | NULL => Abort median_fell_off
  | Node l key cnt cs r =>
      if cs <? target then Abort median_target_too_big
      else
        let counts_left := counts_of l in
        if counts_left >? target then hist_median_loop l target
        else if target <? counts_left + cnt then Done key
        else hist_median_loop r (target - counts_left - cnt)
  end.

Definition hist_median (H : Hist) : result Z :=
  match root H with
  | NULL => Abort median_of_empty
  | Node _ _ _ cs _ => hist_median_loop (root H) (Z.quot cs 2)
  end.

(** ** The row filter *)

(** Border replication (REPLICATE is defined). *)
Definition IDX (i j height width : Z) : Z :=
  let i := if i <? 0 then 0 else if i >=? height then height - 1 else i in
  let j := if j <? 0 then 0 else if j >=? width then width - 1 else j in
  i * width + j.

(** [buf[p]] as a value and as an assignment target. *)
Definition load (buf : list Z) (p : Z) : result Z :=
  if p <? 0 then Abort out_of_bounds
  else match buf !! Z.to_nat p with
       | Some v => Done v
       | None => Abort out_of_bounds
       end.

Definition store (buf : list Z) (p v : Z) : result (list Z) :=
  if (0 <=? p) && (p <? Z.of_nat (length buf))
  then Done (<[Z.to_nat p := v]> buf)
  else Abort out_of_bounds.

(** The values of [x] in [for (x = lo; x <= hi; x++)]. *)
Definition range (lo hi : Z) : list Z := seqZ lo (hi - lo + 1).

Definition fill_histogram (hist : Hist) (in_ : list Z)
    (i j radius width height : Z) : result Hist :=
  for_each (fun hist di =>
    for_each (fun hist dj =>
      do val <- load in_ (IDX (i + di) (j + dj) height width);
      hist_insert hist val 1)
    (range (- radius) radius) hist)
  (range (- radius) radius) hist.

Definition shift_histogram (hist : Hist) (in_ : list Z)
    (i j radius width height : Z) : result Hist :=
  for_each (fun hist di =>
    do val_left <- load in_ (IDX (i + di) (j - radius) height width);
    do hist <- hist_delete hist val_left 1;
    do val_right <- load in_ (IDX (i + di) (j + radius + 1) height width);
    hist_insert hist val_right 1)
  (range (- radius) radius) hist.

(** The body of the loop over the columns but the last: emit the median of
    the current window, then shift the window to the right. *)
Definition row_body (in_ : list Z) (radius width height i : Z)
    (st : Hist * list Z) (j : Z) : result (Hist * list Z) :=
  let (hist, out) := st in
  do m <- hist_median hist;
  do out <- store out (IDX i j height width) m;
  do hist <- shift_histogram hist in_ i j radius width height;
  Done (hist, out).

(** The body of the [omp for] loop: one row, with the worker's histogram
    and the output buffer as state.  After the loop over the columns [j]
    is [width - 1], or 0 when the loop did not run. *)
Definition filter_row (in_ : list Z) (radius width height : Z)
    (st : Hist * list Z) (i : Z) : result (Hist * list Z) :=
  let (hist, out) := st in
  let hist := hist_clear hist in
  do hist <- fill_histogram hist in_ i 0 radius width height;
  do st <- for_each (row_body in_ radius width height i)
             (seqZ 0 (width - 1)) (hist, out);
  let (hist, out) := st in
  let j := Z.max 0 (width - 1) in
  do m <- hist_median hist;
  do out <- store out (IDX i j height width) m;
  Done (hist, out).

(** The filter run by one thread, rows in increasing order. *)
Definition median_filter_2D_sparse_byrow (in_ out : list Z) (dims : list Z)
    (ndims radius : Z) : result (list Z) :=
  if negb (ndims =? 2) then Abort filter_ndims
  else
    do width <- load dims 0;
    do height <- load dims 1;
    let hist := hist_create in
    do st <- for_each (filter_row in_ radius width height)
               (seqZ 0 height) (hist, out);
    Done (snd st).

(** The parallel region as the threads run it.  The [omp for] construct
    hands every row to exactly one worker; a worker keeps the histogram it
    created for all its rows, and all workers write to [out].  A schedule
    lists the rows in the order in which they take effect, each with the
    worker that processes it.  Rows are the unit of interleaving: a row
    reads only [in], which nobody writes, and its own histogram. *)
Definition worker_step (in_ : list Z) (radius width height : Z)
    (st : (nat → Hist) * list Z) (e : nat * Z)
  : result ((nat → Hist) * list Z) :=
  let (hists, out) := st in
  let (w, i) := e in
  do st' <- filter_row in_ radius width height (hists w, out) i;
  Done (λ w', if decide (w' = w) then fst st' else hists w', snd st').

Definition parallel_filter (sched : list (nat * Z)) (in_ out : list Z)
    (dims : list Z) (ndims radius : Z) : result (list Z) :=
  if negb (ndims =? 2) then Abort filter_ndims
  else
    do width <- load dims 0;
    do height <- load dims 1;
    do st <- for_each (worker_step in_ radius width height)
               sched (λ _, hist_create, out);
    Done (snd st).

(** * The contents of a histogram and its invariants *)

(** The (key, count) pairs of the nodes, left to right. *)
Fixpoint bindings (n : HistNode) : list (Z * Z) :=
  match n with
  | NULL => []
  | Node l k c _ r => bindings l ++ (k, c) :: bindings r
  end.

Definition keys (n : HistNode) : list Z := (bindings n).*1.

(** The recorded occurrences of [k], and of all keys. *)
Fixpoint mult (k : Z) (bs : list (Z * Z)) : Z :=
  match bs with
  | [] => 0
  | (k', c) :: bs' => (if decide (k' = k) then c else 0) + mult k bs'
  end.

Fixpoint total (bs : list (Z * Z)) : Z :=
  match bs with
  | [] => 0
  | (_, c) :: bs' => c + total bs'
  end.

(** Each key repeated [count] times. *)
Fixpoint expand (bs : list (Z * Z)) : list Z :=
  match bs with
  | [] => []
  | (k, c) :: bs' => replicate (Z.to_nat c) k ++ expand bs'
  end.

(** The number of occurrences of [k] in a list of samples. *)
Fixpoint occ (k : Z) (xs : list Z) : Z :=
  match xs with
  | [] => 0
  | x :: xs' => (if decide (x = k) then 1 else 0) + occ k xs'
  end.

(** The occurrences stored in a tree, left to right. *)
Definition elements (n : HistNode) : list Z := expand (bindings n).

(** The fully sorted, multiplicity-expanded sequence of all stored
    occurrences: every key repeated [count] times, then sorted. *)
Definition sorted_occurrences (H : Hist) : list Z :=
  merge_sort Z.le (elements (root H)).

(** [subtreeCount == count + subtreeCount(left) + subtreeCount(right)] at
    every node. *)
Fixpoint counts_ok (n : HistNode) : Prop :=
  match n with
  | NULL => True
  | Node l _ c cs r => cs = c + counts_of l + counts_of r ∧ counts_ok l ∧ counts_ok r
  end.


(** The ordering the code maintains: keys strictly increasing from left to
    right, so no key is stored twice. *)
Definition ordered (n : HistNode) : Prop := StronglySorted Z.lt (keys n).

(** No node with a zero (or negative) count stays in the tree. *)
Definition positive (n : HistNode) : Prop := Forall (λ b, 0 < b.2) (bindings n).

Record hist_inv (H : Hist) : Prop := mk_hist_inv {
  inv_counts : counts_ok (root H);
  inv_ordered : ordered (root H);
  inv_positive : positive (root H)
}.

(** [hist_check_rec] of the source, as a test: the assertions on [counts]
    and on the keys of the two children.  ([hist_check] returns before it
    calls it, so the operations above run no check.) *)
Fixpoint hist_check_rec (n : HistNode) : bool :=
  match n with
  | NULL => true
  | Node l k c cs r =>
      match l with
      | NULL => true
      | Node _ kl _ _ _ => (kl <=? k) && hist_check_rec l
      end &&
      match r with
      | NULL => true
      | Node _ kr _ _ _ => (kr >? k) && hist_check_rec r
      end &&
      (c + counts_of l + counts_of r =? cs)
  end.

(** * Sequences of operations *)

Inductive op : Type :=
| Insert (k c : Z)
| Delete (k c : Z).

Definition apply_op (H : Hist) (o : op) : result Hist :=
  match o with
  | Insert k c => hist_insert H k c
  | Delete k c => hist_delete H k c
  end.

Definition run (ops : list op) (H : Hist) : result Hist :=
  for_each apply_op ops H.

(** Inserted minus deleted multiplicities of [k]. *)
Fixpoint net (k : Z) (ops : list op) : Z :=
  match ops with
  | [] => 0
  | Insert k' c :: ops' => net k ops' + (if decide (k' = k) then c else 0)
  | Delete k' c :: ops' => net k ops' - (if decide (k' = k) then c else 0)
  end.

(** The preconditions of the operations [ops], run after [prev]: no
    negative multiplicity, and no deletion of more occurrences than the
    operations before it left. *)
Fixpoint preconditions (prev ops : list op) : Prop :=
  match ops with
  | [] => True
  | Insert k c :: ops' => 0 ≤ c ∧ preconditions (prev ++ [Insert k c]) ops'
  | Delete k c :: ops' =>
      0 ≤ c ≤ net k prev ∧ preconditions (prev ++ [Delete k c]) ops'
  end.

(** * What the row filter is to compute *)

(** The nearest valid index to [x] among [0 .. n-1]. *)
Definition clamp (x n : Z) : Z := Z.max 0 (Z.min x (n - 1)).

(** The input sample at row [r], column [c], with border replication. *)
Definition sample (in_ : list Z) (width height r c : Z) : Z :=
  in_ !!! Z.to_nat (clamp r height * width + clamp c width).

(** The samples of the [(2 radius + 1) × (2 radius + 1)] window centred at
    row [i], column [j]. *)
Definition window (in_ : list Z) (width height radius i j : Z) : list Z :=
  flat_map (λ di, map (λ dj, sample in_ width height (i + di) (j + dj))
                      (range (- radius) radius))
           (range (- radius) radius).

(** The median of a list of samples: the element of index [length / 2] of
    the sorted list, the upper of the two middle ones when the length is
    even. *)
Definition median_of (xs : list Z) : option Z :=
  merge_sort Z.le xs !! (length xs `div` 2)%nat.

(** The median of the window at [(i, j)], from a histogram built from
    scratch for that window. *)
Definition fresh_median (in_ : list Z) (radius width height i j : Z)
  : result Z :=
  do hist <- fill_histogram hist_create in_ i j radius width height;
  hist_median hist.

(** The values written for row [i], in column order. *)
Definition emitted_row (out : list Z) (width i : Z) : list Z :=
  take (Z.to_nat width) (drop (Z.to_nat (i * width)) out).

(** * Concrete histograms, runs and buffers *)

(** The states of the specification's concrete cases: 5, 2, 8 inserted
    once each, and then 1. *)
Definition case_1 : result Hist :=
  do H1 <- hist_insert hist_create 5 1;
  do H2 <- hist_insert H1 2 1;
  hist_insert H2 8 1.

Definition case_2 : result Hist := do H3 <- case_1; hist_insert H3 1 1.

Definition case_2_tree : Hist :=
  mkHist (Node (Node (Node NULL 1 1 1 NULL) 2 1 2 NULL) 5 1 4
               (Node NULL 8 1 1 NULL)).

(** A run that ends with the three kinds of splice: 5 has two children and
    its successor 7 is not its right child; then 2 has one child; then 9
    has none. *)
Definition splice_run : list op :=
  [Insert 5 1; Insert 2 1; Insert 8 1; Insert 1 1; Insert 9 1; Insert 7 1;
   Delete 5 1; Delete 2 1; Delete 9 1].


Definition net_run : list op :=
  [Insert 3 2; Insert 4 1; Insert 3 1; Delete 3 2; Delete 4 1].

(** A histogram with two occurrences of 7, one with three of 7 and one
    of 5, and one with a single 5. *)
Definition two_sevens : Hist := mkHist (Node NULL 7 2 2 NULL).

Definition sevens_and_five : Hist :=
  mkHist (Node (Node NULL 5 1 1 NULL) 7 3 4 NULL).

Definition one_five : Hist := mkHist (Node NULL 5 1 1 NULL).

(** The 5 × 5 buffer of the specification's end-to-end case. *)
Definition ramp : list Z := seqZ 0 25.

(** Two schedules for three rows: two workers taking rows in turn, and
    three workers going through the rows backwards. *)
Definition two_workers : list (nat * Z) := [(0%nat, 0); (1%nat, 1); (0%nat, 2)].

Definition three_workers : list (nat * Z) := [(2%nat, 2); (1%nat, 1); (0%nat, 0)].

(** * The rest of the histogram interface *)

(** [hist_print]: the lines it prints, one [(val, count)] pair per node,
    left subtree first. *)
Fixpoint hist_print_rec (n : HistNode) : list (Z * Z) :=
  match n with
  | NULL => []
  | Node l key cnt _ r => hist_print_rec l ++ [(key, cnt)] ++ hist_print_rec r
  end.

Definition hist_print (H : Hist) : list (Z * Z) := hist_print_rec (root H).

(** [hist_pretty_print]: the lines it prints, right subtree first; a line
    is the depth of the node (the number of indentation steps), its key,
    its count and its [counts]. *)
Fixpoint hist_pretty_print_rec (n : HistNode) (depth : Z)
  : list (Z * Z * Z * Z) :=
  match n with
  | NULL => []
  | Node l key cnt cs r =>
      hist_pretty_print_rec r (depth + 1) ++ [(depth, key, cnt, cs)] ++
      hist_pretty_print_rec l (depth + 1)
  end.

Definition hist_pretty_print (H : Hist) : list (Z * Z * Z * Z) :=
  hist_pretty_print_rec (root H) 0.

(** The number of nodes on the longest way down from [n]. *)
Fixpoint height (n : HistNode) : Z :=
  match n with
  | NULL => 0
  | Node l _ _ _ r => 1 + Z.max (height l) (height r)
  end.

(** Every node but the last has a right child only. *)
Fixpoint right_chain (n : HistNode) : Prop :=
  match n with
  | NULL => True
  | Node l _ _ _ r => l = NULL ∧ right_chain r
  end.

(** A run that inserts the keys [ks] once each, in the order of the list. *)
Definition insert_each (ks : list Z) : list op := map (λ k, Insert k 1) ks.

(** The keys 1 and 2, once each, in the two shapes a tree can have. *)
Definition root_two : Hist := mkHist (Node (Node NULL 1 1 1 NULL) 2 1 2 NULL).

Definition root_one : Hist := mkHist (Node NULL 1 1 2 (Node NULL 2 1 1 NULL)).

(** The state of the second concrete case after the delete of 5. *)
Definition splice_start : Hist :=
  mkHist (Node (Node (Node NULL 1 1 1 NULL) 2 1 2 NULL) 8 1 3 NULL).

(** A tree in which the key 10 sits in the left subtree of 5. *)
Definition misplaced_key : Hist :=
  mkHist (Node (Node NULL 1 1 2 (Node NULL 10 1 1 NULL)) 5 1 3 NULL).

(** * The build of the Makefile: NDEBUG *)

(** The Makefile compiles with [-DNDEBUG], which removes every [assert].
    The functions of the histogram below are the ones above without their
    assertions. What an assertion guarded then happens: a count that would
    become negative sends [hist_delete] to its removal branch, and a NULL
    pointer that would be dereferenced is an [Abort] (with the fault of
    the assertion that is gone), because the behaviour of C is undefined
    there. *)

Definition hist_insert_ndebug (H : Hist) (k c : Z) : result Hist :=
  if c >? 0 then Done (mkHist (hist_insert_rec (root H) k c))
  else Done H.

Definition hist_delete_ndebug (H : Hist) (v c : Z) : result Hist :=
  match hist_lookup H v with
  | None | Some (_, NULL) => Done H
  | Some (p, Node l key cnt cs r) =>
      let cnt' := cnt - c in
      if cnt' >? 0 then
        Done (mkHist (update_counts_to_root p (Node l key cnt' cs r)))
      else
        match l, r with
        | NULL, _ => Done (mkHist (update_from_parent_or (hist_transplant p r)))
        | _, NULL => Done (mkHist (update_from_parent_or (hist_transplant p l)))
        | _, _ =>
            match hist_minimum_from [] r with
            | (_, NULL) => Abort minimum_of_null
            | ([], Node _ km cm csm rm) =>
                Done (mkHist (update_counts_to_root p (Node l km cm csm rm)))
            | (f :: pm, Node _ km cm csm rm) =>
                Done (mkHist (update_counts_to_root
                                (pm ++ RightOf l km cm csm :: p) (up f rm)))
            end
        end
  end.

Fixpoint hist_sub_rec_ndebug (H : Hist) (n : HistNode) : result Hist :=
  match n with
  | NULL => Done H
  | Node l key cnt _ r =>
      do H1 <- hist_delete_ndebug H key cnt;
      do H2 <- hist_sub_rec_ndebug H1 l;
      hist_sub_rec_ndebug H2 r
  end.

Definition hist_sub_ndebug (H1 H2 : Hist) : result Hist :=
  hist_sub_rec_ndebug H1 (root H2).

Fixpoint hist_median_loop_ndebug (n : HistNode) (target : Z) : result Z :=
  match n with
  | NULL => Abort median_fell_off
  | Node l key cnt cs r =>
      let counts_left := counts_of l in
      if counts_left >? target then hist_median_loop_ndebug l target
      else if target <? counts_left + cnt then Done key
      else hist_median_loop_ndebug r (target - counts_left - cnt)
  end.

Definition hist_median_ndebug (H : Hist) : result Z :=
  match root H with
  | NULL => Abort median_of_empty
  | Node _ _ _ cs _ => hist_median_loop_ndebug (root H) (Z.quot cs 2)
  end.

(** * The program with the arithmetic of [int] *)

(** The functions above compute with unbounded integers.  The C code
    computes every count, coordinate and index in [int], which has 32
    bits.  This module has the functions that do arithmetic once more,
    with every sum, difference and product wrapped around into the range
    of [int] (signed overflow is undefined in C; two's complement
    wrap-around is what the compiled code computes).  The build is a
    parameter: with [ndebug = true] the assertions are compiled away, as
    the Makefile has it, and a NULL pointer that an assertion guarded is
    read through, which is the fault [null_dereference]; with
    [ndebug = false] a failed assertion is the fault of that assertion.
    The functions that do no arithmetic and have no assertion
    ([hist_lookup], [hist_get], [hist_minimum_from], [hist_transplant],
    [hist_is_empty], [load], [store]) are the ones above.  A loop
    [for (x = lo; x <= hi; x++)] runs through [range lo hi], which is so
    when [hi < INT_MAX]. *)
Module I32.

Definition INT_MIN : Z := -2147483648.

Definition INT_MAX : Z := 2147483647.

(** The value of type [int] that is congruent to [z] modulo [2^32]. *)
Definition wrap (z : Z) : Z := (z + 2147483648) `mod` 4294967296 - 2147483648.

Definition add (a b : Z) : Z := wrap (a + b).

Definition sub (a b : Z) : Z := wrap (a - b).

Definition mul (a b : Z) : Z := wrap (a * b).

Definition neg (a : Z) : Z := wrap (- a).

(** ** update_counts, update_counts_to_root *)

Definition update_counts (n : HistNode) : HistNode * bool :=
  match n with
  | NULL => (NULL, false)
  | Node l k c old_counts r =>
      let new_counts := c in
      let new_counts :=
        match l with
        | NULL => new_counts
        | Node _ _ _ cs _ => add new_counts cs
        end in
      let new_counts :=
        match r with
        | NULL => new_counts
        | Node _ _ _ cs _ => add new_counts cs
        end in
      (Node l k c new_counts r, negb (old_counts =? new_counts))
  end.

Fixpoint update_counts_to_root (p : path) (n : HistNode) : HistNode :=
  let (n', changed) := update_counts n in
  if changed then
    match p with
    | [] => n'
    | f :: p' => update_counts_to_root p' (up f n')
    end
  else plug p n'.

Definition update_from_parent_or (loc : path * HistNode) : HistNode :=
  match loc with
  | ([], child) => update_counts_to_root [] child
  | (f :: p', child) => update_counts_to_root p' (up f child)
  end.

(** ** Insertion *)

Fixpoint hist_insert_rec (n : HistNode) (k c : Z) : HistNode :=
  let n' :=
    match n with
    | NULL => hist_new_node k c NULL NULL
    | Node l key cnt cs r =>
        if k <? key then Node (hist_insert_rec l k c) key cnt cs r
        else if k >? key then Node l key cnt cs (hist_insert_rec r k c)
        else Node l key (add cnt c) cs r
    end in
  fst (update_counts n').

Section build.
Variable ndebug : bool.

(** [assert(b)], with the fault [f] when it fails. *)
Definition assert (b : bool) (f : fault) : result unit :=
  if ndebug then Done tt else if b then Done tt else Abort f.

(** The fault at a NULL pointer that an assertion with fault [f] guards. *)
Definition unguarded (f : fault) : fault :=
  if ndebug then null_dereference else f.

Definition hist_insert (H : Hist) (k c : Z) : result Hist :=
  do _ <- assert (c >=? 0) insert_negative_c;
  if c >? 0 then Done (mkHist (hist_insert_rec (root H) k c))
  else Done H.

(** ** Deletion *)

Definition hist_minimum (n : HistNode) : result (path * HistNode) :=
  match n with
  | NULL => Abort (unguarded minimum_of_null)
  | _ => Done (hist_minimum_from [] n)
  end.

Definition hist_delete (H : Hist) (v c : Z) : result Hist :=
  let n := hist_lookup H v in
  do _ <- assert (c >=? 0) delete_negative_c;
  match n with
  | None | Some (_, NULL) => Done H
  | Some (p, Node l key cnt cs r) =>
      let cnt' := sub cnt c in
      do _ <- assert (cnt' >=? 0) delete_underflow;
      if cnt' >? 0 then
        Done (mkHist (update_counts_to_root p (Node l key cnt' cs r)))
      else
        match l, r with
        | NULL, _ => Done (mkHist (update_from_parent_or (hist_transplant p r)))
        | _, NULL => Done (mkHist (update_from_parent_or (hist_transplant p l)))
        | _, _ =>
            do m <- hist_minimum r;
            match m with
            | (_, NULL) => Abort (unguarded minimum_of_null)
            | ([], Node _ km cm csm rm) =>
                Done (mkHist (update_counts_to_root p (Node l km cm csm rm)))
            | (f :: pm, Node _ km cm csm rm) =>
                Done (mkHist (update_counts_to_root
                                (pm ++ RightOf l km cm csm :: p) (up f rm)))
            end
        end
  end.

(** ** Merge, median *)

Fixpoint hist_add_rec (H : Hist) (n : HistNode) : result Hist :=
  match n with
  | NULL => Done H
  | Node l key cnt _ r =>
      do H1 <- hist_insert H key cnt;
      do H2 <- hist_add_rec H1 l;
      hist_add_rec H2 r
  end.

Definition hist_add (H1 H2 : Hist) : result Hist := hist_add_rec H1 (root H2).

Fixpoint hist_sub_rec (H : Hist) (n : HistNode) : result Hist :=
  match n with
  | NULL => Done H
  | Node l key cnt _ r =>
      do H1 <- hist_delete H key cnt;
      do H2 <- hist_sub_rec H1 l;
      hist_sub_rec H2 r
  end.

Definition hist_sub (H1 H2 : Hist) : result Hist := hist_sub_rec H1 (root H2).

Fixpoint hist_median_loop (n : HistNode) (target : Z) : result Z :=
  match n with
  | NULL => Abort (unguarded median_fell_off)
  | Node l key cnt cs r =>
      do _ <- assert (cs >=? target) median_target_too_big;
      let counts_left := counts_of l in
      if counts_left >? target then hist_median_loop l target
      else if target <? add counts_left cnt then Done key
      else hist_median_loop r (sub (sub target counts_left) cnt)
  end.

Definition hist_median (H : Hist) : result Z :=
  match root H with
  | NULL => Abort (unguarded median_of_empty)
  | Node _ _ _ cs _ => hist_median_loop (root H) (Z.quot cs 2)
  end.

(** ** Sequences of operations *)

Definition apply_op (H : Hist) (o : op) : result Hist :=
  match o with
  | Insert k c => hist_insert H k c
  | Delete k c => hist_delete H k c
  end.

Definition run (ops : list op) (H : Hist) : result Hist :=
  for_each apply_op ops H.

(** ** The row filter *)

Definition IDX (i j height width : Z) : Z :=
  let i := if i <? 0 then 0 else if i >=? height then sub height 1 else i in
  let j := if j <? 0 then 0 else if j >=? width then sub width 1 else j in
  add (mul i width) j.

Definition fill_histogram (hist : Hist) (in_ : list Z)
    (i j radius width height : Z) : result Hist :=
  for_each (fun hist di =>
    for_each (fun hist dj =>
      do val <- load in_ (IDX (add i di) (add j dj) height width);
      hist_insert hist val 1)
    (range (neg radius) radius) hist)
  (range (neg radius) radius) hist.

Definition shift_histogram (hist : Hist) (in_ : list Z)
    (i j radius width height : Z) : result Hist :=
  for_each (fun hist di =>
    do val_left <- load in_ (IDX (add i di) (sub j radius) height width);
    do hist <- hist_delete hist val_left 1;
    do val_right <-
      load in_ (IDX (add i di) (add (add j radius) 1) height width);
    hist_insert hist val_right 1)
  (range (neg radius) radius) hist.

Definition row_body (in_ : list Z) (radius width height i : Z)
    (st : Hist * list Z) (j : Z) : result (Hist * list Z) :=
  let (hist, out) := st in
  do m <- hist_median hist;
  do out <- store out (IDX i j height width) m;
  do hist <- shift_histogram hist in_ i j radius width height;
  Done (hist, out).

Definition filter_row (in_ : list Z) (radius width height : Z)
    (st : Hist * list Z) (i : Z) : result (Hist * list Z) :=
  let (hist, out) := st in
  let hist := hist_clear hist in
  do hist <- fill_histogram hist in_ i 0 radius width height;
  do st <- for_each (row_body in_ radius width height i)
             (seqZ 0 (sub width 1)) (hist, out);
  let (hist, out) := st in
  let j := Z.max 0 (sub width 1) in
  do m <- hist_median hist;
  do out <- store out (IDX i j height width) m;
  Done (hist, out).

Definition median_filter_2D_sparse_byrow (in_ out : list Z) (dims : list Z)
    (ndims radius : Z) : result (list Z) :=
  do _ <- assert (ndims =? 2) filter_ndims;
  do width <- load dims 0;
  do height <- load dims 1;
  let hist := hist_create in
  do st <- for_each (filter_row in_ radius width height)
             (seqZ 0 height) (hist, out);
  Done (snd st).

Definition worker_step (in_ : list Z) (radius width height : Z)
    (st : (nat → Hist) * list Z) (e : nat * Z)
  : result ((nat → Hist) * list Z) :=
  let (hists, out) := st in
  let (w, i) := e in
  do st' <- filter_row in_ radius width height (hists w, out) i;
  Done (λ w', if decide (w' = w) then fst st' else hists w', snd st').

Definition parallel_filter (sched : list (nat * Z)) (in_ out : list Z)
    (dims : list Z) (ndims radius : Z) : result (list Z) :=
  do _ <- assert (ndims =? 2) filter_ndims;
  do width <- load dims 0;
  do height <- load dims 1;
  do st <- for_each (worker_step in_ radius width height)
             sched (λ _, hist_create, out);
  Done (snd st).

Definition fresh_median (in_ : list Z) (radius width height i j : Z)
  : result Z :=
  do hist <- fill_histogram hist_create in_ i j radius width height;
  hist_median hist.

End build.

End I32.

(** ** Ranges *)

(** The values of type [int]. *)
Definition is_int (z : Z) : Prop := I32.INT_MIN ≤ z ≤ I32.INT_MAX.

(** A tree as the C structure can hold it after valid operations: no
    count is negative, [counts] is the sum at every node, and the sum is
    in the range of [int]. *)
Fixpoint fits (n : HistNode) : Prop :=
  match n with
  | NULL => True
  | Node l _ c cs r =>
      0 ≤ c ∧ cs = c + counts_of l + counts_of r ∧ cs ≤ I32.INT_MAX ∧
      fits l ∧ fits r
  end.

(** The number of occurrences that the inserts of a run add. *)
Fixpoint inserted (ops : list op) : Z :=
  match ops with
  | [] => 0
  | Insert _ c :: ops' => c + inserted ops'
  | Delete _ _ :: ops' => inserted ops'
  end.

(** The sizes and the radius for which no [int] of the filter overflows:
    the number of pixels and the number of samples of a window are in the
    range of [int], and so are the coordinates [radius] past the last row
    and the last column. *)
Record filter_sizes (width height radius : Z) : Prop := mk_filter_sizes {
  sizes_width : 0 < width;
  sizes_height : 0 < height;
  sizes_radius : 0 ≤ radius;
  sizes_pixels : width * height ≤ I32.INT_MAX;
  sizes_window : (2 * radius + 1) * (2 * radius + 1) ≤ I32.INT_MAX;
  sizes_columns : width + radius ≤ I32.INT_MAX;
  sizes_rows : height + radius ≤ I32.INT_MAX
}.

(** * Definitions used in the proofs *)

Fixpoint before (p : path) : list (Z * Z) :=
  match p with
  | [] => []
  | LeftOf _ _ _ _ :: p' => before p'
  | RightOf l k c _ :: p' => before p' ++ bindings l ++ [(k, c)]
  end.

Fixpoint after (p : path) : list (Z * Z) :=
  match p with
  | [] => []
  | LeftOf k c _ r :: p' => (k, c) :: bindings r ++ after p'
  | RightOf _ _ _ _ :: p' => after p'
  end.

(** The count [hist_get] reads, by recursion on the tree. *)
Fixpoint get_rec (n : HistNode) (v : Z) : Z :=
  match n with
  | NULL => 0
  | Node l key cnt _ r =>
      if key =? v then cnt
      else if v <? key then get_rec l v else get_rec r v
  end.

Definition frame_counts (f : frame) : Z :=
  match f with
  | LeftOf _ _ cs _ | RightOf _ _ _ cs => cs
  end.

Definition frame_sibling (f : frame) : HistNode :=
  match f with
  | LeftOf _ _ _ r => r
  | RightOf l _ _ _ => l
  end.

(** What [update_counts] computes for the parent when the child on the
    path has [counts] equal to [x]. *)
Definition frame_new (f : frame) (x : Z) : Z :=
  match f with
  | LeftOf _ c _ r => c + x + counts_of r
  | RightOf l _ c _ => c + counts_of l + x
  end.

(** The ancestors are consistent with a child whose [counts] is [x]. *)
Fixpoint path_ok (p : path) (x : Z) : Prop :=
  match p with
  | [] => True
  | f :: p' =>
      frame_counts f = frame_new f x ∧ counts_ok (frame_sibling f) ∧
      path_ok p' (frame_counts f)
  end.

(** When the walk that starts at a node whose stored [counts] is [old] and
    whose recomputed [counts] is [new] leaves every ancestor right: it
    reaches the root, or it stops where nothing above needs a change, or
    it goes on from the parent. *)
Inductive repairs : path → Z → Z → Prop :=
| repairs_root old new : repairs [] old new
| repairs_stop p new : path_ok p new → repairs p new new
| repairs_step f p old new :
    old ≠ new → counts_ok (frame_sibling f) →
    repairs p (frame_counts f) (frame_new f new) →
    repairs (f :: p) old new.

(** The stored and the recomputed [counts] of the topmost node of a path. *)
Fixpoint top_counts (p : path) (x : Z) : Z :=
  match p with
  | [] => x
  | f :: p' => top_counts p' (frame_counts f)
  end.

Fixpoint top_new (p : path) (x : Z) : Z :=
  match p with
  | [] => x
  | f :: p' => top_new p' (frame_new f x)
  end.

(** What is left of the node's own binding after [c] of its [cnt]
    occurrences are removed. *)
Definition remaining (v cnt c : Z) : list (Z * Z) :=
  if decide (c < cnt) then [(v, cnt - c)] else [].

(** The histogram holds the samples of the window at [(i, j)]. *)
Definition holds_window (in_ : list Z) (width height radius i j : Z)
    (hist : Hist) : Prop :=
  hist_inv hist ∧
  ∀ k, hist_get hist k = occ k (window in_ width height radius i j).

(** Columns [0 .. j-1] of row [i] of [out] hold the medians of their
    windows, and the rest of [out] is as in [out0]. *)
Definition row_written (in_ : list Z) (width height radius : Z)
    (out0 : list Z) (i j : Z) (out : list Z) : Prop :=
  length out = length out0 ∧
  ∀ q, 0 ≤ q →
    out !! Z.to_nat q =
    if decide (i * width ≤ q < i * width + j)
    then median_of (window in_ width height radius i (q - i * width))
    else out0 !! Z.to_nat q.

(** The rows [rows] of [out] hold the medians of their windows, and the
    rest of [out] is as in [out0]. *)
Definition written (in_ : list Z) (width height radius : Z)
    (out0 : list Z) (rows : list Z) (out : list Z) : Prop :=
  length out = length out0 ∧
  ∀ q, 0 ≤ q →
    out !! Z.to_nat q =
    if decide (q `div` width ∈ rows)
    then median_of (window in_ width height radius
                           (q `div` width) (q `mod` width))
    else out0 !! Z.to_nat q.

(** * Positions and contents *)

Lemma bindings_plug p n :
  bindings (plug p n) = before p ++ bindings n ++ after p.
Proof.
  revert n. induction p as [|[k c cs r|l k c cs] p IH]; intros n; simpl.
  - by rewrite app_nil_r.
  - rewrite IH. simpl. by rewrite <- !app_assoc.
  - rewrite IH. simpl. by rewrite <- !app_assoc.
Qed.

Lemma plug_app p1 p2 n : plug (p1 ++ p2) n = plug p2 (plug p1 n).
Proof. revert n. induction p1 as [|f p1 IH]; intros n; simpl; auto. Qed.

Lemma bindings_update_counts_to_root p n :
  bindings (update_counts_to_root p n) = bindings (plug p n).
Proof.
  revert n. induction p as [|f p IH]; intros n.
  - destruct n as [|l k c cs r]; simpl; [done|].
    by destruct (negb _).
  - destruct n as [|l k c cs r]; simpl; [done|].
    destruct (negb _).
    + rewrite IH, !bindings_plug. by destruct f.
    + rewrite !bindings_plug. by destruct f.
Qed.

Lemma before_app p1 p2 : before (p1 ++ p2) = before p2 ++ before p1.
Proof.
  induction p1 as [|[k c cs r|l k c cs] p1 IH]; simpl.
  - by rewrite app_nil_r.
  - done.
  - by rewrite IH, <- !app_assoc.
Qed.

Lemma after_app p1 p2 : after (p1 ++ p2) = after p1 ++ after p2.
Proof.
  induction p1 as [|[k c cs r|l k c cs] p1 IH]; simpl; [done| |done].
  by rewrite IH, <- !app_assoc.
Qed.

(** ** Arithmetic of contents *)

Lemma mult_app k bs1 bs2 : mult k (bs1 ++ bs2) = mult k bs1 + mult k bs2.
Proof. induction bs1 as [|[k' c] bs1 IH]; simpl; lia. Qed.

Lemma total_app bs1 bs2 : total (bs1 ++ bs2) = total bs1 + total bs2.
Proof. induction bs1 as [|[k' c] bs1 IH]; simpl; lia. Qed.

Lemma occ_app k xs ys : occ k (xs ++ ys) = occ k xs + occ k ys.
Proof. induction xs as [|x xs IH]; simpl; lia. Qed.

Lemma occ_nonneg k xs : 0 ≤ occ k xs.
Proof. induction xs as [|x xs IH]; simpl; [done|]. case_decide; lia. Qed.

Lemma mult_absent k bs : k ∉ bs.*1 → mult k bs = 0.
Proof.
  induction bs as [|[k' c] bs IH]; simpl; [done|].
  rewrite not_elem_of_cons. intros [? ?]. case_decide; [congruence|].
  rewrite IH; [lia|done].
Qed.

Lemma mult_nonneg k bs : Forall (λ b, 0 < b.2) bs → 0 ≤ mult k bs.
Proof.
  induction 1 as [|[k' c] bs Hc _ IH]; simpl in *; [done|].
  case_decide; lia.
Qed.

Lemma mult_pos k bs : Forall (λ b, 0 < b.2) bs → k ∈ bs.*1 → 0 < mult k bs.
Proof.
  induction 1 as [|[k' c] bs Hc Hbs IH]; simpl in *; [by rewrite elem_of_nil|].
  pose proof (mult_nonneg k bs Hbs). rewrite elem_of_cons.
  case_decide; [lia|]. intros [?|Hin]; [congruence|]. apply IH in Hin. lia.
Qed.

Lemma total_nonneg bs : Forall (λ b, 0 < b.2) bs → 0 ≤ total bs.
Proof. induction 1 as [|[k' c] bs Hc _ IH]; simpl in *; lia. Qed.

Lemma total_pos bs : Forall (λ b, 0 < b.2) bs → bs ≠ [] → 0 < total bs.
Proof.
  destruct 1 as [|[k' c] bs Hc Hbs]; [done|]. intros _. simpl in *.
  pose proof (total_nonneg _ Hbs). lia.
Qed.

Lemma bindings_nonempty l k c cs r : bindings (Node l k c cs r) ≠ [].
Proof. simpl. by destruct (bindings l). Qed.

Lemma counts_of_total n : counts_ok n → counts_of n = total (bindings n).
Proof.
  induction n as [|l IHl k c cs r IHr]; simpl; [done|].
  intros (-> & Hl & Hr). rewrite total_app. simpl.
  rewrite IHl, IHr by done. lia.
Qed.

(** ** Ordering *)

Lemma keys_node l k c cs r : keys (Node l k c cs r) = keys l ++ k :: keys r.
Proof. unfold keys. simpl. by rewrite fmap_app. Qed.

Lemma ordered_node l k c cs r :
  ordered (Node l k c cs r) ↔
  ordered l ∧ ordered r ∧
  Forall (λ x, x < k) (keys l) ∧ Forall (λ x, k < x) (keys r).
Proof.
  unfold ordered. rewrite keys_node, StronglySorted_app, StronglySorted_cons.
  rewrite !Forall_forall. split.
  - intros (Hlr & Hl & Hr & Hrs). repeat split; try done.
    intros x Hx. apply Hlr; [done|]. apply list_elem_of_here.
  - intros (Hl & Hr & Hlk & Hrk). repeat split; try done.
    intros x1 x2 Hx1 Hx2. apply Hlk in Hx1.
    apply elem_of_cons in Hx2 as [->|Hx2]; [done|].
    apply Hrk in Hx2. lia.
Qed.


(** * Lookup *)

Lemma hist_lookup_from_get p n v :
  match hist_lookup_from p n v with
  | Some (_, Node _ _ cnt _ _) => cnt
  | _ => 0
  end = get_rec n v.
Proof.
  revert p. induction n as [|l IHl k c cs r IHr]; intros p; simpl; [done|].
  destruct (k =? v); [done|]. destruct (v <? k); auto.
Qed.

Lemma hist_get_get_rec H k : hist_get H k = get_rec (root H) k.
Proof. apply hist_lookup_from_get. Qed.

Lemma get_rec_mult n v : ordered n → get_rec n v = mult v (bindings n).
Proof.
  induction n as [|l IHl k c cs r IHr]; simpl; [done|].
  rewrite ordered_node. intros (Hl & Hr & Hlk & Hrk).
  rewrite mult_app. simpl.
  assert (Hout_l : k ≤ v → mult v (bindings l) = 0).
  { intros ?. apply mult_absent. intros Hin.
    rewrite Forall_forall in Hlk. apply Hlk in Hin. lia. }
  assert (Hout_r : v ≤ k → mult v (bindings r) = 0).
  { intros ?. apply mult_absent. intros Hin.
    rewrite Forall_forall in Hrk. apply Hrk in Hin. lia. }
  destruct (Z.eqb_spec k v) as [->|Hne].
  - rewrite decide_True by done. rewrite Hout_l, Hout_r by lia. lia.
  - rewrite decide_False by done.
    destruct (Z.ltb_spec v k).
    + rewrite IHl, Hout_r by (done || lia). lia.
    + rewrite IHr, Hout_l by (done || lia). lia.
Qed.

Lemma hist_get_mult H k :
  ordered (root H) → hist_get H k = mult k (bindings (root H)).
Proof. intros. rewrite hist_get_get_rec. by apply get_rec_mult. Qed.

Lemma hist_lookup_from_Some p n v p' n' :
  hist_lookup_from p n v = Some (p', n') →
  plug p' n' = plug p n ∧ ∃ l c cs r, n' = Node l v c cs r.
Proof.
  revert p. induction n as [|l IHl k c cs r IHr]; intros p; simpl; [done|].
  destruct (Z.eqb_spec k v) as [->|Hne].
  - intros [= <- <-]. eauto 10.
  - destruct (v <? k); intros Hlk.
    + apply IHl in Hlk as [-> ?]. done.
    + apply IHr in Hlk as [-> ?]. done.
Qed.

(** * Insertion *)

Lemma hist_insert_rec_node l key cnt cs r k c :
  hist_insert_rec (Node l key cnt cs r) k c =
  if k <? key then
    let l' := hist_insert_rec l k c in
    Node l' key cnt (cnt + counts_of l' + counts_of r) r
  else if k >? key then
    let r' := hist_insert_rec r k c in
    Node l key cnt (cnt + counts_of l + counts_of r') r'
  else Node l key (cnt + c) (cnt + c + counts_of l + counts_of r) r.
Proof. simpl. destruct (k <? key); [done|]. by destruct (k >? key). Qed.

Lemma counts_ok_insert_rec n k c :
  counts_ok n → counts_ok (hist_insert_rec n k c).
Proof.
  induction n as [|l IHl key cnt cs r IHr]; [done|].
  intros (_ & Hl & Hr). rewrite hist_insert_rec_node.
  destruct (k <? key); [|destruct (k >? key)]; simpl; auto.
Qed.

Lemma bindings_insert_rec_mult n k c j :
  mult j (bindings (hist_insert_rec n k c)) =
  mult j (bindings n) + (if decide (k = j) then c else 0).
Proof.
  induction n as [|l IHl key cnt cs r IHr].
  - simpl. lia.
  - rewrite hist_insert_rec_node.
    destruct (Z.ltb_spec k key); [|destruct (Z.gtb_spec k key)]; simpl;
      rewrite !mult_app; simpl; rewrite ?IHl, ?IHr; try lia.
    assert (k = key) as -> by lia. repeat case_decide; lia.
Qed.

Lemma bindings_insert_rec_total n k c :
  total (bindings (hist_insert_rec n k c)) = total (bindings n) + c.
Proof.
  induction n as [|l IHl key cnt cs r IHr].
  - simpl. lia.
  - rewrite hist_insert_rec_node.
    destruct (k <? key); [|destruct (k >? key)]; simpl;
      rewrite !total_app; simpl; rewrite ?IHl, ?IHr; lia.
Qed.

Lemma keys_insert_rec (P : Z → Prop) n k c :
  P k → Forall P (keys n) → Forall P (keys (hist_insert_rec n k c)).
Proof.
  intros Hk. induction n as [|l IHl key cnt cs r IHr].
  - intros _. unfold keys. simpl. by constructor.
  - rewrite hist_insert_rec_node, keys_node, Forall_app, Forall_cons.
    intros (Hl & Hkey & Hr).
    destruct (k <? key); [|destruct (k >? key)]; simpl;
      rewrite keys_node, Forall_app, Forall_cons; auto.
Qed.

Lemma ordered_insert_rec n k c : ordered n → ordered (hist_insert_rec n k c).
Proof.
  induction n as [|l IHl key cnt cs r IHr].
  - intros _. unfold ordered, keys. simpl. repeat constructor.
  - rewrite hist_insert_rec_node, ordered_node.
    intros (Hl & Hr & Hlk & Hrk).
    destruct (Z.ltb_spec k key); [|destruct (Z.gtb_spec k key)]; simpl;
      rewrite ordered_node; repeat split; auto using keys_insert_rec.
Qed.

Lemma positive_insert_rec n k c :
  0 < c → positive n → positive (hist_insert_rec n k c).
Proof.
  intros Hc. unfold positive. induction n as [|l IHl key cnt cs r IHr].
  - intros _. simpl. by repeat constructor.
  - rewrite hist_insert_rec_node. simpl.
    rewrite Forall_app, Forall_cons. intros (Hl & Hkey & Hr). simpl in Hkey.
    destruct (k <? key); [|destruct (k >? key)]; simpl;
      rewrite Forall_app, Forall_cons; simpl; repeat split; auto; lia.
Qed.

Lemma hist_inv_create : hist_inv hist_create.
Proof. split; simpl; [done|constructor|constructor]. Qed.

(** Insertion of a valid multiplicity succeeds, keeps the invariants and
    adds [c] occurrences of [k] and of nothing else. *)
Lemma hist_insert_spec H k c :
  hist_inv H → 0 ≤ c →
  ∃ H', hist_insert H k c = Done H' ∧ hist_inv H' ∧
        (∀ j, hist_get H' j = hist_get H j + (if decide (k = j) then c else 0)) ∧
        total (bindings (root H')) = total (bindings (root H)) + c.
Proof.
  intros [Hc Ho Hp] Hc0. unfold hist_insert.
  destruct (Z.ltb_spec c 0); [lia|].
  destruct (Z.gtb_spec c 0).
  - eexists. split; [done|]. split; [|split].
    + split; simpl;
        auto using counts_ok_insert_rec, ordered_insert_rec, positive_insert_rec.
    + intros j. rewrite !hist_get_mult by (simpl; auto using ordered_insert_rec).
      apply bindings_insert_rec_mult.
    + apply bindings_insert_rec_total.
  - assert (c = 0) as -> by lia. exists H. repeat split; try done.
    + intros j. case_decide; lia.
    + lia.
Qed.

(** * The bottom-up repair of [counts] *)

Lemma counts_ok_plug p n :
  counts_ok (plug p n) ↔ counts_ok n ∧ path_ok p (counts_of n).
Proof.
  revert n. induction p as [|f p IH]; intros n; simpl; [tauto|].
  rewrite IH. destruct f; simpl; tauto.
Qed.

Lemma update_counts_to_root_unfold p n :
  update_counts_to_root p n =
  let (n', changed) := update_counts n in
  if changed then
    match p with
    | [] => n'
    | f :: p' => update_counts_to_root p' (up f n')
    end
  else plug p n'.
Proof. by destruct p. Qed.

Lemma counts_ok_update_counts_to_root p l k c cs r :
  counts_ok l → counts_ok r →
  repairs p cs (c + counts_of l + counts_of r) →
  counts_ok (update_counts_to_root p (Node l k c cs r)).
Proof.
  intros Hl Hr Hrep. remember (c + counts_of l + counts_of r) as new eqn:Hnew.
  revert l k c r Hl Hr Hnew.
  induction Hrep as [old new|p new Hp|f p old new Hne Hsib Hrep IH];
    intros l k c r Hl Hr Hnew; rewrite update_counts_to_root_unfold; simpl;
    rewrite <- Hnew.
  - by destruct (negb _).
  - rewrite Z.eqb_refl. simpl. by apply counts_ok_plug.
  - destruct (Z.eqb_spec old new); [done|]. simpl.
    destruct f; simpl in *; apply IH; simpl; auto.
Qed.

Lemma repairs_consistent p old new : path_ok p old → repairs p old new.
Proof.
  revert old new. induction p as [|f p IH]; intros old new Hp.
  - constructor.
  - destruct (decide (old = new)) as [->|Hne]; [by constructor|].
    destruct Hp as (_ & Hsib & Hp). constructor; auto.
Qed.

Lemma frame_new_shift f x y : frame_new f y = frame_new f x + (y - x).
Proof. destruct f; simpl; lia. Qed.

Lemma top_new_shift p old new :
  path_ok p old → top_new p new = top_counts p old + (new - old).
Proof.
  revert old new. induction p as [|f p IH]; intros old new; simpl; [lia|].
  intros (Hf & _ & Hp). rewrite (IH _ _ Hp), Hf, (frame_new_shift f old new).
  lia.
Qed.

Lemma top_counts_total p x :
  path_ok p x → top_counts p x = total (before p) + x + total (after p).
Proof.
  revert x. induction p as [|f p IH]; intros x; simpl; [lia|].
  intros (Hf & Hsib & Hp). rewrite (IH _ Hp), Hf.
  destruct f; simpl in *; rewrite ?total_app; simpl;
    rewrite ?total_app, (counts_of_total _ Hsib); simpl; lia.
Qed.

(** A walk that starts with a change goes through a consistent stretch of
    path changing every node of it. *)
Lemma repairs_app p1 p2 old new :
  path_ok p1 old → old ≠ new →
  repairs p2 (top_counts p1 old) (top_new p1 new) →
  repairs (p1 ++ p2) old new.
Proof.
  revert old new. induction p1 as [|f p1 IH]; intros old new; simpl; [done|].
  intros (Hf & Hsib & Hp) Hne Hrep. constructor; [done..|].
  apply IH; [done| |done].
  rewrite Hf, (frame_new_shift f old new). lia.
Qed.

(** ** The position of the minimum *)

Lemma hist_minimum_from_spec p l k c cs r :
  ∃ pm km cm csm rm,
    hist_minimum_from p (Node l k c cs r) = (pm ++ p, Node NULL km cm csm rm) ∧
    plug pm (Node NULL km cm csm rm) = Node l k c cs r ∧
    before pm = [].
Proof.
  revert p k c cs r. induction l as [|ll IHll kl cl csl lr _]; intros p k c cs r.
  - by exists [], k, c, cs, r.
  - destruct (IHll (LeftOf k c cs r :: p) kl cl csl lr)
      as (pm & km & cm & csm & rm & Hmin & Hplug & Hbefore).
    exists (pm ++ [LeftOf k c cs r]), km, cm, csm, rm. split; [|split].
    + simpl in *. rewrite Hmin. by rewrite <- app_assoc.
    + by rewrite plug_app, Hplug.
    + rewrite before_app. simpl. done.
Qed.

(** * Deletion *)

Lemma repairs_changed p x old new :
  path_ok p x → old ≠ new → repairs p old new.
Proof.
  destruct p as [|f p]; [constructor|].
  intros (_ & Hsib & Hp) Hne. constructor; auto using repairs_consistent.
Qed.

Lemma positive_node l k c cs r :
  positive (Node l k c cs r) ↔ positive l ∧ 0 < c ∧ positive r.
Proof. unfold positive. simpl. by rewrite Forall_app, Forall_cons. Qed.

Lemma positive_plug p n :
  positive (plug p n) ↔
  Forall (λ b, 0 < b.2) (before p) ∧ positive n ∧ Forall (λ b, 0 < b.2) (after p).
Proof. unfold positive. by rewrite bindings_plug, !Forall_app. Qed.

Lemma counts_of_pos l k c cs r :
  counts_ok (Node l k c cs r) → positive (Node l k c cs r) →
  0 < counts_of (Node l k c cs r).
Proof.
  intros Hc Hp. rewrite (counts_of_total _ Hc).
  apply total_pos; [done|apply bindings_nonempty].
Qed.

Lemma counts_of_nonneg n : counts_ok n → positive n → 0 ≤ counts_of n.
Proof. intros Hc Hp. rewrite (counts_of_total _ Hc). by apply total_nonneg. Qed.

Arguments update_counts_to_root : simpl never.

Local Ltac same_list :=
  repeat (progress (simpl; rewrite <- ?app_assoc)); rewrite ?app_nil_r.

Lemma hist_delete_found H v c p l cnt cs r :
  hist_lookup H v = Some (p, Node l v cnt cs r) →
  counts_ok (plug p (Node l v cnt cs r)) →
  positive (plug p (Node l v cnt cs r)) →
  0 ≤ c ≤ cnt →
  ∃ t, hist_delete H v c = Done (mkHist t) ∧ counts_ok t ∧
       bindings t =
         before p ++ bindings l ++ remaining v cnt c ++ bindings r ++ after p.
Proof.
  intros Hlk Hc Hpos Hrange. unfold hist_delete, remaining. rewrite Hlk.
  apply counts_ok_plug in Hc as [(Hcs & Hl & Hr) Hp]. simpl in Hp.
  apply positive_plug in Hpos as (_ & Hpos & _).
  apply positive_node in Hpos as (Hposl & Hcnt & Hposr).
  destruct (Z.ltb_spec c 0); [lia|].
  destruct (Z.ltb_spec (cnt - c) 0); [lia|].
  destruct (Z.gtb_spec (cnt - c) 0).
  { (* some occurrences remain *)
    rewrite decide_True by lia. eexists. split; [done|]. split.
    - apply counts_ok_update_counts_to_root; [done..|].
      by apply repairs_consistent.
    - rewrite bindings_update_counts_to_root, bindings_plug. by same_list. }
  rewrite decide_False by lia. simpl.
  destruct l as [|ll kl cl csl lr].
  { (* no left child *)
    eexists. split; [done|]. unfold hist_transplant, update_from_parent_or.
    destruct p as [|f p].
    - split; [|rewrite bindings_update_counts_to_root; by same_list].
      destruct r; [done|]. destruct Hr as (? & ? & ?).
      apply counts_ok_update_counts_to_root; [done..|constructor].
    - destruct Hp as (Hf & Hsib & Hp).
      split; [|rewrite bindings_update_counts_to_root, !bindings_plug;
               destruct f; by same_list].
      destruct f; simpl in *;
        (apply counts_ok_update_counts_to_root;
         [done..|by apply repairs_consistent]). }
  destruct r as [|rl kr cr csr rr].
  { (* a left child only *)
    eexists. split; [done|]. unfold hist_transplant, update_from_parent_or.
    destruct p as [|f p].
    - split; [|rewrite bindings_update_counts_to_root; by same_list].
      destruct Hl as (? & ? & ?).
      apply counts_ok_update_counts_to_root; [done..|constructor].
    - destruct Hp as (Hf & Hsib & Hp).
      split; [|rewrite bindings_update_counts_to_root, !bindings_plug;
               destruct f; by same_list].
      destruct f; simpl in *;
        (apply counts_ok_update_counts_to_root;
         [done..|by apply repairs_consistent]). }
  (* two children: the minimum of the right subtree is promoted *)
  pose proof (counts_of_pos _ _ _ _ _ Hl Hposl) as Hlpos.
  destruct (hist_minimum_from_spec [] rl kr cr csr rr)
    as (pm & km & cm & csm & rm & Hmin & Hplug & Hbefore).
  unfold hist_minimum. rewrite Hmin, app_nil_r. simpl bind.
  rewrite <- Hplug in Hr, Hposr.
  assert (bindings (Node rl kr cr csr rr) =
          (km, cm) :: bindings rm ++ after pm) as Hbr.
  { by rewrite <- Hplug, bindings_plug, Hbefore. }
  apply counts_ok_plug in Hr as [(Hcsm & _ & Hrm) Hpm]. simpl in Hcsm, Hpm.
  apply positive_plug in Hposr as (_ & Hposm & Hafter).
  apply positive_node in Hposm as (_ & Hcm & Hposrm).
  pose proof (counts_of_nonneg _ Hrm Hposrm) as Hrmpos.
  destruct pm as [|f pm].
  { (* the right child itself *)
    eexists. split; [done|]. split.
    - apply counts_ok_update_counts_to_root; [done..|].
      eapply repairs_changed; [done|]. simpl in *. lia.
    - rewrite bindings_update_counts_to_root, bindings_plug, Hbr.
      by same_list. }
  (* a node further down the left spine of the right subtree *)
  destruct f as [kp cp csp rp|? ? ? ?];
    [|by simpl in Hbefore; destruct (before pm), (bindings _)].
  simpl in Hbefore, Hpm, Hafter, Hbr. destruct Hpm as (Hcsp & Hrp & Hpm).
  apply Forall_cons in Hafter as [Hcp Hafter]. simpl in Hcp.
  apply Forall_app in Hafter as [Hposrp Hafter].
  pose proof (counts_of_nonneg _ Hrp Hposrp) as Hrppos.
  eexists. split; [done|]. split.
  - simpl up. apply counts_ok_update_counts_to_root; [done..|].
    apply repairs_app; [done|lia|].
    rewrite (top_new_shift _ _ _ Hpm).
    pose proof (top_counts_total _ _ Hpm) as Htop. rewrite Hbefore in Htop.
    pose proof (total_nonneg _ Hafter). simpl in Htop.
    constructor; [lia|done|]. simpl in *.
    eapply repairs_changed; [done|]. lia.
  - rewrite bindings_update_counts_to_root, bindings_plug, before_app, after_app.
    simpl. rewrite Hbr, Hbefore. by same_list.
Qed.

Section remaining.
Context (A B : list (Z * Z)) (v cnt c : Z).

Lemma remaining_ordered :
  StronglySorted Z.lt (A ++ (v, cnt) :: B).*1 →
  StronglySorted Z.lt (A ++ remaining v cnt c ++ B).*1.
Proof.
  unfold remaining. case_decide; simpl; [by rewrite !fmap_app|].
  rewrite !fmap_app, fmap_cons, !StronglySorted_app, StronglySorted_cons.
  intros (Hab & HA & _ & HB). repeat split; [|done..].
  intros x1 x2 ? ?. apply Hab; [done|]. by apply list_elem_of_further.
Qed.

Lemma remaining_positive :
  Forall (λ b, 0 < b.2) (A ++ (v, cnt) :: B) →
  Forall (λ b, 0 < b.2) (A ++ remaining v cnt c ++ B).
Proof.
  unfold remaining. rewrite !Forall_app, Forall_cons. intros (? & ? & ?).
  repeat split; [done| |done].
  case_decide; repeat constructor. simpl. lia.
Qed.

Lemma remaining_mult j :
  c ≤ cnt →
  mult j (A ++ remaining v cnt c ++ B) =
  mult j (A ++ (v, cnt) :: B) - (if decide (v = j) then c else 0).
Proof.
  unfold remaining. intros ?. rewrite !mult_app. simpl.
  repeat case_decide; simpl; rewrite ?decide_True, ?decide_False by done; lia.
Qed.

Lemma remaining_total :
  c ≤ cnt →
  total (A ++ remaining v cnt c ++ B) = total (A ++ (v, cnt) :: B) - c.
Proof.
  unfold remaining. intros ?. rewrite !total_app. simpl.
  case_decide; simpl; lia.
Qed.
End remaining.

(** Deleting no more than is recorded succeeds, keeps the invariants and
    removes [c] occurrences of [v] and of nothing else. *)
Lemma hist_delete_spec H v c :
  hist_inv H → 0 ≤ c ≤ hist_get H v →
  ∃ H', hist_delete H v c = Done H' ∧ hist_inv H' ∧
        (∀ j, hist_get H' j = hist_get H j - (if decide (v = j) then c else 0)) ∧
        total (bindings (root H')) = total (bindings (root H)) - c.
Proof.
  intros [Hc Ho Hp] Hrange.
  destruct (hist_lookup H v) as [[p n]|] eqn:Hlk.
  - destruct (hist_lookup_from_Some _ _ _ _ _ Hlk)
      as (Hplug & l & cnt & cs & r & ->).
    simpl in Hplug.
    assert (hist_get H v = cnt) as Hget by (unfold hist_get; by rewrite Hlk).
    rewrite Hget in Hrange.
    assert (bindings (root H) =
            (before p ++ bindings l) ++ (v, cnt) :: bindings r ++ after p) as Hb.
    { rewrite <- Hplug, bindings_plug. by same_list. }
    rewrite <- Hplug in Hc, Hp.
    destruct (hist_delete_found H v c p l cnt cs r Hlk Hc Hp Hrange)
      as (t & Hdel & Hct & Hbt).
    rewrite app_assoc in Hbt.
    assert (ordered t) as Hot.
    { unfold ordered, keys in *. rewrite Hbt. apply remaining_ordered.
      by rewrite <- Hb. }
    exists (mkHist t). split; [done|]. split; [|split].
    + split; simpl; [done..|]. unfold positive. rewrite Hbt.
      apply remaining_positive. rewrite <- Hb, <- Hplug. apply Hp.
    + intros j. rewrite !hist_get_mult by done. simpl.
      rewrite Hbt, Hb. apply remaining_mult. lia.
    + simpl. rewrite Hbt, Hb. apply remaining_total. lia.
  - assert (hist_get H v = 0) as Hget by (unfold hist_get; by rewrite Hlk).
    assert (c = 0) as -> by lia.
    exists H. unfold hist_delete. rewrite Hlk. simpl.
    repeat split; [done..| |lia]. intros j. case_decide; lia.
Qed.

(** A key with no node: deletion returns at once, whatever [c ≥ 0] is. *)
Lemma hist_delete_not_found H v c :
  0 ≤ c → hist_lookup H v = None → hist_delete H v c = Done H.
Proof.
  intros ? Hlk. unfold hist_delete. rewrite Hlk.
  by destruct (Z.ltb_spec c 0); [lia|].
Qed.

Lemma hist_lookup_found_get H v p n :
  hist_lookup H v = Some (p, n) →
  ∃ l cs r, n = Node l v (hist_get H v) cs r.
Proof.
  intros Hlk. destruct (hist_lookup_from_Some _ _ _ _ _ Hlk)
    as (_ & l & cnt & cs & r & ->).
  exists l, cs, r. unfold hist_get. by rewrite Hlk.
Qed.

(** Under the invariants a key has a node exactly when its count is not 0. *)
Lemma hist_lookup_None_iff H v :
  hist_inv H → hist_lookup H v = None ↔ hist_get H v = 0.
Proof.
  intros [Hc Ho Hp]. split.
  - intros Hlk. unfold hist_get. by rewrite Hlk.
  - intros Hget. destruct (hist_lookup H v) as [[p n]|] eqn:Hlk; [|done].
    destruct (hist_lookup_from_Some _ _ _ _ _ Hlk)
      as (Hplug & l & cnt & cs & r & ->).
    simpl in Hplug. rewrite <- Hplug in Hp.
    apply positive_plug in Hp as (_ & Hp & _).
    apply positive_node in Hp as (_ & Hcnt & _).
    unfold hist_get in Hget. rewrite Hlk in Hget. lia.
Qed.

(** More occurrences requested than the node records: the assertion on
    [n->count] fails. *)
Lemma hist_delete_underflow H v c :
  0 < hist_get H v < c → hist_delete H v c = Abort delete_underflow.
Proof.
  intros Hget. unfold hist_delete.
  destruct (Z.ltb_spec c 0); [lia|].
  destruct (hist_lookup H v) as [[p n]|] eqn:Hlk.
  - destruct (hist_lookup_found_get _ _ _ _ Hlk) as (l & cs & r & ->).
    by destruct (Z.ltb_spec (hist_get H v - c) 0); [|lia].
  - unfold hist_get in Hget. rewrite Hlk in Hget. lia.
Qed.

(** * The median *)

Lemma expand_app bs1 bs2 : expand (bs1 ++ bs2) = expand bs1 ++ expand bs2.
Proof.
  induction bs1 as [|[k c] bs1 IH]; simpl; [done|].
  by rewrite IH, app_assoc.
Qed.

Lemma length_expand bs :
  Forall (λ b, 0 < b.2) bs → Z.of_nat (length (expand bs)) = total bs.
Proof.
  induction 1 as [|[k c] bs Hc _ IH]; simpl in *; [done|].
  rewrite length_app, length_replicate. lia.
Qed.

Lemma elements_node l k c cs r :
  elements (Node l k c cs r) =
  elements l ++ replicate (Z.to_nat c) k ++ elements r.
Proof. unfold elements. simpl. by rewrite expand_app. Qed.

Lemma length_elements n :
  counts_ok n → positive n → Z.of_nat (length (elements n)) = counts_of n.
Proof.
  intros Hc Hp. unfold elements. rewrite length_expand by done.
  by rewrite counts_of_total.
Qed.

(** The descent of [hist_median] finds the occurrence of rank [target]. *)
Lemma hist_median_loop_rank n target :
  counts_ok n → positive n → 0 ≤ target < counts_of n →
  ∃ m, hist_median_loop n target = Done m ∧
       elements n !! Z.to_nat target = Some m.
Proof.
  revert target. induction n as [|l IHl k c cs r IHr]; intros target Hc Hp Ht.
  { simpl in Ht. lia. }
  pose proof Hc as (Hcs & Hl & Hr).
  apply positive_node in Hp as (Hpl & Hcpos & Hpr).
  pose proof (length_elements _ Hl Hpl) as Hlenl.
  pose proof (counts_of_nonneg _ Hr Hpr) as Hrnn.
  simpl in Ht. simpl hist_median_loop. rewrite elements_node.
  destruct (Z.ltb_spec cs target); [lia|].
  destruct (Z.gtb_spec (counts_of l) target).
  - destruct (IHl target) as (m & Hm & Hlook); [done|done|lia|].
    exists m. split; [done|]. rewrite lookup_app_l by lia. done.
  - destruct (Z.ltb_spec target (counts_of l + c)).
    + exists k. split; [done|].
      rewrite lookup_app_r, lookup_app_l by (rewrite ?length_replicate; lia).
      apply lookup_replicate_2. lia.
    + destruct (IHr (target - counts_of l - c)) as (m & Hm & Hlook);
        [done|done|lia|].
      exists m. split; [done|].
      rewrite !lookup_app_r by (rewrite ?length_replicate; lia).
      rewrite length_replicate, <- Hlook. f_equal. lia.
Qed.

(** The in-order expansion of an ordered tree is sorted already. *)
Lemma elem_of_expand x bs : x ∈ expand bs → x ∈ bs.*1.
Proof.
  induction bs as [|[k c] bs IH]; simpl; [done|].
  rewrite elem_of_app, elem_of_cons. intros [Hx|Hx]; [|auto].
  apply elem_of_replicate in Hx as [-> _]. by left.
Qed.

Lemma sorted_replicate n (k : Z) : StronglySorted Z.le (replicate n k).
Proof.
  induction n as [|n IH]; simpl; constructor; [done|].
  apply Forall_forall. intros x Hx.
  apply elem_of_replicate in Hx as [-> _]. done.
Qed.

Lemma sorted_expand bs :
  StronglySorted Z.lt bs.*1 → StronglySorted Z.le (expand bs).
Proof.
  induction bs as [|[k c] bs IH]; simpl; [constructor|].
  rewrite StronglySorted_cons, Forall_forall. intros [Hk Hbs].
  apply StronglySorted_app_2; [|apply sorted_replicate|auto].
  intros x1 x2 Hx1 Hx2. apply elem_of_replicate in Hx1 as [-> _].
  apply elem_of_expand, Hk in Hx2. lia.
Qed.

(** A sorted sequence is determined by what it contains. *)
Lemma sorted_Permutation_eq (s1 s2 : list Z) :
  Sorted Z.le s1 → Sorted Z.le s2 → s1 ≡ₚ s2 → s1 = s2.
Proof. apply (Sorted_unique Z.le). Qed.

Lemma sorted_occurrences_elements H :
  ordered (root H) → sorted_occurrences H = elements (root H).
Proof.
  intros Ho. apply sorted_Permutation_eq.
  - apply (Sorted_merge_sort Z.le).
  - apply StronglySorted_Sorted, sorted_expand, Ho.
  - apply (merge_sort_Permutation Z.le).
Qed.

Lemma hist_is_empty_false H :
  hist_inv H → hist_is_empty H = false → 0 < counts_of (root H).
Proof.
  intros [Hc Ho Hp]. unfold hist_is_empty.
  destruct (root H) as [|l k c cs r] eqn:Hroot; [done|]. intros _.
  by apply counts_of_pos.
Qed.

Lemma hist_is_empty_true H :
  hist_inv H → hist_is_empty H = true → root H = NULL.
Proof.
  intros [Hc Ho Hp]. unfold hist_is_empty.
  destruct (root H) as [|l k c cs r] eqn:Hroot; [done|].
  pose proof (counts_of_pos _ _ _ _ _ Hc Hp). simpl in *.
  destruct (Z.eqb_spec cs 0); [lia|done].
Qed.

(** The median of a non-empty histogram is the occurrence of rank
    [totalCount / 2] of its elements. *)
Lemma hist_median_elements H :
  hist_inv H → hist_is_empty H = false →
  ∃ m, hist_median H = Done m ∧
       elements (root H) !! (length (elements (root H)) `div` 2)%nat = Some m.
Proof.
  intros HH Hne. pose proof (hist_is_empty_false _ HH Hne) as Hpos.
  destruct HH as [Hc Ho Hp].
  pose proof (length_elements _ Hc Hp) as Hlen.
  unfold hist_median. destruct (root H) as [|l k c cs r] eqn:Hroot; [done|].
  simpl in Hpos. rewrite Z.quot_div_nonneg by lia.
  destruct (hist_median_loop_rank (Node l k c cs r) (cs `div` 2))
    as (m & Hm & Hlook);
    [done|done|simpl; split; [apply Z.div_pos|apply Z.div_lt]; lia|].
  exists m. split; [done|]. rewrite <- Hlook. f_equal.
  simpl in Hlen. rewrite <- Hlen.
  rewrite <- (Nat2Z.id (_ `div` 2)%nat), Nat2Z.inj_div. done.
Qed.

(** * Runs of operations *)

Lemma net_app k ops1 ops2 : net k (ops1 ++ ops2) = net k ops1 + net k ops2.
Proof.
  induction ops1 as [|[k' c|k' c] ops1 IH]; simpl; rewrite ?IH; lia.
Qed.

Lemma hist_get_nonneg H k : hist_inv H → 0 ≤ hist_get H k.
Proof.
  intros [Hc Ho Hp]. rewrite hist_get_mult by done. by apply mult_nonneg.
Qed.

(** A deletion that returns either found no node or was within its
    precondition. *)
Lemma hist_delete_Done H v c H' :
  hist_inv H → hist_delete H v c = Done H' →
  0 ≤ c ∧ ((hist_get H v = 0 ∧ H' = H) ∨ c ≤ hist_get H v).
Proof.
  intros HH Hdel. unfold hist_delete in Hdel.
  destruct (Z.ltb_spec c 0); [done|]. split; [done|].
  destruct (hist_lookup H v) as [[p n]|] eqn:Hlk.
  - right. destruct (hist_lookup_found_get _ _ _ _ Hlk) as (l & cs & r & ->).
    destruct (Z.ltb_spec (hist_get H v - c) 0); [done|lia].
  - left. apply hist_lookup_None_iff in Hlk; [|done]. by injection Hdel.
Qed.

Lemma apply_op_inv H o H' :
  hist_inv H → apply_op H o = Done H' → hist_inv H'.
Proof.
  intros HH. destruct o as [k c|k c]; simpl; intros Hop.
  - unfold hist_insert in Hop. destruct (Z.ltb_spec c 0); [done|].
    destruct (hist_insert_spec H k c HH) as (H1 & Hins & HH1 & _); [done|].
    unfold hist_insert in Hins. destruct (Z.ltb_spec c 0); [lia|]. congruence.
  - destruct (hist_delete_Done _ _ _ _ HH Hop) as (Hc & [[_ ->]|Hle]); [done|].
    destruct (hist_delete_spec H k c HH) as (H1 & Hdel & HH1 & _); [done|].
    congruence.
Qed.

Lemma run_inv ops H H' : hist_inv H → run ops H = Done H' → hist_inv H'.
Proof.
  revert H. induction ops as [|o ops IH]; intros H HH; simpl.
  - by intros [= <-].
  - unfold run. simpl. destruct (apply_op H o) as [H1|] eqn:Hop; [|done].
    simpl. apply IH. by eapply apply_op_inv.
Qed.

Lemma run_net prev ops H :
  hist_inv H → (∀ k, hist_get H k = net k prev) → preconditions prev ops →
  ∃ H', run ops H = Done H' ∧ hist_inv H' ∧
        ∀ k, hist_get H' k = net k (prev ++ ops).
Proof.
  revert prev H. induction ops as [|[k c|k c] ops IH]; intros prev H HH Hget.
  - intros _. exists H. rewrite app_nil_r. done.
  - intros [Hc Hpre].
    destruct (hist_insert_spec H k c HH Hc) as (H1 & Hins & HH1 & Hget1 & _).
    destruct (IH (prev ++ [Insert k c]) H1) as (H' & Hrun & HH' & Hget');
      [done| |done|].
    { intros j. rewrite Hget1, Hget, net_app. simpl. lia. }
    exists H'. unfold run in *. simpl. rewrite Hins. simpl.
    by rewrite <- app_assoc in Hget'.
  - intros [Hc Hpre]. rewrite <- Hget in Hc.
    destruct (hist_delete_spec H k c HH Hc) as (H1 & Hdel & HH1 & Hget1 & _).
    destruct (IH (prev ++ [Delete k c]) H1) as (H' & Hrun & HH' & Hget');
      [done| |done|].
    { intros j. rewrite Hget1, Hget, net_app. simpl. lia. }
    exists H'. unfold run in *. simpl. rewrite Hdel. simpl.
    by rewrite <- app_assoc in Hget'.
Qed.


Lemma hist_get_absent H k : k ∉ keys (root H) → hist_get H k = 0.
Proof.
  intros Hk. unfold hist_get.
  destruct (hist_lookup H k) as [[p n]|] eqn:Hlk; [|done].
  destruct (hist_lookup_from_Some _ _ _ _ _ Hlk)
    as (Hplug & l & cnt & cs & r & ->).
  destruct Hk. simpl in Hplug. unfold keys.
  rewrite <- Hplug, bindings_plug. simpl.
  rewrite !fmap_app, fmap_cons, !elem_of_app, elem_of_cons. auto.
Qed.

Lemma hist_is_empty_total H :
  hist_inv H → hist_is_empty H = bool_decide (total (bindings (root H)) = 0).
Proof.
  intros HH. destruct (hist_is_empty H) eqn:He.
  - apply hist_is_empty_true in He; [|done]. by rewrite He.
  - apply hist_is_empty_false in He; [|done]. destruct HH as [Hc _ _].
    rewrite counts_of_total in He by done. by rewrite bool_decide_eq_false_2 by lia.
Qed.

(** ** Merge-subtract *)

Lemma hist_delete_frame H v c H1 :
  hist_inv H → hist_delete H v c = Done H1 →
  hist_inv H1 ∧ ∀ j, v ≠ j → hist_get H1 j = hist_get H j.
Proof.
  intros HH Hdel.
  destruct (hist_delete_Done _ _ _ _ HH Hdel) as (Hc & [[_ ->]|Hle]); [done|].
  destruct (hist_delete_spec H v c HH) as (H' & Hdel' & HH' & Hget & _); [done|].
  assert (H' = H1) as -> by congruence. split; [done|].
  intros j Hj. rewrite Hget, decide_False by done. lia.
Qed.

Lemma hist_delete_outcome H v c :
  hist_inv H → 0 ≤ c →
  hist_delete H v c = Abort delete_underflow ∨ ∃ H', hist_delete H v c = Done H'.
Proof.
  intros HH Hc. pose proof (hist_get_nonneg H v HH).
  destruct (decide (hist_get H v = 0)) as [Hz|Hnz].
  - right. exists H. apply hist_delete_not_found; [done|].
    by apply hist_lookup_None_iff.
  - destruct (decide (c ≤ hist_get H v)).
    + right. destruct (hist_delete_spec H v c HH) as (H' & ? & _); eauto.
    + left. apply hist_delete_underflow. lia.
Qed.

Lemma hist_sub_rec_frame H n H' :
  hist_inv H → hist_sub_rec H n = Done H' →
  hist_inv H' ∧ ∀ j, j ∉ keys n → hist_get H' j = hist_get H j.
Proof.
  revert H H'. induction n as [|l IHl key cnt cs r IHr]; intros H H' HH; simpl.
  { by intros [= <-]. }
  destruct (hist_delete H key cnt) as [H1|] eqn:Hdel; [simpl|done].
  destruct (hist_delete_frame _ _ _ _ HH Hdel) as [HH1 Hget1].
  destruct (hist_sub_rec H1 l) as [H2|] eqn:Hl; [simpl|done].
  destruct (IHl _ _ HH1 Hl) as [HH2 Hget2]. intros Hr.
  destruct (IHr _ _ HH2 Hr) as [HH' Hget']. split; [done|].
  intros j. rewrite keys_node, not_elem_of_app, not_elem_of_cons.
  intros (? & ? & ?). rewrite Hget', Hget2, Hget1 by done. done.
Qed.

(** Keys without a node in the receiver are passed over. *)
Lemma hist_sub_rec_absent H n :
  positive n → (∀ j, j ∈ keys n → hist_lookup H j = None) →
  hist_sub_rec H n = Done H.
Proof.
  induction n as [|l IHl key cnt cs r IHr]; [done|].
  rewrite positive_node. intros (Hpl & Hcnt & Hpr) Habsent.
  assert (∀ j, j ∈ keys l → hist_lookup H j = None) as Hl.
  { intros j Hj. apply Habsent. rewrite keys_node, elem_of_app. by left. }
  assert (∀ j, j ∈ keys r → hist_lookup H j = None) as Hr.
  { intros j Hj. apply Habsent. rewrite keys_node, elem_of_app, elem_of_cons.
    auto. }
  simpl. rewrite hist_delete_not_found; [|lia|].
  - cbn [bind]. rewrite IHl by done. cbn [bind]. by apply IHr.
  - apply Habsent. rewrite keys_node, elem_of_app, elem_of_cons. auto.
Qed.

Lemma hist_sub_rec_outcome H n :
  hist_inv H → positive n →
  hist_sub_rec H n = Abort delete_underflow ∨ ∃ H', hist_sub_rec H n = Done H'.
Proof.
  revert H. induction n as [|l IHl key cnt cs r IHr]; intros H HH; simpl; [eauto|].
  rewrite positive_node. intros (Hpl & Hcnt & Hpr).
  destruct (hist_delete_outcome H key cnt HH) as [->|[H1 Hdel]]; [lia|auto|].
  rewrite Hdel. simpl.
  destruct (hist_delete_frame _ _ _ _ HH Hdel) as [HH1 _].
  destruct (IHl H1 HH1 Hpl) as [->|[H2 Hl]]; [auto|].
  rewrite Hl. simpl.
  destruct (hist_sub_rec_frame _ _ _ HH1 Hl) as [HH2 _]. auto.
Qed.

Lemma hist_sub_rec_underflow H n k :
  hist_inv H → ordered n → positive n →
  0 < hist_get H k < mult k (bindings n) →
  hist_sub_rec H n = Abort delete_underflow.
Proof.
  revert H. induction n as [|l IHl key cnt cs r IHr]; intros H HH.
  { simpl. lia. }
  rewrite ordered_node, positive_node, !Forall_forall.
  intros (Hol & Hor & Hlk & Hrk) (Hpl & Hcnt & Hpr).
  simpl. rewrite mult_app. simpl. intros Hk.
  destruct (decide (key = k)) as [->|Hne].
  - rewrite hist_delete_underflow; [done|].
    rewrite !mult_absent in Hk; [lia|..].
    + intros Hin. apply Hrk in Hin. lia.
    + intros Hin. apply Hlk in Hin. lia.
  - destruct (hist_delete_outcome H key cnt HH) as [->|[H1 Hdel]];
      [lia|done|].
    rewrite Hdel. simpl.
    destruct (hist_delete_frame _ _ _ _ HH Hdel) as [HH1 Hget1].
    destruct (decide (k ∈ keys l)) as [Hin|Hout].
    + rewrite (IHl H1); [done..|]. rewrite Hget1 by done.
      rewrite (mult_absent k (bindings r)) in Hk; [lia|].
      intros Hin'. apply Hlk in Hin. apply Hrk in Hin'. lia.
    + rewrite (mult_absent k (bindings l)) in Hk by done.
      destruct (hist_sub_rec_outcome H1 l HH1 Hpl) as [->|[H2 Hl]]; [done|].
      rewrite Hl. simpl.
      destruct (hist_sub_rec_frame _ _ _ HH1 Hl) as [HH2 Hget2].
      apply IHr; [done..|]. rewrite Hget2, Hget1 by done. lia.
Qed.

(** * The histogram: the properties of the specification *)

Local Ltac by_computation := repeat (split || constructor); simpl; lia.

(** C1: for every non-empty histogram, [hist_median] returns the value at
    0-indexed position [totalCount / 2] of the sorted sequence of all
    stored occurrences, each key repeated [count] times; [totalCount] is
    the length of that sequence, and when it is even, [2 * h], the result
    is the value at position [h], the upper of the two middle positions
    [h - 1] and [h].  After insert(5,1), insert(2,1), insert(8,1) the
    median is 5, and after insert(1,1) in addition it is 5 again. *)
Theorem hist_median_rank (H : Hist) :
  hist_inv H → hist_is_empty H = false →
  let s := sorted_occurrences H in
  Z.of_nat (length s) = counts_of (root H) ∧
  (∃ m, hist_median H = Done m ∧
        s !! (length s `div` 2)%nat = Some m ∧
        ∀ h, length s = (2 * h)%nat → s !! h = Some m) ∧
  (do H3 <- case_1; hist_median H3) = Done 5 ∧
  (do H4 <- case_2; hist_median H4) = Done 5.
Proof.
  intros HH Hne s. subst s.
  rewrite sorted_occurrences_elements by apply HH.
  split; [|split; [|done]].
  - apply length_elements; apply HH.
  - destruct (hist_median_elements H HH Hne) as (m & Hm & Hlook).
    exists m. repeat split; [done..|].
    intros h Hlen. rewrite <- Hlook, Hlen. f_equal.
    by rewrite Nat.mul_comm, Nat.div_mul.
Qed.

(** The third concrete case of the specification: 5 deleted from the state
    of the second one. *)
Example case_3 :
  (do H4 <- case_2; do H5 <- hist_delete H4 5 1;
   do m <- hist_median H5; Done (hist_get H5 5, m)) = Done (0, 2).
Proof. reflexivity. Qed.

Lemma hist_median_rank_witness :
  case_2 = Done case_2_tree ∧
  sorted_occurrences case_2_tree = [1; 2; 5; 8] ∧
  ∃ m, hist_median case_2_tree = Done m ∧ [1; 2; 5; 8] !! 2%nat = Some m.
Proof.
  split; [reflexivity|]. split; [reflexivity|].
  destruct (hist_median_rank case_2_tree) as (_ & (m & Hm & Hrank & _) & _).
  - by_computation.
  - reflexivity.
  - exists m. split; [exact Hm|exact Hrank].
Defined.



(** C6: on a histogram that satisfies the invariants, an insert of [c ≥ 0]
    occurrences of [k] followed by a delete of [c] occurrences of [k]
    both return, and the result has the same [hist_get] for every key and
    the same [hist_is_empty] as the histogram before the two. *)
Theorem insert_delete_round_trip (H : Hist) (k c : Z) :
  hist_inv H → 0 ≤ c →
  ∃ H1 H2, hist_insert H k c = Done H1 ∧ hist_delete H1 k c = Done H2 ∧
           (∀ j, hist_get H2 j = hist_get H j) ∧
           hist_is_empty H2 = hist_is_empty H.
Proof.
  intros HH Hc.
  destruct (hist_insert_spec H k c HH Hc) as (H1 & Hins & HH1 & Hget1 & Htot1).
  pose proof (hist_get_nonneg H k HH).
  destruct (hist_delete_spec H1 k c HH1) as (H2 & Hdel & HH2 & Hget2 & Htot2).
  { rewrite Hget1, decide_True by done. lia. }
  exists H1, H2. repeat split; [done..| |].
  - intros j. rewrite Hget2, Hget1. case_decide; lia.
  - rewrite !hist_is_empty_total by done. apply bool_decide_ext.
    rewrite Htot2, Htot1. lia.
Qed.

Lemma insert_delete_round_trip_witness :
  hist_inv case_2_tree ∧ 0 ≤ 3 ∧
  ∃ H1 H2, hist_insert case_2_tree 6 3 = Done H1 ∧
           hist_delete H1 6 3 = Done H2 ∧
           hist_get H2 6 = hist_get case_2_tree 6.
Proof.
  assert (hist_inv case_2_tree) as HH by by_computation.
  assert (0 ≤ 3) as Hc by lia.
  split; [exact HH|]. split; [exact Hc|].
  destruct (insert_delete_round_trip case_2_tree 6 3 HH Hc)
    as (H1 & H2 & Hins & Hdel & Hget & _).
  exists H1, H2. split; [exact Hins|]. split; [exact Hdel|]. exact (Hget 6).
Defined.

(** C7, as stated, fails: deleting one occurrence of 5 from a histogram
    that records none of 5 breaks the precondition, and is not signalled;
    the call returns the histogram as it was, and so does the
    merge-subtract of a histogram that holds one 5.  This is so with
    unbounded integers and in [int], with and without assertions.  In
    the build of the Makefile, which has no assertions, deleting three
    occurrences of 7 from a histogram that records two is not signalled
    either: the call returns the empty histogram. *)
Lemma hist_delete_absent_key_silent :
  hist_inv two_sevens ∧ hist_get two_sevens 5 = 0 ∧
  hist_delete two_sevens 5 1 = Done two_sevens ∧
  hist_inv one_five ∧ hist_get one_five 5 = 1 ∧
  hist_sub two_sevens one_five = Done two_sevens ∧
  (∀ ndebug, I32.hist_delete ndebug two_sevens 5 1 = Done two_sevens) ∧
  (∀ ndebug, I32.hist_sub ndebug two_sevens one_five = Done two_sevens) ∧
  I32.hist_delete true two_sevens 7 3 = Done hist_create.
Proof.
  split; [by_computation|]. do 2 (split; [reflexivity|]).
  split; [by_computation|]. do 2 (split; [reflexivity|]).
  split; [by intros [|]|]. split; [by intros [|]|reflexivity].
Qed.

(** C10: an insert or a delete of [c ≥ 0] occurrences of [k] leaves
    [hist_get j] as it was for every other key [j]: the insert always
    returns, the delete returns when at least [c] occurrences of [k] are
    recorded, and whenever the delete returns the count of [j] is
    unchanged. *)
Theorem insert_delete_frame (H : Hist) (k j c : Z) :
  hist_inv H → k ≠ j → 0 ≤ c →
  (∃ H', hist_insert H k c = Done H' ∧ hist_get H' j = hist_get H j) ∧
  (c ≤ hist_get H k →
   ∃ H', hist_delete H k c = Done H' ∧ hist_get H' j = hist_get H j) ∧
  (∀ H', hist_delete H k c = Done H' → hist_get H' j = hist_get H j).
Proof.
  intros HH Hkj Hc. split; [|split].
  - destruct (hist_insert_spec H k c HH Hc) as (H' & Hins & _ & Hget & _).
    exists H'. split; [done|]. rewrite Hget, decide_False by done. lia.
  - intros Hle.
    destruct (hist_delete_spec H k c HH) as (H' & Hdel & _ & Hget & _); [done|].
    exists H'. split; [done|]. rewrite Hget, decide_False by done. lia.
  - intros H' Hdel. by apply (hist_delete_frame H k c H' HH Hdel).
Qed.

Lemma insert_delete_frame_witness :
  hist_inv case_2_tree ∧ 5 ≠ 2 ∧ 0 ≤ 1 ∧
  ∃ H', hist_delete case_2_tree 5 1 = Done H' ∧
        hist_get H' 2 = hist_get case_2_tree 2.
Proof.
  assert (hist_inv case_2_tree) as HH by by_computation.
  assert (5 ≠ 2) as Hne by lia.
  assert (0 ≤ 1) as Hc by lia.
  split; [exact HH|]. split; [exact Hne|]. split; [exact Hc|].
  destruct (insert_delete_frame case_2_tree 5 2 1 HH Hne Hc) as (_ & Hdel & _).
  apply Hdel. vm_compute. discriminate.
Defined.

(** * The row filter *)

(** ** Counting occurrences *)

Lemma occ_Permutation_proper k xs ys : xs ≡ₚ ys → occ k xs = occ k ys.
Proof. induction 1; simpl; lia. Qed.

Lemma occ_pos_elem_of k xs : 0 < occ k xs → k ∈ xs.
Proof.
  induction xs as [|x xs IH]; simpl; [lia|].
  case_decide; [subst; left|right; apply IH; lia].
Qed.

Lemma occ_eq_Permutation xs ys : (∀ k, occ k xs = occ k ys) → xs ≡ₚ ys.
Proof.
  revert ys. induction xs as [|x xs IH]; intros ys Hocc.
  - destruct ys as [|y ys]; [done|]. specialize (Hocc y). simpl in Hocc.
    rewrite decide_True in Hocc by done. pose proof (occ_nonneg y ys). lia.
  - assert (x ∈ ys) as Hx.
    { apply occ_pos_elem_of. rewrite <- Hocc. simpl.
      rewrite decide_True by done. pose proof (occ_nonneg x xs). lia. }
    apply list_elem_of_split in Hx as (ys1 & ys2 & ->).
    rewrite <- Permutation_middle. constructor. apply IH.
    intros k. specialize (Hocc k).
    rewrite (occ_Permutation_proper k (ys1 ++ x :: ys2) (x :: ys1 ++ ys2)) in Hocc
      by (by rewrite <- Permutation_middle).
    simpl in Hocc. lia.
Qed.

Lemma occ_replicate k n x :
  occ k (replicate n x) = if decide (x = k) then Z.of_nat n else 0.
Proof. induction n as [|n IH]; simpl; repeat case_decide; lia. Qed.

Lemma occ_expand k bs :
  Forall (λ b, 0 < b.2) bs → occ k (expand bs) = mult k bs.
Proof.
  induction 1 as [|[k' c] bs Hc _ IH]; simpl in *; [done|].
  rewrite occ_app, occ_replicate, IH. case_decide; lia.
Qed.

(** A histogram that holds exactly the samples [xs] has their median. *)
Lemma hist_median_of H xs :
  hist_inv H → (∀ k, hist_get H k = occ k xs) → xs ≠ [] →
  ∃ m, hist_median H = Done m ∧ median_of xs = Some m.
Proof.
  intros HH Hget Hne. pose proof HH as [Hc Ho Hp].
  assert (elements (root H) ≡ₚ xs) as Hperm.
  { apply occ_eq_Permutation. intros k. unfold elements.
    rewrite occ_expand, <- Hget by done. symmetry. by apply hist_get_mult. }
  assert (merge_sort Z.le xs = elements (root H)) as Hsort.
  { apply sorted_Permutation_eq.
    - apply (Sorted_merge_sort Z.le).
    - apply StronglySorted_Sorted, sorted_expand, Ho.
    - by rewrite (merge_sort_Permutation Z.le). }
  assert (hist_is_empty H = false) as Hnonempty.
  { rewrite hist_is_empty_total by done. apply bool_decide_eq_false_2.
    rewrite <- length_expand by done. fold (elements (root H)).
    rewrite Hperm. destruct xs; simpl; [done|lia]. }
  destruct (hist_median_elements H HH Hnonempty) as (m & Hm & Hlook).
  exists m. split; [done|]. unfold median_of. by rewrite Hsort, <- Hperm.
Qed.

(** ** Loops of inserts and deletes *)

Lemma for_each_insert {A : Type} (body : Hist → A → result Hist)
    (g : A → Z) (xs : list A) (H : Hist) :
  (∀ h x, x ∈ xs → body h x = hist_insert h (g x) 1) → hist_inv H →
  ∃ H', for_each body xs H = Done H' ∧ hist_inv H' ∧
        ∀ k, hist_get H' k = hist_get H k + occ k (map g xs).
Proof.
  revert H. induction xs as [|x xs IH]; intros H Hbody HH; simpl.
  { exists H. split; [done|]. split; [done|]. intros k. lia. }
  rewrite Hbody by left.
  destruct (hist_insert_spec H (g x) 1 HH) as (H1 & -> & HH1 & Hget1 & _); [lia|].
  simpl. destruct (IH H1) as (H' & Hrun & HH' & Hget'); [|done|].
  { intros h y Hy. apply Hbody. by right. }
  exists H'. split; [done|]. split; [done|]. intros k. rewrite Hget', Hget1. lia.
Qed.

Lemma for_each_fill {A B : Type} (body : Hist → A → result Hist)
    (inner : A → Hist → B → result Hist) (g : A → B → Z)
    (xs : list A) (ys : list B) (H : Hist) :
  (∀ h x, x ∈ xs → body h x = for_each (inner x) ys h) →
  (∀ h x y, x ∈ xs → y ∈ ys → inner x h y = hist_insert h (g x y) 1) →
  hist_inv H →
  ∃ H', for_each body xs H = Done H' ∧ hist_inv H' ∧
        ∀ k, hist_get H' k =
             hist_get H k + occ k (flat_map (λ x, map (g x) ys) xs).
Proof.
  revert H. induction xs as [|x xs IH]; intros H Hbody Hinner HH; simpl.
  { exists H. split; [done|]. split; [done|]. intros k. lia. }
  rewrite Hbody by left.
  destruct (for_each_insert (inner x) (g x) ys H) as (H1 & -> & HH1 & Hget1);
    [|done|].
  { intros h y Hy. apply Hinner; [left|done]. }
  simpl. destruct (IH H1) as (H' & Hrun & HH' & Hget'); [| |done|].
  { intros h y Hy. apply Hbody. by right. }
  { intros h x' y Hx' Hy. apply Hinner; [by right|done]. }
  exists H'. split; [done|]. split; [done|]. intros k.
  rewrite Hget', Hget1, occ_app. lia.
Qed.

(** One delete and one insert per index, as in [shift_histogram]: every
    delete finds its value as long as the values to delete are in the
    histogram at the start. *)
Lemma for_each_shift {A : Type} (body : Hist → A → result Hist)
    (gl gr : A → Z) (xs : list A) (H : Hist) :
  (∀ h x, x ∈ xs →
     body h x = do h1 <- hist_delete h (gl x) 1; hist_insert h1 (gr x) 1) →
  hist_inv H → (∀ k, occ k (map gl xs) ≤ hist_get H k) →
  ∃ H', for_each body xs H = Done H' ∧ hist_inv H' ∧
        ∀ k, hist_get H' k =
             hist_get H k - occ k (map gl xs) + occ k (map gr xs).
Proof.
  revert H. induction xs as [|x xs IH]; intros H Hbody HH Hin; simpl.
  { exists H. split; [done|]. split; [done|]. intros k. lia. }
  rewrite Hbody by left.
  destruct (hist_delete_spec H (gl x) 1 HH) as (H1 & -> & HH1 & Hget1 & _).
  { specialize (Hin (gl x)). simpl in Hin. rewrite decide_True in Hin by done.
    pose proof (occ_nonneg (gl x) (map gl xs)). lia. }
  cbn [bind].
  destruct (hist_insert_spec H1 (gr x) 1 HH1) as (H2 & -> & HH2 & Hget2 & _);
    [lia|].
  simpl. destruct (IH H2) as (H' & Hrun & HH' & Hget'); [|done| |].
  { intros h y Hy. apply Hbody. by right. }
  { intros k. rewrite Hget2, Hget1. specialize (Hin k). simpl in Hin.
    repeat case_decide; lia. }
  exists H'. split; [done|]. split; [done|]. intros k.
  rewrite Hget', Hget2, Hget1. simpl. repeat case_decide; lia.
Qed.

(** ** Sliding a window by one column *)

Lemma range_symmetric radius :
  range (- radius) radius = seqZ (- radius) (2 * radius + 1).
Proof. unfold range. f_equal. lia. Qed.

(** A row of a window as a stretch of consecutive columns. *)
Lemma window_row (s : Z → Z) j radius :
  map (λ dj, s (j + dj)) (range (- radius) radius) =
  s <$> seqZ (j - radius) (2 * radius + 1).
Proof.
  rewrite range_symmetric.
  replace (j - radius) with (j + - radius) by lia.
  rewrite <- fmap_add_seqZ, <- list_fmap_compose. done.
Qed.

Lemma window_row_slide (s : Z → Z) j radius k :
  0 ≤ radius →
  occ k (map (λ dj, s (j + 1 + dj)) (range (- radius) radius)) =
  occ k (map (λ dj, s (j + dj)) (range (- radius) radius))
  - occ k [s (j - radius)] + occ k [s (j + radius + 1)].
Proof.
  intros Hr. rewrite !window_row.
  assert (occ k (s <$> seqZ (j - radius) (2 * radius + 1 + 1)) =
          occ k (s <$> seqZ (j - radius) (2 * radius + 1)) +
          occ k [s (j + radius + 1)]) as Hright.
  { rewrite seqZ_app, fmap_app, occ_app by lia.
    do 3 f_equal. rewrite seqZ_cons, seqZ_nil by lia. simpl.
    do 2 f_equal. lia. }
  assert (occ k (s <$> seqZ (j - radius) (2 * radius + 1 + 1)) =
          occ k [s (j - radius)] +
          occ k (s <$> seqZ (j + 1 - radius) (2 * radius + 1))) as Hleft.
  { rewrite (seqZ_cons (j - radius)), fmap_cons by lia. cbn [occ].
    replace (Z.succ (j - radius)) with (j + 1 - radius) by lia.
    replace (Z.pred (2 * radius + 1 + 1)) with (2 * radius + 1) by lia. lia. }
  lia.
Qed.

Lemma window_slide (s : Z → Z → Z) (rows : list Z) j radius k :
  0 ≤ radius →
  occ k (flat_map (λ di, map (λ dj, s di (j + 1 + dj))
                             (range (- radius) radius)) rows) =
  occ k (flat_map (λ di, map (λ dj, s di (j + dj))
                             (range (- radius) radius)) rows)
  - occ k (map (λ di, s di (j - radius)) rows)
  + occ k (map (λ di, s di (j + radius + 1)) rows).
Proof.
  intros Hr. induction rows as [|di rows IH]; simpl; [done|].
  rewrite !occ_app, IH, (window_row_slide (s di)) by done. simpl. lia.
Qed.

(** The column that leaves the window is part of it. *)
Lemma window_left_column (s : Z → Z → Z) (rows : list Z) j radius k :
  0 ≤ radius →
  occ k (map (λ di, s di (j - radius)) rows) ≤
  occ k (flat_map (λ di, map (λ dj, s di (j + dj))
                             (range (- radius) radius)) rows).
Proof.
  intros Hr. induction rows as [|di rows IH]; simpl; [done|].
  rewrite occ_app, (window_row (s di)), seqZ_cons, fmap_cons by lia.
  cbn [occ]. pose proof (occ_nonneg k (s di <$> seqZ (Z.succ (j - radius))
                                        (Z.pred (2 * radius + 1)))).
  lia.
Qed.

(** ** One row *)

Lemma clamp_range x n : 0 < n → 0 ≤ clamp x n < n.
Proof. unfold clamp. lia. Qed.

Lemma store_inside (out : list Z) p v :
  0 ≤ p < Z.of_nat (length out) → store out p v = Done (<[Z.to_nat p := v]> out).
Proof.
  intros Hp. unfold store.
  destruct (Z.leb_spec 0 p); [|lia].
  by destruct (Z.ltb_spec p (Z.of_nat (length out))); [|lia].
Qed.

Lemma IDX_clamp r c height width :
  0 < width → 0 < height →
  IDX r c height width = clamp r height * width + clamp c width.
Proof.
  intros Hw Hh. unfold IDX, clamp.
  destruct (Z.ltb_spec r 0), (Z.geb_spec r height),
           (Z.ltb_spec c 0), (Z.geb_spec c width); f_equal; nia.
Qed.

Lemma IDX_range r c height width :
  0 < width → 0 < height → 0 ≤ IDX r c height width < width * height.
Proof.
  intros Hw Hh. rewrite IDX_clamp by done.
  pose proof (clamp_range r height Hh).
  pose proof (clamp_range c width Hw). nia.
Qed.

Lemma IDX_inside i j height width :
  0 ≤ i < height → 0 ≤ j < width → IDX i j height width = i * width + j.
Proof.
  intros. rewrite IDX_clamp by lia. unfold clamp. f_equal; [f_equal|]; lia.
Qed.

Lemma row_of_index width q i :
  0 < width → i * width ≤ q < i * width + width ↔ q `div` width = i.
Proof.
  intros Hw. split.
  - intros Hq. symmetry. apply (Z.div_unique q width i (q - i * width)); lia.
  - intros <-. pose proof (Z.div_mod q width). pose proof (Z.mod_pos_bound q width).
    lia.
Qed.

Section filter.
Context (in_ : list Z) (width height radius : Z).
Hypothesis Hwidth : 0 < width.
Hypothesis Hheight : 0 < height.
Hypothesis Hradius : 0 ≤ radius.
Hypothesis Hin : Z.of_nat (length in_) = width * height.

Local Abbreviation holds_window := (holds_window in_ width height radius).
Local Abbreviation row_written := (row_written in_ width height radius).
Local Abbreviation written := (written in_ width height radius).

Lemma load_IDX r c :
  load in_ (IDX r c height width) = Done (sample in_ width height r c).
Proof.
  pose proof (IDX_range r c height width Hwidth Hheight) as Hrange.
  unfold load, sample.
  destruct (Z.ltb_spec (IDX r c height width) 0); [lia|].
  rewrite list_lookup_lookup_total_lt by lia. by rewrite IDX_clamp.
Qed.

Lemma fill_histogram_spec H i j :
  hist_inv H →
  ∃ H', fill_histogram H in_ i j radius width height = Done H' ∧ hist_inv H' ∧
        ∀ k, hist_get H' k =
             hist_get H k + occ k (window in_ width height radius i j).
Proof.
  intros HH. unfold fill_histogram, window.
  apply (for_each_fill _
           (λ di hist dj,
              do val <- load in_ (IDX (i + di) (j + dj) height width);
              hist_insert hist val 1)
           (λ di dj, sample in_ width height (i + di) (j + dj))); [done| |done].
  intros h di dj _ _. by rewrite load_IDX.
Qed.

Lemma shift_histogram_spec H i j :
  holds_window i j H →
  ∃ H', shift_histogram H in_ i j radius width height = Done H' ∧
        holds_window i (j + 1) H'.
Proof.
  intros [HH Hget]. unfold shift_histogram.
  destruct (for_each_shift
              (λ hist di,
                 do val_left <- load in_ (IDX (i + di) (j - radius) height width);
                 do hist <- hist_delete hist val_left 1;
                 do val_right <-
                   load in_ (IDX (i + di) (j + radius + 1) height width);
                 hist_insert hist val_right 1)
              (λ di, sample in_ width height (i + di) (j - radius))
              (λ di, sample in_ width height (i + di) (j + radius + 1))
              (range (- radius) radius) H) as (H' & Hrun & HH' & Hget').
  - intros h di _. rewrite load_IDX. cbn [bind].
    destruct (hist_delete h _ 1); [|done]. cbn [bind]. by rewrite load_IDX.
  - done.
  - intros k. rewrite Hget.
    apply (window_left_column (λ di c, sample in_ width height (i + di) c)).
    done.
  - exists H'. split; [done|]. split; [done|]. intros k.
    rewrite Hget', Hget. unfold window.
    rewrite (window_slide (λ di c, sample in_ width height (i + di) c)) by done.
    done.
Qed.

Lemma window_nonempty i j : window in_ width height radius i j ≠ [].
Proof.
  unfold window. rewrite range_symmetric, seqZ_cons by lia. simpl. done.
Qed.

Lemma holds_window_median i j hist :
  holds_window i j hist →
  ∃ m, hist_median hist = Done m ∧
       median_of (window in_ width height radius i j) = Some m.
Proof.
  intros [HH Hget]. apply hist_median_of; [done..|apply window_nonempty].
Qed.

Lemma fill_histogram_fresh i j :
  ∃ H, fill_histogram hist_create in_ i j radius width height = Done H ∧
       holds_window i j H.
Proof.
  destruct (fill_histogram_spec hist_create i j hist_inv_create)
    as (H & Hfill & HH & Hget).
  exists H. split; [done|]. split; [done|]. intros k. rewrite Hget. done.
Qed.

Lemma fresh_median_spec i j :
  ∃ m, fresh_median in_ radius width height i j = Done m ∧
       median_of (window in_ width height radius i j) = Some m.
Proof.
  unfold fresh_median. destruct (fill_histogram_fresh i j) as (H & -> & Hw).
  cbn [bind]. by apply holds_window_median.
Qed.

Lemma emit_median out0 i j hist out :
  0 ≤ i < height → 0 ≤ j < width →
  Z.of_nat (length out0) = width * height →
  holds_window i j hist → row_written out0 i j out →
  ∃ m out', hist_median hist = Done m ∧
            store out (IDX i j height width) m = Done out' ∧
            row_written out0 i (j + 1) out'.
Proof.
  intros Hi Hj Hlen Hw [Hlen' Hout].
  destruct (holds_window_median i j hist Hw) as (m & Hm & Hmed).
  exists m, (<[Z.to_nat (i * width + j) := m]> out).
  split; [done|]. rewrite IDX_inside by done.
  assert (0 ≤ i * width + j < width * height) as Hp by nia.
  split; [apply store_inside; lia|].
  split; [by rewrite length_insert|].
  intros q Hq. destruct (decide (q = i * width + j)) as [->|Hne].
  - rewrite list_lookup_insert_eq by lia. rewrite decide_True by lia.
    rewrite <- Hmed. do 2 f_equal. lia.
  - rewrite list_lookup_insert_ne by lia. rewrite Hout by done.
    repeat case_decide; (done || lia).
Qed.

Lemma row_loop out0 i n : ∀ j hist out,
  0 ≤ i < height → 0 ≤ j → j + Z.of_nat n ≤ width - 1 →
  Z.of_nat (length out0) = width * height →
  holds_window i j hist → row_written out0 i j out →
  ∃ hist' out',
    for_each (row_body in_ radius width height i) (seqZ j (Z.of_nat n))
             (hist, out) = Done (hist', out') ∧
    holds_window i (j + Z.of_nat n) hist' ∧
    row_written out0 i (j + Z.of_nat n) out'.
Proof.
  induction n as [|n IH]; intros j hist out Hi Hj Hn Hlen Hw Hout.
  { exists hist, out. rewrite seqZ_nil, Z.add_0_r by done. done. }
  rewrite seqZ_cons by lia. cbn [for_each]. unfold row_body at 1.
  destruct (emit_median out0 i j hist out) as (m & out1 & Hm & Hst & Hout1);
    [done|lia|done..|].
  rewrite Hm. cbn [bind]. rewrite Hst. cbn [bind].
  destruct (shift_histogram_spec hist i j Hw) as (hist1 & -> & Hw1).
  cbn [bind].
  replace (Z.pred (Z.of_nat (S n))) with (Z.of_nat n) by lia.
  destruct (IH (Z.succ j) hist1 out1) as (hist' & out' & Hrun & Hw' & Hout');
    [done|lia|lia|done|by rewrite <- Z.add_1_r..|].
  exists hist', out'. split; [done|].
  replace (j + Z.of_nat (S n)) with (Z.succ j + Z.of_nat n) by lia. done.
Qed.

(** A row of the filter: whatever histogram and buffer it starts from, it
    returns, with the row written and the rest of the buffer untouched. *)
Lemma filter_row_spec hist out0 i :
  0 ≤ i < height → Z.of_nat (length out0) = width * height →
  ∃ hist' out',
    filter_row in_ radius width height (hist, out0) i = Done (hist', out') ∧
    row_written out0 i width out'.
Proof.
  intros Hi Hlen. unfold filter_row, hist_clear. fold hist_create.
  destruct (fill_histogram_fresh i 0) as (hist0 & -> & Hw0). cbn [bind].
  assert (row_written out0 i 0 out0) as Hout0.
  { split; [done|]. intros q _. rewrite decide_False by lia. done. }
  destruct (row_loop out0 i (Z.to_nat (width - 1)) 0 hist0 out0)
    as (hist1 & out1 & Hrun & Hw1 & Hout1); [done|lia|lia|done..|].
  rewrite Z2Nat.id in Hrun, Hw1, Hout1 by lia. rewrite Hrun. cbn [bind].
  rewrite Z.max_r by lia. rewrite Z.add_0_l in Hw1, Hout1.
  destruct (emit_median out0 i (width - 1) hist1 out1)
    as (m & out' & Hm & Hst & Hout'); [done|lia|done..|].
  rewrite Hm. cbn [bind]. rewrite Hst. cbn [bind].
  exists hist1, out'. split; [done|].
  by replace (width - 1 + 1) with width in Hout' by lia.
Qed.

(** ** All rows, in any order *)

Lemma written_nil out0 : written out0 [] out0.
Proof. split; [done|]. intros q _. rewrite decide_False; [done|]. apply not_elem_of_nil. Qed.

Lemma filter_row_written hist out0 out rows i :
  0 ≤ i < height → Z.of_nat (length out0) = width * height →
  written out0 rows out →
  ∃ hist' out',
    filter_row in_ radius width height (hist, out) i = Done (hist', out') ∧
    written out0 (i :: rows) out'.
Proof.
  intros Hi Hlen [Hlen' Hout].
  destruct (filter_row_spec hist out i) as (hist' & out' & Hrow & Hlen'' & Hout');
    [done|by rewrite Hlen'|].
  exists hist', out'. split; [done|]. split; [congruence|].
  intros q Hq. rewrite Hout' by done.
  destruct (decide (q `div` width = i)) as [Hrow_q|Hrow_q].
  - rewrite decide_True by by apply row_of_index.
    rewrite decide_True by (rewrite Hrow_q; left).
    rewrite Hrow_q. do 2 f_equal. rewrite Z.mod_eq by lia. lia.
  - rewrite decide_False by by rewrite row_of_index.
    rewrite Hout by done.
    destruct (decide (q `div` width ∈ rows)) as [Hq_in|Hq_out].
    + rewrite decide_True by by right. done.
    + rewrite decide_False; [done|]. rewrite not_elem_of_cons. done.
Qed.

Lemma sequential_rows out0 rows : ∀ hist out done,
  Forall (λ i, 0 ≤ i < height) rows →
  Z.of_nat (length out0) = width * height →
  written out0 done out →
  ∃ st, for_each (filter_row in_ radius width height) rows (hist, out) = Done st ∧
        written out0 (reverse rows ++ done) (snd st).
Proof.
  induction rows as [|i rows IH]; intros hist out done Hrows Hlen Hout.
  { by exists (hist, out). }
  apply Forall_cons in Hrows as [Hi Hrows]. cbn [for_each].
  destruct (filter_row_written hist out0 out done i)
    as (hist' & out' & -> & Hout'); [done..|].
  cbn [bind]. rewrite reverse_cons, <- app_assoc. by apply IH.
Qed.

Lemma parallel_rows out0 sched : ∀ hists out done,
  Forall (λ i, 0 ≤ i < height) sched.*2 →
  Z.of_nat (length out0) = width * height →
  written out0 done out →
  ∃ st, for_each (worker_step in_ radius width height) sched (hists, out)
        = Done st ∧
        written out0 (reverse sched.*2 ++ done) (snd st).
Proof.
  induction sched as [|[w i] sched IH]; intros hists out done Hrows Hlen Hout.
  { by exists (hists, out). }
  rewrite fmap_cons in Hrows. apply Forall_cons in Hrows as [Hi Hrows].
  cbn [for_each worker_step].
  destruct (filter_row_written (hists w) out0 out done i)
    as (hist' & out' & -> & Hout'); [done..|].
  cbn [bind fst snd]. rewrite fmap_cons, reverse_cons, <- app_assoc. by apply IH.
Qed.

(** What is written is determined by the set of rows. *)
Lemma written_unique out0 rows1 rows2 out1 out2 :
  (∀ i, i ∈ rows1 ↔ i ∈ rows2) →
  written out0 rows1 out1 → written out0 rows2 out2 → out1 = out2.
Proof.
  intros Hrows [_ Hout1] [_ Hout2]. apply list_eq. intros n.
  specialize (Hout1 (Z.of_nat n)). specialize (Hout2 (Z.of_nat n)).
  rewrite Nat2Z.id in Hout1, Hout2. rewrite Hout1, Hout2 by lia.
  destruct (decide (_ ∈ rows1)) as [Hq_in|Hq_out].
  - rewrite decide_True by by apply Hrows. done.
  - rewrite decide_False; [done|]. by rewrite <- Hrows.
Qed.

Lemma load_dims_0 : load [width; height] 0 = Done width.
Proof. done. Qed.

Lemma load_dims_1 : load [width; height] 1 = Done height.
Proof. done. Qed.

(** The filter returns, and every pixel of its output is the median of
    the window around it. *)
Lemma median_filter_spec out :
  Z.of_nat (length out) = width * height →
  ∃ out', median_filter_2D_sparse_byrow in_ out [width; height] 2 radius
          = Done out' ∧
          written out (reverse (seqZ 0 height)) out'.
Proof.
  intros Hlen. unfold median_filter_2D_sparse_byrow.
  rewrite load_dims_0, load_dims_1. cbn [negb Z.eqb Pos.eqb bind].
  destruct (sequential_rows out (seqZ 0 height) hist_create out [])
    as (st & -> & Hout); [|done|apply written_nil|].
  { apply Forall_seqZ. lia. }
  cbn [bind]. exists (snd st). split; [done|]. by rewrite app_nil_r in Hout.
Qed.

(** Any schedule that gives every row to one worker produces what the
    sequential run produces. *)
Lemma parallel_filter_spec sched out :
  Z.of_nat (length out) = width * height →
  sched.*2 ≡ₚ seqZ 0 height →
  parallel_filter sched in_ out [width; height] 2 radius =
  median_filter_2D_sparse_byrow in_ out [width; height] 2 radius.
Proof.
  intros Hlen Hsched.
  destruct (median_filter_spec out Hlen) as (out1 & -> & Hout1).
  unfold parallel_filter.
  rewrite load_dims_0, load_dims_1. cbn [negb Z.eqb Pos.eqb bind].
  destruct (parallel_rows out sched (λ _, hist_create) out [])
    as (st & -> & Hout); [|done|apply written_nil|].
  { rewrite Hsched. apply Forall_seqZ. lia. }
  cbn [bind]. f_equal. rewrite app_nil_r in Hout.
  apply (written_unique out (reverse sched.*2) (reverse (seqZ 0 height)));
    [|done..].
  intros i. by rewrite !elem_of_reverse, Hsched.
Qed.

End filter.

(** ** The medians of a row, column by column *)

(** With unbounded integers: for every row [i] of a buffer and every
    radius [≥ 0], the row of medians the filter emits, from a histogram
    filled once for column 0 and then updated by the deletes and inserts
    of each shift, is, column by column, the sequence of medians of
    histograms filled from scratch for each column. *)
Lemma filter_row_fresh (in_ out : list Z) (hist : Hist)
    (width height radius i : Z) :
  0 < width → 0 < height → 0 ≤ radius →
  Z.of_nat (length in_) = width * height → length out = length in_ →
  0 ≤ i < height →
  ∃ hist' out',
    filter_row in_ radius width height (hist, out) i = Done (hist', out') ∧
    Forall2 (λ j m, fresh_median in_ radius width height i j = Done m)
            (seqZ 0 width) (emitted_row out' width i).
Proof.
  intros Hw Hh Hr Hin Hout Hi.
  destruct (filter_row_spec in_ width height radius Hw Hh Hr Hin hist out i)
    as (hist' & out' & Hrow & Hlen & Hpix); [done|lia|].
  exists hist', out'. split; [done|].
  assert (i * width + width ≤ width * height) by nia.
  apply Forall2_same_length_lookup. unfold emitted_row. split.
  - rewrite length_seqZ, length_take, length_drop. lia.
  - intros n j m Hj Hm. apply lookup_seqZ in Hj as [-> Hn].
    apply lookup_take_Some in Hm as [Hm _]. rewrite lookup_drop in Hm.
    specialize (Hpix (i * width + Z.of_nat n)).
    rewrite Z2Nat.inj_add, Nat2Z.id, Hm, decide_True in Hpix by lia.
    destruct (fresh_median_spec in_ width height radius Hw Hh Hr Hin i
                (0 + Z.of_nat n)) as (m' & Hfresh & Hmed).
    rewrite Hfresh. f_equal.
    replace (i * width + Z.of_nat n - i * width) with (0 + Z.of_nat n) in Hpix
      by lia.
    rewrite Hmed in Hpix. symmetry. apply (inj Some). apply Hpix. lia.
Qed.

(** * Further properties of the histogram *)

Lemma hist_get_pos_iff H k :
  hist_inv H → 0 < hist_get H k ↔ k ∈ keys (root H).
Proof.
  intros HH. pose proof HH as [Hc Ho Hp]. split.
  - intros Hpos. destruct (decide (k ∈ keys (root H))) as [|Hout]; [done|].
    apply hist_get_absent in Hout. lia.
  - intros Hin. rewrite hist_get_mult by done. by apply mult_pos.
Qed.

Lemma sorted_lt_NoDup (ks : list Z) : StronglySorted Z.lt ks → NoDup ks.
Proof.
  induction 1 as [|k ks _ IH Hk]; constructor; [|done].
  rewrite Forall_forall in Hk. intros Hin. apply Hk in Hin. lia.
Qed.

(** X1: on a histogram that satisfies the invariants, [hist_lookup] gives
    no node exactly for the keys that are not in the tree; a node it gives
    is the node of that key, at its place in the tree, and its count is
    positive. *)
Theorem hist_lookup_finds_stored_keys (H : Hist) (v : Z) :
  hist_inv H →
  (hist_lookup H v = None ↔ v ∉ keys (root H)) ∧
  (∀ p n, hist_lookup H v = Some (p, n) →
     plug p n = root H ∧
     ∃ l cs r, n = Node l v (hist_get H v) cs r ∧ 0 < hist_get H v).
Proof.
  intros HH. split.
  - rewrite (hist_lookup_None_iff H v HH), <- (hist_get_pos_iff H v HH).
    pose proof (hist_get_nonneg H v HH). lia.
  - intros p n Hlk. split.
    + by destruct (hist_lookup_from_Some _ _ _ _ _ Hlk) as [-> _].
    + destruct (hist_lookup_found_get _ _ _ _ Hlk) as (l & cs & r & ->).
      exists l, cs, r. split; [done|].
      pose proof (hist_get_nonneg H v HH).
      destruct (decide (hist_get H v = 0)) as [Hz|]; [|lia].
      apply hist_lookup_None_iff in Hz; [congruence|done].
Qed.

Lemma hist_lookup_finds_stored_keys_witness :
  hist_inv case_2_tree ∧
  hist_lookup case_2_tree 3 = None ∧
  ∃ p n, hist_lookup case_2_tree 8 = Some (p, n) ∧ plug p n = root case_2_tree.
Proof.
  assert (hist_inv case_2_tree) as HH by by_computation.
  split; [exact HH|].
  destruct (hist_lookup_finds_stored_keys case_2_tree 8 HH) as [_ Hfound].
  split; [reflexivity|].
  eexists _, _. split; [reflexivity|]. apply Hfound. reflexivity.
Defined.

(** X2: on a subtree with increasing keys that is not NULL, [hist_minimum]
    returns the node with the least key of the subtree; that node has no
    left child, and it is found at the place where it is in the
    subtree. *)
Theorem hist_minimum_is_least (n : HistNode) :
  ordered n → n ≠ NULL →
  ∃ p km cm csm rm,
    hist_minimum n = Done (p, Node NULL km cm csm rm) ∧
    plug p (Node NULL km cm csm rm) = n ∧
    km ∈ keys n ∧ Forall (λ x, km ≤ x) (keys n).
Proof.
  intros Ho Hn. destruct n as [|l k c cs r]; [done|].
  destruct (hist_minimum_from_spec [] l k c cs r)
    as (pm & km & cm & csm & rm & Hmin & Hplug & Hbefore).
  rewrite app_nil_r in Hmin.
  exists pm, km, cm, csm, rm. split; [by unfold hist_minimum; rewrite Hmin|].
  split; [done|].
  assert (keys (Node l k c cs r) = km :: (bindings rm ++ after pm).*1) as Hkeys.
  { unfold keys. by rewrite <- Hplug, bindings_plug, Hbefore. }
  unfold ordered in Ho. rewrite Hkeys in *.
  apply StronglySorted_cons in Ho as [Hleast _].
  split; [left|]. constructor; [lia|].
  eapply Forall_impl; [exact Hleast|]. simpl. lia.
Qed.

Lemma hist_minimum_is_least_witness :
  ∃ p km cm csm rm,
    hist_minimum (root case_2_tree) = Done (p, Node NULL km cm csm rm) ∧
    Forall (λ x, km ≤ x) (keys (root case_2_tree)).
Proof.
  destruct (hist_minimum_is_least (root case_2_tree))
    as (p & km & cm & csm & rm & Hmin & _ & _ & Hleast).
  - unfold ordered. repeat constructor.
  - discriminate.
  - exists p, km, cm, csm, rm. split; [exact Hmin|exact Hleast].
Defined.

(** X3: a histogram that satisfies the invariants is empty for
    [hist_is_empty] exactly when its root is NULL, and exactly when
    [hist_get] is 0 for every key. *)
Theorem hist_is_empty_iff (H : Hist) :
  hist_inv H →
  (hist_is_empty H = true ↔ root H = NULL) ∧
  (hist_is_empty H = true ↔ ∀ k, hist_get H k = 0).
Proof.
  intros HH.
  assert (hist_is_empty H = true ↔ root H = NULL) as Hroot.
  { split; [by apply hist_is_empty_true|].
    unfold hist_is_empty. by intros ->. }
  split; [done|]. rewrite Hroot. split.
  - intros Hnull k. rewrite hist_get_get_rec, Hnull. done.
  - intros Hzero. destruct (root H) as [|l k c cs r] eqn:Hr; [done|].
    assert (0 < hist_get H k); [|specialize (Hzero k); lia].
    apply hist_get_pos_iff; [done|].
    rewrite Hr, keys_node, elem_of_app, elem_of_cons. auto.
Qed.

Lemma hist_is_empty_iff_witness :
  hist_inv case_2_tree ∧ hist_is_empty case_2_tree = false ∧
  ¬ ∀ k, hist_get case_2_tree k = 0.
Proof.
  assert (hist_inv case_2_tree) as HH by by_computation.
  split; [exact HH|]. split; [reflexivity|].
  destruct (hist_is_empty_iff case_2_tree HH) as [_ Hall].
  intros Hzero. apply Hall in Hzero. discriminate Hzero.
Defined.

(** With unbounded integers: in every state reached from the empty
    histogram by inserts and deletes, every node has a count of at least 1
    and no key is in two nodes; a key has a positive [hist_get] exactly
    when it has a node. *)
Lemma run_nodes_positive_distinct (ops : list op) (H : Hist) :
  run ops hist_create = Done H →
  Forall (λ b, 1 ≤ b.2) (bindings (root H)) ∧ NoDup (keys (root H)) ∧
  ∀ k, 0 < hist_get H k ↔ k ∈ keys (root H).
Proof.
  intros Hrun. pose proof (run_inv _ _ _ hist_inv_create Hrun) as HH.
  pose proof HH as [Hc Ho Hp]. split; [|split].
  - eapply Forall_impl; [exact Hp|]. simpl. lia.
  - by apply sorted_lt_NoDup.
  - intros k. by apply hist_get_pos_iff.
Qed.

(** ** Merging *)

Lemma hist_add_rec_spec H n :
  hist_inv H → positive n →
  ∃ H', hist_add_rec H n = Done H' ∧ hist_inv H' ∧
        ∀ k, hist_get H' k = hist_get H k + mult k (bindings n).
Proof.
  revert H. induction n as [|l IHl key cnt cs r IHr]; intros H HH.
  { intros _. exists H. split; [done|]. split; [done|]. intros k. simpl. lia. }
  rewrite positive_node. intros (Hpl & Hcnt & Hpr). simpl.
  destruct (hist_insert_spec H key cnt HH) as (H1 & -> & HH1 & Hget1 & _); [lia|].
  cbn [bind]. destruct (IHl H1 HH1 Hpl) as (H2 & -> & HH2 & Hget2).
  cbn [bind]. destruct (IHr H2 HH2 Hpr) as (H' & -> & HH' & Hget').
  exists H'. split; [done|]. split; [done|]. intros k.
  rewrite Hget', Hget2, Hget1, mult_app. simpl. lia.
Qed.

Lemma hist_sub_rec_spec H n :
  hist_inv H → positive n →
  (∀ k, mult k (bindings n) ≤ hist_get H k) →
  ∃ H', hist_sub_rec H n = Done H' ∧ hist_inv H' ∧
        ∀ k, hist_get H' k = hist_get H k - mult k (bindings n).
Proof.
  revert H. induction n as [|l IHl key cnt cs r IHr]; intros H HH.
  { intros _ _. exists H. split; [done|]. split; [done|]. intros k. simpl. lia. }
  rewrite positive_node. intros (Hpl & Hcnt & Hpr) Hle. simpl.
  assert (∀ k, mult k (bindings l) + (if decide (key = k) then cnt else 0)
               + mult k (bindings r) ≤ hist_get H k) as Hle'.
  { intros k. specialize (Hle k). simpl in Hle. rewrite mult_app in Hle.
    simpl in Hle. lia. }
  pose proof (λ k, mult_nonneg k _ Hpl) as Hnnl.
  pose proof (λ k, mult_nonneg k _ Hpr) as Hnnr.
  destruct (hist_delete_spec H key cnt HH) as (H1 & -> & HH1 & Hget1 & _).
  { specialize (Hle' key). specialize (Hnnl key). specialize (Hnnr key).
    rewrite decide_True in Hle' by done. lia. }
  cbn [bind]. destruct (IHl H1 HH1 Hpl) as (H2 & -> & HH2 & Hget2).
  { intros k. rewrite Hget1. specialize (Hle' k). specialize (Hnnr k). lia. }
  cbn [bind]. destruct (IHr H2 HH2 Hpr) as (H' & -> & HH' & Hget').
  { intros k. rewrite Hget2, Hget1. specialize (Hle' k). lia. }
  exists H'. split; [done|]. split; [done|]. intros k.
  rewrite Hget', Hget2, Hget1, mult_app. simpl. lia.
Qed.

(** Emptiness is decided by the counts. *)
Lemma hist_is_empty_ext H1 H2 :
  hist_inv H1 → hist_inv H2 → (∀ k, hist_get H1 k = hist_get H2 k) →
  hist_is_empty H1 = hist_is_empty H2.
Proof.
  intros HH1 HH2 Hget.
  assert (∀ Ha Hb, hist_inv Ha → hist_inv Hb →
            (∀ k, hist_get Ha k = hist_get Hb k) →
            hist_is_empty Ha = true → hist_is_empty Hb = true) as Hdir.
  { intros Ha Hb HHa HHb Hab He.
    destruct (root Hb) as [|l k c cs r] eqn:Hr;
      [by unfold hist_is_empty; rewrite Hr|].
    assert (0 < hist_get Hb k) as Hpos.
    { apply hist_get_pos_iff; [done|].
      rewrite Hr, keys_node, elem_of_app, elem_of_cons. auto. }
    apply hist_is_empty_true in He; [|done].
    rewrite <- Hab, hist_get_get_rec, He in Hpos. simpl in Hpos. lia. }
  destruct (hist_is_empty H1) eqn:He1, (hist_is_empty H2) eqn:He2; try done.
  - rewrite (Hdir H1 H2) in He2; done.
  - rewrite (Hdir H2 H1) in He1; done.
Qed.

(** With unbounded integers: the merge-add of two histograms that satisfy
    the invariants returns a histogram that satisfies them, in which the
    count of every key is the sum of its counts in the two. *)
Lemma hist_add_spec (H1 H2 : Hist) :
  hist_inv H1 → hist_inv H2 →
  ∃ H', hist_add H1 H2 = Done H' ∧ hist_inv H' ∧
        ∀ k, hist_get H' k = hist_get H1 k + hist_get H2 k.
Proof.
  intros HH1 HH2. pose proof HH2 as [_ Ho Hp].
  destruct (hist_add_rec_spec H1 (root H2) HH1 Hp) as (H' & Hadd & HH' & Hget).
  exists H'. split; [done|]. split; [done|]. intros k.
  by rewrite Hget, (hist_get_mult H2).
Qed.

(** X6: when the receiver holds at least as many occurrences of every key
    as the other histogram, the merge-subtract returns a histogram that
    satisfies the invariants, in which the count of every key is the
    difference of its counts in the two. *)
Theorem hist_sub_subtracts_counts (H1 H2 : Hist) :
  hist_inv H1 → hist_inv H2 →
  (∀ k, hist_get H2 k ≤ hist_get H1 k) →
  ∃ H', hist_sub H1 H2 = Done H' ∧ hist_inv H' ∧
        ∀ k, hist_get H' k = hist_get H1 k - hist_get H2 k.
Proof.
  intros HH1 HH2 Hle. pose proof HH2 as [_ Ho Hp].
  destruct (hist_sub_rec_spec H1 (root H2) HH1 Hp) as (H' & Hsub & HH' & Hget).
  { intros k. rewrite <- (hist_get_mult H2) by done. apply Hle. }
  exists H'. split; [done|]. split; [done|]. intros k.
  by rewrite Hget, (hist_get_mult H2).
Qed.

Lemma hist_sub_subtracts_counts_witness :
  hist_inv sevens_and_five ∧ hist_inv two_sevens ∧
  ∃ H', hist_sub sevens_and_five two_sevens = Done H' ∧
        hist_get H' 7 = 3 - 2 ∧ hist_get H' 5 = 1 - 0.
Proof.
  assert (hist_inv two_sevens) as HH1 by by_computation.
  assert (hist_inv sevens_and_five) as HH2 by by_computation.
  split; [exact HH2|]. split; [exact HH1|].
  destruct (hist_sub_subtracts_counts sevens_and_five two_sevens HH2 HH1)
    as (H' & Hsub & _ & Hget).
  - intros k. rewrite !hist_get_get_rec.
    unfold two_sevens, sevens_and_five. cbn [root get_rec].
    repeat match goal with
           | |- context [if ?b then _ else _] => destruct b
           end; lia.
  - exists H'. split; [exact Hsub|]. split; apply Hget.
Defined.

(** X7: a merge-add followed by the merge-subtract of the same histogram
    gives back the counts of every key and the emptiness of the
    receiver. *)
Theorem hist_add_sub_round_trip (H1 H2 : Hist) :
  hist_inv H1 → hist_inv H2 →
  ∃ H' H'', hist_add H1 H2 = Done H' ∧ hist_sub H' H2 = Done H'' ∧
            (∀ k, hist_get H'' k = hist_get H1 k) ∧
            hist_is_empty H'' = hist_is_empty H1.
Proof.
  intros HH1 HH2. pose proof HH2 as [_ Ho Hp].
  destruct (hist_add_rec_spec H1 (root H2) HH1 Hp) as (H' & Hadd & HH' & Hget').
  destruct (hist_sub_rec_spec H' (root H2) HH' Hp) as (H'' & Hsub & HH'' & Hget'').
  { intros k. rewrite Hget'. pose proof (hist_get_nonneg H1 k HH1). lia. }
  assert (∀ k, hist_get H'' k = hist_get H1 k) as Hget.
  { intros k. rewrite Hget'', Hget'. lia. }
  exists H', H''. repeat split; [done..|]. by apply hist_is_empty_ext.
Qed.

Lemma hist_add_sub_round_trip_witness :
  hist_inv two_sevens ∧ hist_inv sevens_and_five ∧
  ∃ H' H'', hist_add two_sevens sevens_and_five = Done H' ∧
            hist_sub H' sevens_and_five = Done H'' ∧
            hist_get H'' 7 = hist_get two_sevens 7.
Proof.
  assert (hist_inv two_sevens) as HH1 by by_computation.
  assert (hist_inv sevens_and_five) as HH2 by by_computation.
  split; [exact HH1|]. split; [exact HH2|].
  destruct (hist_add_sub_round_trip two_sevens sevens_and_five HH1 HH2)
    as (H' & H'' & Hadd & Hsub & Hget & _).
  exists H', H''. split; [exact Hadd|]. split; [exact Hsub|]. apply Hget.
Defined.

(** ** What depends on the contents only *)

Lemma mult_in_sorted k c bs :
  StronglySorted Z.lt bs.*1 → (k, c) ∈ bs → mult k bs = c.
Proof.
  induction bs as [|[k' c'] bs IH]; simpl; [by rewrite elem_of_nil|].
  rewrite StronglySorted_cons, Forall_forall, elem_of_cons.
  intros [Hk' Hbs] [[= <- <-]|Hin].
  - rewrite decide_True by done. rewrite mult_absent; [lia|].
    intros Hin. apply Hk' in Hin. lia.
  - assert (k ∈ bs.*1) as Hkin by (apply (list_elem_of_fmap_2 fst) in Hin; done).
    apply Hk' in Hkin. rewrite decide_False by lia. rewrite IH by done. lia.
Qed.

Lemma sorted_bindings_ext bs1 : ∀ bs2,
  StronglySorted Z.lt bs1.*1 → StronglySorted Z.lt bs2.*1 →
  Forall (λ b, 0 < b.2) bs1 → Forall (λ b, 0 < b.2) bs2 →
  (∀ k, mult k bs1 = mult k bs2) → bs1 = bs2.
Proof.
  assert (∀ k c bs, Forall (λ b, 0 < b.2) ((k, c) :: bs) →
            0 < mult k ((k, c) :: bs)) as Hhead.
  { intros k c bs Hp. apply mult_pos; [done|]. simpl. left. }
  induction bs1 as [|[k1 c1] bs1 IH]; intros [|[k2 c2] bs2] Hs1 Hs2 Hp1 Hp2 Heq.
  - done.
  - specialize (Heq k2). specialize (Hhead _ _ _ Hp2). simpl in *. lia.
  - specialize (Heq k1). specialize (Hhead _ _ _ Hp1). simpl in *. lia.
  - pose proof (Hhead _ _ _ Hp1) as Hpos1. pose proof (Hhead _ _ _ Hp2) as Hpos2.
    simpl in Hs1, Hs2. apply StronglySorted_cons in Hs1 as [Hk1 Hs1].
    apply StronglySorted_cons in Hs2 as [Hk2 Hs2].
    apply Forall_cons in Hp1 as [Hc1 Hp1]. apply Forall_cons in Hp2 as [Hc2 Hp2].
    rewrite Forall_forall in Hk1, Hk2.
    assert (∀ k, k ≤ k1 → mult k bs1 = 0) as Hz1.
    { intros k Hk. apply mult_absent. intros Hin. apply Hk1 in Hin. lia. }
    assert (∀ k, k ≤ k2 → mult k bs2 = 0) as Hz2.
    { intros k Hk. apply mult_absent. intros Hin. apply Hk2 in Hin. lia. }
    assert (k1 = k2) as <-.
    { destruct (Z.lt_trichotomy k1 k2) as [Hlt|[?|Hgt]]; [|done|].
      - pose proof (Heq k1) as Hk. simpl in Hk, Hpos1.
        rewrite (Hz2 k1), (Hz1 k1) in Hk by lia. rewrite (Hz1 k1) in Hpos1 by lia.
        repeat case_decide; lia.
      - pose proof (Heq k2) as Hk. simpl in Hk, Hpos2.
        rewrite (Hz1 k2), (Hz2 k2) in Hk by lia. rewrite (Hz2 k2) in Hpos2 by lia.
        repeat case_decide; lia. }
    assert (c1 = c2) as <-.
    { specialize (Heq k1). simpl in Heq. rewrite !decide_True in Heq by done.
      rewrite Hz1, Hz2 in Heq by lia. lia. }
    f_equal. apply IH; [done..|]. intros k. specialize (Heq k). simpl in Heq. lia.
Qed.

Lemma bindings_ext H1 H2 :
  hist_inv H1 → hist_inv H2 → (∀ k, hist_get H1 k = hist_get H2 k) →
  bindings (root H1) = bindings (root H2).
Proof.
  intros [_ Ho1 Hp1] [_ Ho2 Hp2] Hget. apply sorted_bindings_ext; [done..|].
  intros k. rewrite <- !hist_get_mult by done. apply Hget.
Qed.

Lemma hist_median_empty_root H :
  hist_inv H → hist_is_empty H = true → hist_median H = Abort median_of_empty.
Proof.
  intros HH He. unfold hist_median. by rewrite (hist_is_empty_true H HH He).
Qed.

Lemma hist_median_ext H1 H2 :
  hist_inv H1 → hist_inv H2 → (∀ k, hist_get H1 k = hist_get H2 k) →
  hist_median H1 = hist_median H2.
Proof.
  intros HH1 HH2 Hget.
  pose proof (bindings_ext H1 H2 HH1 HH2 Hget) as Hb.
  pose proof (hist_is_empty_ext H1 H2 HH1 HH2 Hget) as He.
  destruct (hist_is_empty H1) eqn:He1.
  - rewrite (hist_median_empty_root H1), (hist_median_empty_root H2); try done.
  - symmetry in He.
    destruct (hist_median_elements H1 HH1 He1) as (m1 & -> & Hm1).
    destruct (hist_median_elements H2 HH2 He) as (m2 & -> & Hm2).
    unfold elements in *. rewrite Hb in Hm1. congruence.
Qed.

Lemma hist_print_rec_bindings n : hist_print_rec n = bindings n.
Proof. induction n as [|l IHl k c cs r IHr]; simpl; [done|]. by rewrite IHl, IHr. Qed.

(** X8: two histograms that satisfy the invariants and agree on the count
    of every key give the same result for [hist_median], for
    [hist_is_empty] and for [hist_print], whatever the shapes of their
    trees. *)
Theorem contents_decide_the_answers (H1 H2 : Hist) :
  hist_inv H1 → hist_inv H2 → (∀ k, hist_get H1 k = hist_get H2 k) →
  hist_median H1 = hist_median H2 ∧
  hist_is_empty H1 = hist_is_empty H2 ∧
  hist_print H1 = hist_print H2.
Proof.
  intros HH1 HH2 Hget. split; [by apply hist_median_ext|].
  split; [by apply hist_is_empty_ext|].
  unfold hist_print. rewrite !hist_print_rec_bindings. by apply bindings_ext.
Qed.

Lemma contents_decide_the_answers_witness :
  hist_inv root_two ∧ hist_inv root_one ∧
  root root_two ≠ root root_one ∧
  hist_median root_two = hist_median root_one.
Proof.
  assert (hist_inv root_two) as HH1 by by_computation.
  assert (hist_inv root_one) as HH2 by by_computation.
  split; [exact HH1|]. split; [exact HH2|]. split; [discriminate|].
  apply (contents_decide_the_answers root_two root_one HH1 HH2).
  intros k. rewrite !hist_get_get_rec. unfold root_two, root_one.
  cbn [root get_rec]. destruct (Z.eqb_spec 2 k), (Z.eqb_spec 1 k), (Z.ltb_spec k 2),
    (Z.ltb_spec k 1); lia.
Defined.

(** ** The rank of the median *)

Lemma filter_lt_nil (m : Z) (s : list Z) :
  Forall (λ x, m ≤ x) s → filter (λ x, x < m) s = [].
Proof.
  induction 1 as [|x s Hx _ IH]; [done|]. by rewrite filter_cons_False by lia.
Qed.

Lemma sorted_rank (s : list Z) : ∀ (h : nat) (m : Z),
  StronglySorted Z.le s → s !! h = Some m →
  (length (filter (λ x, (x < m)%Z) s) ≤ h
   < length (filter (λ x, (x ≤ m)%Z) s))%nat.
Proof.
  induction s as [|x s IH]; intros h m Hs Hm; [done|].
  apply StronglySorted_cons in Hs as [Hx Hs].
  destruct h as [|h]; simpl in Hm.
  - injection Hm as ->. rewrite filter_cons_False by lia.
    rewrite filter_cons_True by lia. split; [|simpl; lia].
    by rewrite filter_lt_nil.
  - assert (x ≤ m) as Hxm.
    { rewrite Forall_forall in Hx. apply Hx. by eapply list_elem_of_lookup_2. }
    specialize (IH h m Hs Hm). rewrite (filter_cons_True (λ y, y ≤ m)) by done.
    simpl. destruct (decide (x < m)).
    + rewrite filter_cons_True by done. simpl. lia.
    + rewrite filter_cons_False by done. lia.
Qed.

(** X9: the median of a non-empty histogram that satisfies the invariants
    is a key the histogram holds; at most half of the stored occurrences
    are smaller than it, and more than half are smaller than or equal to
    it. *)
Theorem hist_median_splits_in_half (H : Hist) :
  hist_inv H → hist_is_empty H = false →
  ∃ m, hist_median H = Done m ∧ 0 < hist_get H m ∧
       (2 * length (filter (λ x, (x < m)%Z) (elements (root H)))
          ≤ length (elements (root H)))%nat ∧
       (length (elements (root H))
          < 2 * length (filter (λ x, (x ≤ m)%Z) (elements (root H))))%nat.
Proof.
  intros HH Hne. destruct (hist_median_elements H HH Hne) as (m & Hm & Hlook).
  pose proof HH as [Hc Ho Hp].
  exists m. split; [done|]. split.
  - apply hist_get_pos_iff; [done|].
    apply elem_of_expand. by eapply list_elem_of_lookup_2.
  - pose proof (sorted_rank _ _ _ (sorted_expand _ Ho) Hlook) as [Hlt Hle].
    pose proof (Nat.div_mod_eq (length (elements (root H))) 2) as Hdiv.
    assert (length (elements (root H)) `mod` 2 < 2)%nat
      by (apply Nat.mod_upper_bound; lia).
    unfold elements in *. split; lia.
Qed.

Lemma hist_median_splits_in_half_witness :
  hist_inv case_2_tree ∧ hist_is_empty case_2_tree = false ∧
  ∃ m, hist_median case_2_tree = Done m ∧ 0 < hist_get case_2_tree m.
Proof.
  assert (hist_inv case_2_tree) as HH by by_computation.
  split; [exact HH|]. split; [reflexivity|].
  destruct (hist_median_splits_in_half case_2_tree HH) as (m & Hm & Hpos & _);
    [reflexivity|].
  exists m. split; [exact Hm|exact Hpos].
Defined.

(** ** The order of the operations *)

(** With unbounded integers: two sequences of operations within their
    preconditions that insert minus delete the same number of occurrences
    of every key leave histograms with the same counts, the same median
    and the same printed contents, in whatever order they do it. *)
Lemma run_order_irrelevant (ops1 ops2 : list op) :
  preconditions [] ops1 → preconditions [] ops2 →
  (∀ k, net k ops1 = net k ops2) →
  ∃ H1 H2, run ops1 hist_create = Done H1 ∧ run ops2 hist_create = Done H2 ∧
           (∀ k, hist_get H1 k = hist_get H2 k) ∧
           hist_median H1 = hist_median H2 ∧
           hist_print H1 = hist_print H2.
Proof.
  intros Hpre1 Hpre2 Hnet.
  destruct (run_net [] ops1 hist_create hist_inv_create)
    as (H1 & Hrun1 & HH1 & Hget1); [done..|].
  destruct (run_net [] ops2 hist_create hist_inv_create)
    as (H2 & Hrun2 & HH2 & Hget2); [done..|].
  assert (∀ k, hist_get H1 k = hist_get H2 k) as Hget.
  { intros k. rewrite Hget1, Hget2. apply Hnet. }
  exists H1, H2. repeat split; [done..| |].
  - by apply hist_median_ext.
  - unfold hist_print. rewrite !hist_print_rec_bindings. by apply bindings_ext.
Qed.

(** ** Printing *)

(** With unbounded integers: in every state reached from the empty
    histogram, [hist_print] prints the keys in strictly increasing order,
    one line per key, and the line of a key shows its count; the keys
    printed are the ones with a positive count. *)
Lemma run_print_sorted (ops : list op) (H : Hist) :
  run ops hist_create = Done H →
  StronglySorted Z.lt (hist_print H).*1 ∧
  ∀ k c, (k, c) ∈ hist_print H ↔ c = hist_get H k ∧ 0 < c.
Proof.
  intros Hrun. pose proof (run_inv _ _ _ hist_inv_create Hrun) as HH.
  pose proof HH as [Hc Ho Hp]. unfold hist_print.
  rewrite hist_print_rec_bindings. split; [done|]. intros k c. split.
  - intros Hin. rewrite hist_get_mult by done.
    rewrite (mult_in_sorted k c) by done. split; [done|].
    unfold positive in Hp. rewrite Forall_forall in Hp. by apply Hp in Hin.
  - intros [-> Hpos]. apply hist_get_pos_iff in Hpos; [|done].
    apply list_elem_of_fmap in Hpos as ([k' c'] & -> & Hin). simpl.
    rewrite hist_get_mult by done.
    by rewrite (mult_in_sorted k' c') by done.
Qed.

Lemma height_nonneg n : 0 ≤ height n.
Proof. induction n; simpl; lia. Qed.

Lemma hist_pretty_print_rec_spec n depth :
  (λ line : Z * Z * Z * Z, (line.1.1.2, line.1.2))
    <$> hist_pretty_print_rec n depth = reverse (hist_print_rec n) ∧
  Forall (λ line : Z * Z * Z * Z, depth ≤ line.1.1.1 < depth + height n)
         (hist_pretty_print_rec n depth).
Proof.
  revert depth. induction n as [|l IHl k c cs r IHr]; intros depth; [by split|].
  destruct (IHl (depth + 1)) as [Hl1 Hl2]. destruct (IHr (depth + 1)) as [Hr1 Hr2].
  pose proof (height_nonneg l). pose proof (height_nonneg r).
  cbn [hist_pretty_print_rec hist_print_rec height]. split.
  - rewrite !fmap_app, Hl1, Hr1. simpl.
    rewrite reverse_app, reverse_cons, <- app_assoc. done.
  - rewrite !Forall_app, Forall_singleton. simpl. repeat split.
    + eapply Forall_impl; [exact Hr2|]. simpl. lia.
    + lia.
    + lia.
    + eapply Forall_impl; [exact Hl2|]. simpl. lia.
Qed.

(** X12: [hist_pretty_print] prints the nodes that [hist_print] prints, in
    the opposite order, and indents every line by at least 0 and by less
    than the height of the tree. *)
Theorem hist_pretty_print_mirrors_print (H : Hist) :
  (λ line : Z * Z * Z * Z, (line.1.1.2, line.1.2)) <$> hist_pretty_print H
    = reverse (hist_print H) ∧
  Forall (λ line : Z * Z * Z * Z, 0 ≤ line.1.1.1 < height (root H))
         (hist_pretty_print H).
Proof. apply (hist_pretty_print_rec_spec (root H) 0). Qed.

(** ** No balancing *)

Lemma insert_right_chain n k c :
  right_chain n → Forall (λ x, x < k) (keys n) →
  right_chain (hist_insert_rec n k c) ∧
  height (hist_insert_rec n k c) = height n + 1 ∧
  keys (hist_insert_rec n k c) = keys n ++ [k].
Proof.
  induction n as [|l _ key cnt cs r IHr]; [done|].
  intros [-> Hr]. rewrite keys_node, Forall_app, Forall_cons.
  intros (_ & Hkey & Hkeys). rewrite hist_insert_rec_node.
  destruct (Z.ltb_spec k key); [lia|]. destruct (Z.gtb_spec k key); [|lia].
  destruct (IHr Hr Hkeys) as (Hchain & Hheight & Hkeys').
  pose proof (height_nonneg r). cbn [right_chain height]. rewrite !keys_node, Hkeys'.
  split; [done|]. split; [lia|]. by rewrite <- app_assoc.
Qed.

Lemma insert_each_chain ks : ∀ H,
  right_chain (root H) → StronglySorted Z.lt (keys (root H) ++ ks) →
  ∃ H', run (insert_each ks) H = Done H' ∧ right_chain (root H') ∧
        height (root H') = height (root H) + Z.of_nat (length ks) ∧
        keys (root H') = keys (root H) ++ ks.
Proof.
  induction ks as [|k ks IH]; intros H Hchain Hsorted.
  { exists H. rewrite app_nil_r. repeat split; [done|simpl; lia]. }
  destruct (insert_right_chain (root H) k 1 Hchain) as (Hchain1 & Hheight1 & Hkeys1).
  { apply StronglySorted_app in Hsorted as (Hlt & _ & _).
    apply Forall_forall. intros x Hx. apply Hlt; [done|left]. }
  destruct (IH (mkHist (hist_insert_rec (root H) k 1)))
    as (H' & Hrun & Hchain' & Hheight' & Hkeys'); [done| |].
  { cbn [root]. by rewrite Hkeys1, <- app_assoc. }
  exists H'. split; [done|]. split; [done|]. cbn [root] in *.
  rewrite Hheight', Hheight1, Hkeys', Hkeys1, <- app_assoc. simpl length.
  split; [lia|done].
Qed.

(** X13: the tree is never rebalanced: inserting keys in increasing order
    into the empty histogram gives a tree in which no node has a left
    child, as high as the number of keys, with the keys in the order in
    which they came. *)
Theorem increasing_inserts_make_a_chain (ks : list Z) :
  StronglySorted Z.lt ks →
  ∃ H, run (insert_each ks) hist_create = Done H ∧ right_chain (root H) ∧
       height (root H) = Z.of_nat (length ks) ∧ keys (root H) = ks.
Proof.
  intros Hsorted. destruct (insert_each_chain ks hist_create) as (H & ? & ? & ? & ?);
    [done..|]. by exists H.
Qed.

Lemma increasing_inserts_make_a_chain_witness :
  ∃ H, run (insert_each [1; 2; 3; 4]) hist_create = Done H ∧
       height (root H) = 4.
Proof.
  destruct (increasing_inserts_make_a_chain [1; 2; 3; 4])
    as (H & Hrun & _ & Hheight & _).
  - repeat constructor.
  - exists H. split; [exact Hrun|exact Hheight].
Defined.

(** * The build without assertions *)

Lemma bind_Done {A B : Type} (m : result A) (k : A → result B) (b : B) :
  bind m k = Done b ↔ ∃ a, m = Done a ∧ k a = Done b.
Proof.
  destruct m as [a|f]; simpl; [|by split; [|intros (? & ? & ?)]].
  split; [eauto|]. by intros (a' & [= <-] & ?).
Qed.

Lemma for_each_agree {A S : Type} (body1 body2 : S → A → result S) xs :
  (∀ s x s', body1 s x = Done s' → body2 s x = Done s') →
  ∀ s s', for_each body1 xs s = Done s' → for_each body2 xs s = Done s'.
Proof.
  intros Hbody. induction xs as [|x xs IH]; intros s s'; simpl; [done|].
  rewrite bind_Done. intros (s1 & Hstep & Hrest).
  rewrite (Hbody _ _ _ Hstep). simpl. by apply IH.
Qed.

Lemma hist_insert_ndebug_agrees H k c H' :
  hist_insert H k c = Done H' → hist_insert_ndebug H k c = Done H'.
Proof.
  unfold hist_insert, hist_insert_ndebug. by destruct (c <? 0).
Qed.

Lemma hist_delete_ndebug_agrees H v c H' :
  hist_delete H v c = Done H' → hist_delete_ndebug H v c = Done H'.
Proof.
  unfold hist_delete, hist_delete_ndebug. destruct (c <? 0); [done|].
  destruct (hist_lookup H v) as [[p [|l key cnt cs r]]|]; [done| |done].
  cbn zeta. destruct (cnt - c <? 0); [done|].
  destruct (cnt - c >? 0); [done|].
  destruct l as [|ll kl cl csl lr]; [done|].
  destruct r as [|rl kr cr csr rr]; done.
Qed.

Lemma hist_median_loop_ndebug_agrees n target m :
  hist_median_loop n target = Done m → hist_median_loop_ndebug n target = Done m.
Proof.
  revert target. induction n as [|l IHl k c cs r IHr]; intros target; simpl; [done|].
  destruct (cs <? target); [done|].
  destruct (counts_of l >? target); [apply IHl|].
  destruct (target <? counts_of l + c); [done|apply IHr].
Qed.

Lemma hist_median_ndebug_agrees H m :
  hist_median H = Done m → hist_median_ndebug H = Done m.
Proof.
  unfold hist_median, hist_median_ndebug. destruct (root H); [done|].
  apply hist_median_loop_ndebug_agrees.
Qed.

(** The removal branch does not look at [c]. *)
Lemma hist_delete_ndebug_beyond H v c p l cnt cs r :
  hist_lookup H v = Some (p, Node l v cnt cs r) → cnt ≤ c →
  hist_delete_ndebug H v c = hist_delete_ndebug H v cnt.
Proof.
  intros Hlk Hc. unfold hist_delete_ndebug. rewrite Hlk. cbn zeta.
  destruct (Z.gtb_spec (cnt - c) 0); [lia|].
  by destruct (Z.gtb_spec (cnt - cnt) 0); [lia|].
Qed.

(** What the build without assertions does to a node it finds. *)
Lemma hist_delete_ndebug_found H v c :
  hist_inv H → 0 < hist_get H v →
  ∃ H', hist_delete_ndebug H v c = Done H' ∧ hist_inv H' ∧
        ∀ j, hist_get H' j =
             if decide (v = j) then Z.max 0 (hist_get H v - c) else hist_get H j.
Proof.
  intros HH Hpos.
  destruct (hist_lookup H v) as [[p n]|] eqn:Hlk;
    [|apply hist_lookup_None_iff in Hlk; [lia|done]].
  destruct (hist_lookup_found_get _ _ _ _ Hlk) as (l & cs & r & ->).
  destruct (decide (c < 0)) as [Hneg|Hnn].
  - (* a negative [c] adds occurrences *)
    destruct (hist_lookup_from_Some _ _ _ _ _ Hlk) as [Hplug _]. simpl in Hplug.
    pose proof HH as [Hc Ho Hp]. rewrite <- Hplug in Hc, Hp.
    apply counts_ok_plug in Hc as [(Hcs & Hl & Hr) Hpath]. simpl in Hpath.
    assert (bindings (root H) =
            (before p ++ bindings l) ++ (v, hist_get H v) :: bindings r ++ after p)
      as Hb.
    { rewrite <- Hplug, bindings_plug. by same_list. }
    set (t := update_counts_to_root p (Node l v (hist_get H v - c) cs r)).
    assert (bindings t =
            (before p ++ bindings l) ++ remaining v (hist_get H v) c ++
            bindings r ++ after p) as Hbt.
    { unfold t, remaining. rewrite bindings_update_counts_to_root, bindings_plug.
      rewrite decide_True by lia. by same_list. }
    assert (ordered t) as Hot.
    { unfold ordered, keys in *. rewrite Hbt. apply remaining_ordered.
      by rewrite <- Hb. }
    exists (mkHist t). split; [|split; [split|]].
    + unfold hist_delete_ndebug. rewrite Hlk. cbn zeta.
      by destruct (Z.gtb_spec (hist_get H v - c) 0); [|lia].
    + apply counts_ok_update_counts_to_root; [done..|].
      by apply repairs_consistent.
    + done.
    + unfold positive. cbn [root]. rewrite Hbt. apply remaining_positive.
      rewrite <- Hb, <- Hplug. apply Hp.
    + intros j. rewrite (hist_get_mult (mkHist t)), (hist_get_mult H j) by done.
      cbn [root]. rewrite Hbt, Hb, remaining_mult by lia.
      case_decide; [subst j|lia].
      rewrite <- Hb, <- (hist_get_mult H v) by apply HH. lia.
  - destruct (decide (c ≤ hist_get H v)) as [Hle|Hgt].
    + destruct (hist_delete_spec H v c HH) as (H' & Hdel & HH' & Hget & _); [lia|].
      exists H'. split; [by apply hist_delete_ndebug_agrees|]. split; [done|].
      intros j. rewrite Hget. case_decide; [subst j|]; lia.
    + rewrite (hist_delete_ndebug_beyond H v c _ _ _ _ _ Hlk) by lia.
      destruct (hist_delete_spec H v (hist_get H v) HH)
        as (H' & Hdel & HH' & Hget & _); [lia|].
      exists H'. split; [by apply hist_delete_ndebug_agrees|]. split; [done|].
      intros j. rewrite Hget. case_decide; [subst j|]; lia.
Qed.

Lemma hist_delete_ndebug_not_found H v c :
  hist_lookup H v = None → hist_delete_ndebug H v c = Done H.
Proof. intros Hlk. unfold hist_delete_ndebug. by rewrite Hlk. Qed.

(** Without assertions a delete takes away what there is. *)
Lemma hist_delete_ndebug_spec H v c :
  hist_inv H → 0 ≤ c →
  ∃ H', hist_delete_ndebug H v c = Done H' ∧ hist_inv H' ∧
        ∀ j, hist_get H' j =
             if decide (v = j) then Z.max 0 (hist_get H v - c) else hist_get H j.
Proof.
  intros HH Hc. pose proof (hist_get_nonneg H v HH).
  destruct (decide (hist_get H v = 0)) as [Hz|Hnz].
  - exists H. split; [|split; [done|]].
    + apply hist_delete_ndebug_not_found. by apply hist_lookup_None_iff.
    + intros j. case_decide; [subst j|]; lia.
  - apply hist_delete_ndebug_found; [done|lia].
Qed.

Lemma hist_sub_rec_ndebug_spec H n :
  hist_inv H → positive n →
  ∃ H', hist_sub_rec_ndebug H n = Done H' ∧ hist_inv H' ∧
        ∀ j, hist_get H' j = Z.max 0 (hist_get H j - mult j (bindings n)).
Proof.
  revert H. induction n as [|l IHl key cnt cs r IHr]; intros H HH.
  { intros _. exists H. split; [done|]. split; [done|]. intros j.
    pose proof (hist_get_nonneg H j HH). simpl. lia. }
  rewrite positive_node. intros (Hpl & Hcnt & Hpr). simpl.
  destruct (hist_delete_ndebug_spec H key cnt HH) as (H1 & -> & HH1 & Hget1); [lia|].
  cbn [bind]. destruct (IHl H1 HH1 Hpl) as (H2 & -> & HH2 & Hget2).
  cbn [bind]. destruct (IHr H2 HH2 Hpr) as (H' & -> & HH' & Hget').
  exists H'. split; [done|]. split; [done|]. intros j.
  rewrite Hget', Hget2, Hget1, mult_app. simpl.
  pose proof (mult_nonneg j _ Hpl). pose proof (mult_nonneg j _ Hpr).
  case_decide; [subst j|]; lia.
Qed.

(** X14: in the build without assertions, a delete of [c ≥ 0] occurrences
    of a key from a histogram that satisfies the invariants always
    returns one that satisfies them; it takes away [c] occurrences of the
    key or, when there are fewer, all of them, removing the node, and it
    leaves the other keys as they were. *)
Theorem hist_delete_ndebug_saturates (H : Hist) (v c : Z) :
  hist_inv H → 0 ≤ c →
  ∃ H', hist_delete_ndebug H v c = Done H' ∧ hist_inv H' ∧
        hist_get H' v = Z.max 0 (hist_get H v - c) ∧
        (∀ j, v ≠ j → hist_get H' j = hist_get H j) ∧
        (hist_get H v ≤ c → hist_lookup H' v = None).
Proof.
  intros HH Hc.
  destruct (hist_delete_ndebug_spec H v c HH Hc) as (H' & Hdel & HH' & Hget).
  exists H'. split; [done|]. split; [done|].
  assert (hist_get H' v = 0 `max` (hist_get H v - c)) as Hv.
  { by rewrite Hget, decide_True. }
  split; [done|]. split.
  - intros j Hj. by rewrite Hget, decide_False.
  - intros Hle. apply hist_lookup_None_iff; [done|]. lia.
Qed.

Lemma hist_delete_ndebug_saturates_witness :
  hist_inv two_sevens ∧ 0 ≤ 3 ∧
  hist_delete two_sevens 7 3 = Abort delete_underflow ∧
  ∃ H', hist_delete_ndebug two_sevens 7 3 = Done H' ∧ hist_lookup H' 7 = None.
Proof.
  assert (hist_inv two_sevens) as HH by by_computation.
  assert (0 ≤ 3) as Hc by lia.
  split; [exact HH|]. split; [exact Hc|]. split; [reflexivity|].
  destruct (hist_delete_ndebug_saturates two_sevens 7 3 HH Hc)
    as (H' & Hdel & _ & _ & _ & Hgone).
  exists H'. split; [exact Hdel|]. apply Hgone. vm_compute. discriminate.
Defined.

(** X16: in the build without assertions the merge-subtract of two
    histograms that satisfy the invariants always returns one that
    satisfies them, in which the count of every key is its count in the
    receiver minus its count in the other histogram, or 0 when that is
    negative. *)
Theorem hist_sub_ndebug_truncates (H1 H2 : Hist) :
  hist_inv H1 → hist_inv H2 →
  ∃ H', hist_sub_ndebug H1 H2 = Done H' ∧ hist_inv H' ∧
        ∀ k, hist_get H' k = Z.max 0 (hist_get H1 k - hist_get H2 k).
Proof.
  intros HH1 HH2. pose proof HH2 as [_ Ho Hp].
  destruct (hist_sub_rec_ndebug_spec H1 (root H2) HH1 Hp)
    as (H' & Hsub & HH' & Hget).
  exists H'. split; [done|]. split; [done|]. intros k.
  by rewrite Hget, (hist_get_mult H2).
Qed.

Lemma hist_sub_ndebug_truncates_witness :
  hist_inv two_sevens ∧ hist_inv sevens_and_five ∧
  hist_sub two_sevens sevens_and_five = Abort delete_underflow ∧
  ∃ H', hist_sub_ndebug two_sevens sevens_and_five = Done H' ∧
        hist_get H' 7 = Z.max 0 (2 - 3) ∧ hist_is_empty H' = true.
Proof.
  assert (hist_inv two_sevens) as HH1 by by_computation.
  assert (hist_inv sevens_and_five) as HH2 by by_computation.
  split; [exact HH1|]. split; [exact HH2|]. split; [reflexivity|].
  destruct (hist_sub_ndebug_truncates two_sevens sevens_and_five HH1 HH2)
    as (H' & Hsub & _ & Hget).
  exists H'. split; [exact Hsub|]. split; [apply Hget|].
  injection Hsub as <-. reflexivity.
Defined.

(** X17: whenever an insert, a delete, a merge-subtract or a median of
    the build with assertions returns a value, the build without
    assertions returns the same value. *)
Theorem ndebug_agrees_with_checked (H H2 : Hist) (k c : Z) :
  (∀ H', hist_insert H k c = Done H' → hist_insert_ndebug H k c = Done H') ∧
  (∀ H', hist_delete H k c = Done H' → hist_delete_ndebug H k c = Done H') ∧
  (∀ H', hist_sub H H2 = Done H' → hist_sub_ndebug H H2 = Done H') ∧
  (∀ m, hist_median H = Done m → hist_median_ndebug H = Done m).
Proof.
  split; [|split; [|split]].
  - apply hist_insert_ndebug_agrees.
  - apply hist_delete_ndebug_agrees.
  - unfold hist_sub, hist_sub_ndebug. generalize H.
    induction (root H2) as [|l IHl key cnt cs r IHr]; intros Ha H'; simpl; [done|].
    rewrite !bind_Done. intros (H1 & Hdel & Hrest).
    apply bind_Done in Hrest as (H3 & Hl & Hr).
    exists H1. split; [by apply hist_delete_ndebug_agrees|].
    apply bind_Done. exists H3. split; [by apply IHl|by apply IHr].
  - apply hist_median_ndebug_agrees.
Qed.

Lemma ndebug_agrees_with_checked_witness :
  hist_delete case_2_tree 5 1 = Done splice_start ∧
  hist_delete_ndebug case_2_tree 5 1 = Done splice_start.
Proof.
  split; [reflexivity|].
  destruct (ndebug_agrees_with_checked case_2_tree case_2_tree 5 1)
    as (_ & Hdel & _).
  apply Hdel. reflexivity.
Defined.

(** * Further properties of the row filter *)

(** The output of the filter, pixel by pixel. *)
Lemma median_filter_pixels in_ out width height radius :
  0 < width → 0 < height → 0 ≤ radius →
  Z.of_nat (length in_) = width * height → length out = length in_ →
  ∃ out',
    median_filter_2D_sparse_byrow in_ out [width; height] 2 radius = Done out' ∧
    length out' = length out ∧
    ∀ i j, 0 ≤ i < height → 0 ≤ j < width →
      out' !! Z.to_nat (i * width + j)
      = median_of (window in_ width height radius i j).
Proof.
  intros Hw Hh Hr Hin Hout.
  destruct (median_filter_spec in_ width height radius Hw Hh Hr Hin out)
    as (out' & Hrun & Hlen & Hpix); [lia|].
  exists out'. split; [done|]. split; [done|]. intros i j Hi Hj.
  assert (0 ≤ i * width + j) as Hq by nia.
  assert ((i * width + j) `div` width = i) as Hrow.
  { apply row_of_index; lia. }
  rewrite (Hpix _ Hq), Hrow, decide_True.
  2:{ rewrite elem_of_reverse, elem_of_seqZ. lia. }
  do 2 f_equal. rewrite Z.mod_eq, Hrow by lia. lia.
Qed.

(** Two buffers of [width × height] cells with the same pixels are equal. *)
Lemma pixels_ext (l1 l2 : list Z) width height :
  0 < width → 0 < height →
  Z.of_nat (length l1) = width * height → length l2 = length l1 →
  (∀ i j, 0 ≤ i < height → 0 ≤ j < width →
     l1 !! Z.to_nat (i * width + j) = l2 !! Z.to_nat (i * width + j)) →
  l1 = l2.
Proof.
  intros Hw Hh Hlen1 Hlen2 Hpix. apply list_eq. intros n.
  destruct (decide (n < length l1)%nat) as [Hn|Hn].
  - pose proof (Z.div_mod (Z.of_nat n) width).
    pose proof (Z.mod_pos_bound (Z.of_nat n) width).
    assert (0 ≤ Z.of_nat n `div` width < height) as Hi.
    { split; [apply Z.div_pos; lia|]. apply Z.div_lt_upper_bound; lia. }
    specialize (Hpix (Z.of_nat n `div` width) (Z.of_nat n `mod` width) Hi).
    replace (Z.of_nat n `div` width * width + Z.of_nat n `mod` width)
      with (Z.of_nat n) in Hpix by lia.
    rewrite Nat2Z.id in Hpix. apply Hpix. lia.
  - rewrite !lookup_ge_None_2 by lia. done.
Qed.

Lemma median_of_singleton (x : Z) : median_of [x] = Some x.
Proof. done. Qed.

Lemma median_of_elem_of (xs : list Z) (m : Z) : median_of xs = Some m → m ∈ xs.
Proof.
  unfold median_of. intros Hm. apply list_elem_of_lookup_2 in Hm.
  by rewrite (merge_sort_Permutation Z.le) in Hm.
Qed.

Lemma sample_inside in_ width height i j :
  0 ≤ i < height → 0 ≤ j < width →
  sample in_ width height i j = in_ !!! Z.to_nat (i * width + j).
Proof.
  intros Hi Hj. unfold sample, clamp. by rewrite !Z.min_l, !Z.max_r by lia.
Qed.

Lemma sample_elem_of in_ width height r c :
  0 < width → 0 < height → Z.of_nat (length in_) = width * height →
  sample in_ width height r c ∈ in_.
Proof.
  intros Hw Hh Hin. unfold sample. apply list_elem_of_lookup_total_2.
  pose proof (clamp_range r height Hh). pose proof (clamp_range c width Hw). nia.
Qed.

Lemma window_elem_of in_ width height radius i j x :
  x ∈ window in_ width height radius i j →
  ∃ di dj, - radius ≤ di ≤ radius ∧ - radius ≤ dj ≤ radius ∧
           x = sample in_ width height (i + di) (j + dj).
Proof.
  unfold window. rewrite list_elem_of_In, in_flat_map.
  intros (di & Hdi & Hx). apply in_map_iff in Hx as (dj & <- & Hdj).
  apply list_elem_of_In, elem_of_seqZ in Hdi, Hdj.
  exists di, dj. repeat split; lia.
Qed.

(** With unbounded integers: with radius 0 the filter copies the input:
    the output buffer is the input buffer. *)
Lemma median_filter_radius_0 (in_ out : list Z) (width height : Z) :
  0 < width → 0 < height →
  Z.of_nat (length in_) = width * height → length out = length in_ →
  median_filter_2D_sparse_byrow in_ out [width; height] 2 0 = Done in_.
Proof.
  intros Hw Hh Hin Hout.
  destruct (median_filter_pixels in_ out width height 0)
    as (out' & -> & Hlen & Hpix); [done|done|lia|done..|].
  f_equal. symmetry. apply (pixels_ext in_ out' width height); [done..|lia|].
  intros i j Hi Hj. rewrite (Hpix i j Hi Hj). unfold window, range.
  change (seqZ (- 0) (0 - - 0 + 1)) with [0]. cbn [flat_map map app].
  rewrite median_of_singleton, !Z.add_0_r, sample_inside by done.
  apply list_lookup_lookup_total_lt. nia.
Qed.

(** With unbounded integers: every value the filter writes is a sample of
    the input, taken from the window of the pixel it is written to: the
    filter makes up no value. *)
Lemma median_filter_samples (in_ out : list Z)
    (width height radius : Z) :
  0 < width → 0 < height → 0 ≤ radius →
  Z.of_nat (length in_) = width * height → length out = length in_ →
  ∃ out',
    median_filter_2D_sparse_byrow in_ out [width; height] 2 radius = Done out' ∧
    ∀ i j, 0 ≤ i < height → 0 ≤ j < width →
      ∃ m di dj, out' !! Z.to_nat (IDX i j height width) = Some m ∧
                 - radius ≤ di ≤ radius ∧ - radius ≤ dj ≤ radius ∧
                 m = sample in_ width height (i + di) (j + dj) ∧ m ∈ in_.
Proof.
  intros Hw Hh Hr Hin Hout.
  destruct (median_filter_pixels in_ out width height radius)
    as (out' & Hrun & Hlen & Hpix); [done..|].
  exists out'. split; [done|]. intros i j Hi Hj.
  rewrite IDX_inside by done. rewrite (Hpix i j Hi Hj).
  destruct (fresh_median_spec in_ width height radius Hw Hh Hr Hin i j)
    as (m & _ & Hm).
  apply median_of_elem_of in Hm as Hmw.
  apply window_elem_of in Hmw as (di & dj & Hdi & Hdj & ->).
  eexists _, di, dj. split; [done|]. repeat split; [lia..|].
  by apply sample_elem_of.
Qed.

(** With unbounded integers: a buffer in which all samples are equal is a
    fixed point of the filter, for every radius [≥ 0]. *)
Lemma median_filter_constant (in_ out : list Z)
    (width height radius v : Z) :
  0 < width → 0 < height → 0 ≤ radius →
  Z.of_nat (length in_) = width * height → length out = length in_ →
  Forall (λ x, x = v) in_ →
  median_filter_2D_sparse_byrow in_ out [width; height] 2 radius = Done in_.
Proof.
  intros Hw Hh Hr Hin Hout Hconst.
  destruct (median_filter_pixels in_ out width height radius)
    as (out' & -> & Hlen & Hpix); [done..|].
  f_equal. symmetry. apply (pixels_ext in_ out' width height); [done..|lia|].
  intros i j Hi Hj. rewrite (Hpix i j Hi Hj).
  destruct (fresh_median_spec in_ width height radius Hw Hh Hr Hin i j)
    as (m & _ & Hm).
  rewrite Hm. apply median_of_elem_of, window_elem_of in Hm
    as (di & dj & _ & _ & ->).
  rewrite Forall_forall in Hconst.
  rewrite (Hconst (sample _ _ _ _ _)) by by apply sample_elem_of.
  assert (Z.to_nat (i * width + j) < length in_)%nat as Hlt by nia.
  apply lookup_lt_is_Some_2 in Hlt as [x Hx]. rewrite Hx. f_equal.
  apply Hconst. by eapply list_elem_of_lookup_2.
Qed.

(** With unbounded integers: the output of the filter does not depend on
    what the output buffer holds before the call: every cell of it is
    written. *)
Lemma median_filter_overwrites (in_ out1 out2 : list Z)
    (width height radius : Z) :
  0 < width → 0 < height → 0 ≤ radius →
  Z.of_nat (length in_) = width * height →
  length out1 = length in_ → length out2 = length in_ →
  median_filter_2D_sparse_byrow in_ out1 [width; height] 2 radius =
  median_filter_2D_sparse_byrow in_ out2 [width; height] 2 radius.
Proof.
  intros Hw Hh Hr Hin Hout1 Hout2.
  destruct (median_filter_pixels in_ out1 width height radius)
    as (out1' & -> & Hlen1 & Hpix1); [done..|].
  destruct (median_filter_pixels in_ out2 width height radius)
    as (out2' & -> & Hlen2 & Hpix2); [done..|].
  f_equal. apply (pixels_ext out1' out2' width height); [done|done|lia|lia|].
  intros i j Hi Hj. by rewrite Hpix1, Hpix2.
Qed.

(** ** Arguments outside the contract *)





Lemma load_nil p : load [] p = Abort out_of_bounds.
Proof. unfold load. by destruct (p <? 0). Qed.

(** X25: sizes the caller lets through.  With no rows the filter returns
    the output buffer as it was.  With rows but no columns the buffer is
    empty, and for every radius [≥ 0] the first read of a sample is
    outside it. *)
Theorem median_filter_empty_image (out : list Z) (width height radius : Z) :
  (height ≤ 0 →
   ∀ in_, median_filter_2D_sparse_byrow in_ out [width; height] 2 radius
          = Done out) ∧
  (0 < height → 0 ≤ radius →
   median_filter_2D_sparse_byrow [] out [0; height] 2 radius
   = Abort out_of_bounds).
Proof.
  split.
  - intros Hh in_. unfold median_filter_2D_sparse_byrow.
    change (load [width; height] 0) with (Done width).
    change (load [width; height] 1) with (Done height).
    cbn [negb Z.eqb Pos.eqb bind].
    by rewrite seqZ_nil by done.
  - intros Hh Hr. unfold median_filter_2D_sparse_byrow.
    change (load [0; height] 0) with (Done 0).
    change (load [0; height] 1) with (Done height).
    cbn [negb Z.eqb Pos.eqb bind].
    rewrite seqZ_cons by done. cbn [for_each].
    unfold filter_row, fill_histogram.
    rewrite range_symmetric, seqZ_cons by lia. cbn [for_each].
    by rewrite load_nil.
Qed.

Lemma median_filter_empty_image_witness :
  median_filter_2D_sparse_byrow [] [] [0; 4] 2 1 = Abort out_of_bounds.
Proof.
  destruct (median_filter_empty_image [] 0 4 1) as [_ Hoob]. apply Hoob; lia.
Defined.

(** ** Filling and shifting *)

Lemma length_flat_map_const {A B : Type} (f : A → list B) (l : list A) (n : nat) :
  (∀ x, length (f x) = n) → length (flat_map f l) = (length l * n)%nat.
Proof.
  intros Hf. induction l as [|x l IH]; simpl; [done|].
  rewrite length_app, Hf, IH. lia.
Qed.

Lemma length_window in_ width height radius i j :
  0 ≤ radius →
  Z.of_nat (length (window in_ width height radius i j))
  = (2 * radius + 1) * (2 * radius + 1).
Proof.
  intros Hr. unfold window.
  rewrite (length_flat_map_const _ _ (Z.to_nat (2 * radius + 1))).
  - rewrite range_symmetric, length_seqZ. lia.
  - intros di. by rewrite length_map, range_symmetric, length_seqZ.
Qed.

Lemma holds_count H (xs : list Z) :
  hist_inv H → (∀ k, hist_get H k = occ k xs) →
  counts_of (root H) = Z.of_nat (length xs).
Proof.
  intros [Hc Ho Hp] Hget. rewrite <- (length_elements _ Hc Hp). f_equal.
  apply Permutation_length, occ_eq_Permutation. intros k. unfold elements.
  rewrite occ_expand, <- Hget by done. symmetry. by apply hist_get_mult.
Qed.

(** With unbounded integers: for a buffer of [width × height] samples and
    a radius [≥ 0], [fill_histogram] on an empty histogram returns, for
    every centre [(i, j)], also one outside the image, a histogram that
    satisfies the invariants and holds the samples of the window exactly:
    the count of every value is the number of times the value is in the
    window, and there are [(2 radius + 1)²] occurrences in all. *)
Lemma fill_histogram_window (in_ : list Z) (width height radius i j : Z) :
  0 < width → 0 < height → 0 ≤ radius →
  Z.of_nat (length in_) = width * height →
  ∃ H, fill_histogram hist_create in_ i j radius width height = Done H ∧
       hist_inv H ∧
       (∀ k, hist_get H k = occ k (window in_ width height radius i j)) ∧
       counts_of (root H) = (2 * radius + 1) * (2 * radius + 1).
Proof.
  intros Hw Hh Hr Hin.
  destruct (fill_histogram_fresh in_ width height radius Hw Hh Hin i j)
    as (H & Hfill & HH & Hget).
  exists H. split; [done|]. split; [done|]. split; [done|].
  by rewrite (holds_count H _ HH Hget), length_window.
Qed.

(** With unbounded integers: on a histogram that holds the samples of the
    window at [(i, j)], [shift_histogram] returns for every column [j],
    also the last one and the ones past it, a histogram that holds the
    samples of the window at [(i, j + 1)]; no delete fails, no index is
    outside the buffer, and the number of occurrences stays the same. *)
Lemma shift_histogram_window (in_ : list Z) (H : Hist)
    (width height radius i j : Z) :
  0 < width → 0 < height → 0 ≤ radius →
  Z.of_nat (length in_) = width * height →
  hist_inv H →
  (∀ k, hist_get H k = occ k (window in_ width height radius i j)) →
  ∃ H', shift_histogram H in_ i j radius width height = Done H' ∧
        hist_inv H' ∧
        (∀ k, hist_get H' k = occ k (window in_ width height radius i (j + 1))) ∧
        counts_of (root H') = counts_of (root H).
Proof.
  intros Hw Hh Hr Hin HH Hget.
  destruct (shift_histogram_spec in_ width height radius Hw Hh Hr Hin H i j)
    as (H' & Hshift & HH' & Hget'); [by split|].
  exists H'. split; [done|]. split; [done|]. split; [done|].
  rewrite (holds_count H _ HH Hget), (holds_count H' _ HH' Hget').
  by rewrite !length_window.
Qed.

(** With unbounded integers: a row of the filter writes the cells of its
    own row and no other cell of the output buffer, keeps the length of
    the buffer, and does so whatever histogram it is handed. *)
Lemma filter_row_frame (in_ out : list Z) (hist : Hist)
    (width height radius i : Z) :
  0 < width → 0 < height → 0 ≤ radius →
  Z.of_nat (length in_) = width * height → length out = length in_ →
  0 ≤ i < height →
  ∃ hist' out',
    filter_row in_ radius width height (hist, out) i = Done (hist', out') ∧
    length out' = length out ∧
    ∀ q, 0 ≤ q → ¬ (i * width ≤ q < i * width + width) →
      out' !! Z.to_nat q = out !! Z.to_nat q.
Proof.
  intros Hw Hh Hr Hin Hout Hi.
  destruct (filter_row_spec in_ width height radius Hw Hh Hr Hin hist out i)
    as (hist' & out' & Hrow & Hlen & Hpix); [done|lia|].
  exists hist', out'. split; [done|]. split; [done|]. intros q Hq Hrow_q.
  by rewrite (Hpix q Hq), decide_False.
Qed.

(** * The debugging check *)

Lemma hist_check_rec_counts n : hist_check_rec n = true → counts_ok n.
Proof.
  induction n as [|l IHl k c cs r IHr]; [done|]. cbn [hist_check_rec counts_ok].
  rewrite !andb_true_iff, Z.eqb_eq. intros [[Hl Hr] Hcs].
  split; [done|]. split.
  - destruct l; [done|]. apply andb_true_iff in Hl as [_ Hl]. by apply IHl.
  - destruct r; [done|]. apply andb_true_iff in Hr as [_ Hr]. by apply IHr.
Qed.

(** X29: a tree that passes [hist_check_rec] has [counts] right at every
    node, but its keys need not be in order: the check compares a node
    with its two children only, and passes a tree in which a key is
    stored where [hist_lookup] does not find it. *)
Theorem hist_check_rec_is_local (n : HistNode) :
  hist_check_rec n = true →
  counts_ok n ∧
  (hist_check_rec (root misplaced_key) = true ∧
   ¬ ordered (root misplaced_key) ∧
   10 ∈ keys (root misplaced_key) ∧ hist_lookup misplaced_key 10 = None).
Proof.
  intros Hcheck. split; [by apply hist_check_rec_counts|].
  split; [done|]. split; [|split; [|done]].
  - unfold ordered. cbn. intros Ho.
    apply StronglySorted_cons in Ho as [_ Ho].
    apply StronglySorted_cons in Ho as [Ho _].
    apply Forall_cons in Ho as [Ho _]. lia.
  - cbn. rewrite !elem_of_cons. auto.
Qed.

Lemma hist_check_rec_is_local_witness :
  hist_check_rec (root case_2_tree) = true ∧ counts_ok (root case_2_tree).
Proof.
  split; [reflexivity|].
  apply (hist_check_rec_is_local (root case_2_tree)). reflexivity.
Defined.

(** * Prefixes of buffers *)

(** A read or a write inside a buffer is the same in a longer buffer. *)
Lemma load_prefix (buf rest : list Z) p v :
  load buf p = Done v → load (buf ++ rest) p = Done v.
Proof.
  unfold load. destruct (p <? 0); [done|].
  destruct (buf !! Z.to_nat p) as [x|] eqn:Hx; [|done].
  intros [= <-]. by rewrite (lookup_app_l_Some _ _ _ _ Hx).
Qed.

Lemma store_prefix (buf rest : list Z) p v buf' :
  store buf p v = Done buf' → store (buf ++ rest) p v = Done (buf' ++ rest).
Proof.
  unfold store. destruct (Z.leb_spec 0 p); [|done].
  destruct (Z.ltb_spec p (Z.of_nat (length buf))); [|done]. simpl.
  intros [= <-]. rewrite length_app.
  destruct (Z.ltb_spec p (Z.of_nat (length buf + length rest))); [|lia].
  simpl. f_equal. apply insert_app_l. lia.
Qed.

Lemma for_each_prefix {A : Type}
    (body1 body2 : Hist * list Z → A → result (Hist * list Z))
    (rest : list Z) xs :
  (∀ hist out x hist' out',
     body1 (hist, out) x = Done (hist', out') →
     body2 (hist, out ++ rest) x = Done (hist', out' ++ rest)) →
  ∀ hist out hist' out',
    for_each body1 xs (hist, out) = Done (hist', out') →
    for_each body2 xs (hist, out ++ rest) = Done (hist', out' ++ rest).
Proof.
  intros Hbody. induction xs as [|x xs IH]; intros hist out hist' out'; simpl.
  - by intros [= <- <-].
  - rewrite bind_Done. intros ([h1 o1] & Hstep & Hrest).
    rewrite (Hbody _ _ _ _ _ Hstep). simpl. by apply IH.
Qed.

Lemma window_take in_ width height radius i j :
  0 < width → 0 < height → width * height ≤ Z.of_nat (length in_) →
  window (take (Z.to_nat (width * height)) in_) width height radius i j
  = window in_ width height radius i j.
Proof.
  intros Hw Hh Hlen. unfold window. apply flat_map_ext. intros di.
  apply map_ext. intros dj. unfold sample.
  pose proof (clamp_range (i + di) height Hh).
  pose proof (clamp_range (j + dj) width Hw).
  rewrite !list_lookup_total_alt, lookup_take_lt by nia. done.
Qed.

(** * The two arithmetics agree within the range of [int] *)

(** ** Trees whose counts are in range *)

Local Ltac in_range :=
  unfold is_int, I32.INT_MIN, I32.INT_MAX in *; lia.

Lemma wrap_small z : is_int z → I32.wrap z = z.
Proof.
  unfold is_int, I32.wrap, I32.INT_MIN, I32.INT_MAX. intros Hz.
  rewrite Z.mod_small by lia. lia.
Qed.

Lemma I32_add a b : is_int (a + b) → I32.add a b = a + b.
Proof. apply wrap_small. Qed.

Lemma I32_sub a b : is_int (a - b) → I32.sub a b = a - b.
Proof. apply wrap_small. Qed.

Lemma fits_counts_of n : fits n → 0 ≤ counts_of n ≤ I32.INT_MAX.
Proof.
  induction n as [|l IHl k c cs r IHr]; simpl.
  - unfold I32.INT_MAX. lia.
  - intros (Hc & Hcs & Hmax & Hl & Hr). specialize (IHl Hl). specialize (IHr Hr).
    lia.
Qed.

Lemma fits_plug p n : fits (plug p n) → fits n.
Proof.
  revert n. induction p as [|f p IH]; intros n; simpl; [done|].
  intros Hfit. apply IH in Hfit. destruct f; simpl in Hfit; tauto.
Qed.

Lemma counts_ok_fits n :
  counts_ok n → positive n → counts_of n ≤ I32.INT_MAX → fits n.
Proof.
  induction n as [|l IHl k c cs r IHr]; [done|].
  intros (Hcs & Hl & Hr). rewrite positive_node. intros (Hpl & Hc & Hpr) Hmax.
  pose proof (counts_of_nonneg l Hl Hpl). pose proof (counts_of_nonneg r Hr Hpr).
  simpl in *. repeat split; [lia|done|done|apply IHl|apply IHr]; (done || lia).
Qed.

Lemma hist_inv_fits H :
  hist_inv H → counts_of (root H) ≤ I32.INT_MAX → fits (root H).
Proof. intros [Hc _ Hp] Hmax. by apply counts_ok_fits. Qed.

(** ** The repair of [counts] *)

Lemma add_counts_of x n :
  is_int (x + counts_of n) →
  match n with
  | NULL => x
  | Node _ _ _ cs _ => I32.add x cs
  end = x + counts_of n.
Proof. destruct n; simpl; [lia|]. apply wrap_small. Qed.

Lemma I32_update_counts n :
  fits (fst (update_counts n)) → I32.update_counts n = update_counts n.
Proof.
  destruct n as [|l k c cs r]; [done|]. simpl.
  intros (Hc & _ & Hmax & Hl & Hr).
  pose proof (fits_counts_of l Hl). pose proof (fits_counts_of r Hr).
  rewrite (add_counts_of c l) by in_range.
  rewrite (add_counts_of (c + counts_of l) r)
    by in_range.
  done.
Qed.

Lemma fits_update_counts_to_root p n :
  fits (update_counts_to_root p n) → fits (fst (update_counts n)).
Proof.
  revert n. induction p as [|f p IH]; intros n;
    rewrite update_counts_to_root_unfold;
    destruct (update_counts n) as [n' changed] eqn:Hupd; simpl.
  - by destruct changed.
  - destruct changed.
    + intros Hfit. apply IH in Hfit. destruct f; simpl in Hfit; tauto.
    + intros Hfit. apply fits_plug in Hfit. destruct f; simpl in Hfit; tauto.
Qed.

Lemma I32_update_counts_to_root_unfold p n :
  I32.update_counts_to_root p n =
  let (n', changed) := I32.update_counts n in
  if changed then
    match p with
    | [] => n'
    | f :: p' => I32.update_counts_to_root p' (up f n')
    end
  else plug p n'.
Proof. by destruct p. Qed.

Lemma I32_update_counts_to_root p n :
  fits (update_counts_to_root p n) →
  I32.update_counts_to_root p n = update_counts_to_root p n.
Proof.
  revert n. induction p as [|f p IH]; intros n Hfit;
    pose proof (fits_update_counts_to_root _ _ Hfit) as Hn;
    rewrite I32_update_counts_to_root_unfold, update_counts_to_root_unfold,
      (I32_update_counts n Hn); [done|].
  rewrite update_counts_to_root_unfold in Hfit.
  destruct (update_counts n) as [n' [|]]; [|done]. by apply IH.
Qed.

Lemma I32_update_from_parent_or loc :
  fits (update_from_parent_or loc) →
  I32.update_from_parent_or loc = update_from_parent_or loc.
Proof. destruct loc as [[|f p] child]; apply I32_update_counts_to_root. Qed.

(** ** Insertion *)

Lemma I32_hist_insert_rec n k c :
  fits (hist_insert_rec n k c) →
  I32.hist_insert_rec n k c = hist_insert_rec n k c.
Proof.
  induction n as [|l IHl key cnt cs r IHr]; intros Hfit.
  - simpl in *. f_equal. lia.
  - pose proof Hfit as Hfit'. rewrite hist_insert_rec_node in Hfit'.
    cbn [I32.hist_insert_rec hist_insert_rec] in *.
    destruct (k <? key); [|destruct (k >? key)].
    + destruct Hfit' as (_ & _ & _ & Hl & _). rewrite (IHl Hl).
      by rewrite I32_update_counts.
    + destruct Hfit' as (_ & _ & _ & _ & Hr). rewrite (IHr Hr).
      by rewrite I32_update_counts.
    + destruct Hfit' as (Hc & _ & Hmax & Hl & Hr).
      pose proof (fits_counts_of l Hl). pose proof (fits_counts_of r Hr).
      unfold I32.add at 1. rewrite wrap_small
        by in_range.
      by rewrite I32_update_counts.
Qed.

Lemma I32_hist_insert_fits nd H k c H' :
  hist_insert H k c = Done H' → fits (root H') →
  I32.hist_insert nd H k c = Done H'.
Proof.
  unfold hist_insert, I32.hist_insert, I32.assert.
  destruct (Z.ltb_spec c 0); [done|].
  destruct (Z.geb_spec c 0); [|lia].
  replace (if nd then Done tt else Done tt) with (Done tt) by by destruct nd.
  cbn [bind]. destruct (c >? 0); [|done].
  intros [= <-] Hfit. simpl in Hfit. by rewrite I32_hist_insert_rec.
Qed.

Lemma hist_insert_Done H k c H' :
  hist_inv H → hist_insert H k c = Done H' →
  0 ≤ c ∧ hist_inv H' ∧ counts_of (root H') = counts_of (root H) + c.
Proof.
  intros HH Hins. assert (0 ≤ c) as Hc.
  { unfold hist_insert in Hins. by destruct (Z.ltb_spec c 0). }
  destruct (hist_insert_spec H k c HH Hc) as (H1 & Hins1 & HH1 & _ & Htot).
  assert (H1 = H') as -> by congruence. split; [done|]. split; [done|].
  rewrite !counts_of_total by (apply HH || apply HH1). done.
Qed.

(** An insert that keeps the number of occurrences in the range of [int]
    is computed in [int] as it is with unbounded integers. *)
Lemma I32_hist_insert nd H k c H' :
  hist_inv H → counts_of (root H) + c ≤ I32.INT_MAX →
  hist_insert H k c = Done H' →
  I32.hist_insert nd H k c = Done H' ∧ hist_inv H' ∧
  counts_of (root H') = counts_of (root H) + c.
Proof.
  intros HH Hmax Hins.
  destruct (hist_insert_Done _ _ _ _ HH Hins) as (Hc & HH' & Hcounts).
  split; [|done]. apply I32_hist_insert_fits; [done|].
  apply hist_inv_fits; [done|lia].
Qed.

(** ** Deletion *)

Lemma I32_hist_delete_fits nd H v c H' :
  hist_delete_ndebug H v c = Done H' → fits (root H) → fits (root H') →
  (hist_lookup H v ≠ None → is_int c) →
  (nd = false → 0 ≤ c ∧ (hist_lookup H v = None ∨ c ≤ hist_get H v)) →
  I32.hist_delete nd H v c = Done H'.
Proof.
  intros Hdel HfitH Hfit' Hint Hchecked.
  unfold hist_delete_ndebug in Hdel. unfold I32.hist_delete.
  assert (I32.assert nd (c >=? 0) delete_negative_c = Done tt) as ->.
  { unfold I32.assert. destruct nd; [done|].
    destruct (Hchecked eq_refl) as [Hc _].
    by destruct (Z.geb_spec c 0); [|lia]. }
  cbn [bind].
  destruct (hist_lookup H v) as [[p [|l key cnt cs r]]|] eqn:Hlk; [done| |done].
  destruct (hist_lookup_from_Some _ _ _ _ _ Hlk) as (Hplug & _).
  simpl in Hplug.
  assert (hist_get H v = cnt) as Hget by (unfold hist_get; by rewrite Hlk).
  rewrite <- Hplug in HfitH. apply fits_plug in HfitH.
  destruct HfitH as (Hcnt & Hcs & Hmax & Hl & Hr).
  pose proof (fits_counts_of _ Hl). pose proof (fits_counts_of _ Hr).
  assert (is_int c) as Hc by by apply Hint.
  cbn zeta in *.
  assert (is_int (cnt - c)) as Hsub.
  { destruct (Z.gtb_spec (cnt - c) 0).
    - injection Hdel as <-. cbn [root] in Hfit'.
      apply fits_update_counts_to_root in Hfit'. simpl in Hfit'.
      in_range.
    - in_range. }
  unfold I32.sub. rewrite (wrap_small _ Hsub).
  assert (I32.assert nd (cnt - c >=? 0) delete_underflow = Done tt) as ->.
  { unfold I32.assert. destruct nd; [done|].
    destruct (Hchecked eq_refl) as [_ [?|?]]; [done|].
    by destruct (Z.geb_spec (cnt - c) 0); [|lia]. }
  cbn [bind].
  destruct (cnt - c >? 0).
  { injection Hdel as <-. cbn [root] in Hfit'.
    by rewrite I32_update_counts_to_root. }
  destruct l as [|ll kl cl csl lr].
  { injection Hdel as <-. cbn [root] in Hfit'.
    by rewrite I32_update_from_parent_or. }
  destruct r as [|rl kr cr csr rr].
  { injection Hdel as <-. cbn [root] in Hfit'.
    by rewrite I32_update_from_parent_or. }
  cbn [I32.hist_minimum bind].
  destruct (hist_minimum_from [] (Node rl kr cr csr rr))
    as [[|f pm] [|? km cm csm rm]]; try done;
    injection Hdel as <-; cbn [root] in Hfit';
    by rewrite I32_update_counts_to_root.
Qed.

Lemma hist_delete_Done_counts H v c H' :
  hist_inv H → hist_delete H v c = Done H' →
  0 ≤ c ∧ (hist_lookup H v = None ∨ c ≤ hist_get H v) ∧ hist_inv H' ∧
  counts_of (root H') ≤ counts_of (root H).
Proof.
  intros HH Hdel.
  destruct (hist_delete_Done _ _ _ _ HH Hdel) as (Hc & [[Hz ->]|Hle]).
  - split; [done|]. split; [|done]. left. by apply hist_lookup_None_iff.
  - destruct (hist_delete_spec H v c HH) as (H1 & Hdel1 & HH1 & _ & Htot); [done|].
    assert (H1 = H') as -> by congruence.
    split; [done|]. split; [by right|]. split; [done|].
    rewrite !counts_of_total by (apply HH || apply HH1). lia.
Qed.

(** A delete within its precondition, on a histogram whose number of
    occurrences is in the range of [int], is computed in [int] as it is
    with unbounded integers, in either build. *)
Lemma I32_hist_delete nd H v c H' :
  hist_inv H → counts_of (root H) ≤ I32.INT_MAX →
  hist_delete H v c = Done H' →
  I32.hist_delete nd H v c = Done H' ∧ hist_inv H' ∧
  counts_of (root H') ≤ counts_of (root H).
Proof.
  intros HH Hmax Hdel.
  destruct (hist_delete_Done_counts _ _ _ _ HH Hdel) as (Hc & Hpre & HH' & Hcounts).
  split; [|done]. pose proof (hist_inv_fits H HH Hmax) as Hfit.
  apply I32_hist_delete_fits; [by apply hist_delete_ndebug_agrees|done| | |done].
  - apply hist_inv_fits; [done|lia].
  - intros Hfound. destruct Hpre as [?|Hle]; [done|].
    destruct (hist_lookup H v) as [[p n]|] eqn:Hlk; [|done].
    destruct (hist_lookup_from_Some _ _ _ _ _ Hlk) as (Hplug & l & cnt & cs & r & ->).
    simpl in Hplug. rewrite <- Hplug in Hfit. apply fits_plug in Hfit.
    destruct Hfit as (Hcnt & Hcs & Hm & Hl & Hr).
    pose proof (fits_counts_of _ Hl). pose proof (fits_counts_of _ Hr).
    unfold hist_get in Hle. rewrite Hlk in Hle.
    in_range.
Qed.

(** ** The median *)

Lemma I32_hist_median_loop nd n : ∀ target m,
  fits n → 0 ≤ target →
  hist_median_loop n target = Done m → I32.hist_median_loop nd n target = Done m.
Proof.
  induction n as [|l IHl key cnt cs r IHr]; intros target m; [done|].
  intros (Hcnt & Hcs & Hmax & Hl & Hr) Htarget. simpl.
  pose proof (fits_counts_of _ Hl). pose proof (fits_counts_of _ Hr).
  destruct (Z.ltb_spec cs target); [done|].
  assert (I32.assert nd (cs >=? target) median_target_too_big = Done tt) as ->.
  { unfold I32.assert. destruct nd; [done|].
    by destruct (Z.geb_spec cs target); [|lia]. }
  cbn [bind]. unfold I32.add, I32.sub.
  rewrite (wrap_small (counts_of l + cnt))
    by in_range.
  rewrite (wrap_small (target - counts_of l))
    by in_range.
  destruct (Z.gtb_spec (counts_of l) target); [by apply IHl|].
  destruct (Z.ltb_spec target (counts_of l + cnt)); [done|].
  rewrite (wrap_small (target - counts_of l - cnt))
    by in_range.
  apply IHr; [done|lia].
Qed.

(** The median of a histogram whose number of occurrences is in the range
    of [int] is computed in [int] as it is with unbounded integers, in
    either build. *)
Lemma I32_hist_median nd H m :
  hist_inv H → counts_of (root H) ≤ I32.INT_MAX →
  hist_median H = Done m → I32.hist_median nd H = Done m.
Proof.
  intros HH Hmax. pose proof (hist_inv_fits H HH Hmax) as Hfit.
  unfold hist_median, I32.hist_median.
  destruct (root H) as [|l k c cs r] eqn:Hroot; [done|].
  apply I32_hist_median_loop; [done|].
  pose proof (fits_counts_of _ Hfit) as Hcs. simpl in Hcs.
  apply Z.quot_pos; lia.
Qed.

(** ** Runs and merges *)

Lemma run_Done_inserted ops : ∀ H H', run ops H = Done H' → 0 ≤ inserted ops.
Proof.
  induction ops as [|[k c|k c] ops IH]; intros H H'; unfold run; simpl; [done|..];
    rewrite bind_Done; intros (H1 & Hop & Hrun); specialize (IH _ _ Hrun);
    [|done].
  unfold hist_insert in Hop. destruct (Z.ltb_spec c 0); [done|lia].
Qed.

(** A run that inserts no more occurrences than an [int] can count is
    computed in [int] as it is with unbounded integers, in either build. *)
Lemma I32_run nd ops : ∀ H H',
  hist_inv H → counts_of (root H) + inserted ops ≤ I32.INT_MAX →
  run ops H = Done H' → I32.run nd ops H = Done H'.
Proof.
  induction ops as [|[k c|k c] ops IH]; intros H H' HH Hmax;
    unfold run, I32.run in *; simpl; [done|..];
    rewrite bind_Done; intros (H1 & Hop & Hrun);
    pose proof (run_Done_inserted _ _ _ Hrun) as Hnn; simpl in Hmax.
  - destruct (I32_hist_insert nd H k c H1 HH) as (-> & HH1 & Hcounts);
      [lia|done|].
    cbn [bind]. apply IH; [done|lia|done].
  - destruct (I32_hist_delete nd H k c H1 HH) as (-> & HH1 & Hcounts);
      [lia|done|].
    cbn [bind]. apply IH; [done|lia|done].
Qed.

Lemma I32_hist_add_rec nd n : ∀ H H',
  hist_inv H → positive n →
  counts_of (root H) + total (bindings n) ≤ I32.INT_MAX →
  hist_add_rec H n = Done H' →
  I32.hist_add_rec nd H n = Done H' ∧ hist_inv H' ∧
  counts_of (root H') = counts_of (root H) + total (bindings n).
Proof.
  induction n as [|l IHl key cnt cs r IHr]; intros H H' HH.
  { intros _ _ [= <-]. simpl. split; [done|]. split; [done|lia]. }
  rewrite positive_node. intros (Hpl & Hcnt & Hpr). simpl.
  rewrite total_app. simpl. intros Hmax.
  pose proof (total_nonneg _ Hpl) as Htl. pose proof (total_nonneg _ Hpr) as Htr.
  rewrite bind_Done. intros (H1 & Hins & Hrest).
  apply bind_Done in Hrest as (H2 & Hl & Hr).
  destruct (I32_hist_insert nd H key cnt H1 HH) as (-> & HH1 & Hcounts1);
    [lia|done|].
  cbn [bind].
  destruct (IHl H1 H2 HH1 Hpl) as (-> & HH2 & Hcounts2); [lia|done|].
  cbn [bind].
  destruct (IHr H2 H' HH2 Hpr) as (-> & HH' & Hcounts'); [lia|done|].
  split; [done|]. split; [done|lia].
Qed.

(** ** Coordinates and indexes *)

Lemma window_bound radius :
  0 ≤ radius → (2 * radius + 1) * (2 * radius + 1) ≤ I32.INT_MAX →
  radius ≤ 23169 ∧ (2 * radius + 1) * (2 * radius + 2) ≤ I32.INT_MAX.
Proof.
  unfold I32.INT_MAX. intros Hr Hwin.
  assert (radius ≤ 23169) as Hle by nia. split; [done|]. nia.
Qed.

Lemma I32_IDX r c height width :
  0 < width → 0 < height → width * height ≤ I32.INT_MAX →
  I32.IDX r c height width = IDX r c height width.
Proof.
  intros Hw Hh Hpix. unfold I32.IDX, IDX, I32.sub.
  assert (height ≤ I32.INT_MAX ∧ width ≤ I32.INT_MAX) as [? ?]
    by (unfold I32.INT_MAX in *; nia).
  rewrite (wrap_small (height - 1)), (wrap_small (width - 1)) by in_range.
  set (i := if r <? 0 then 0 else if r >=? height then height - 1 else r).
  set (j := if c <? 0 then 0 else if c >=? width then width - 1 else c).
  assert (0 ≤ i < height) as Hi.
  { unfold i. destruct (Z.ltb_spec r 0), (Z.geb_spec r height); lia. }
  assert (0 ≤ j < width) as Hj.
  { unfold j. destruct (Z.ltb_spec c 0), (Z.geb_spec c width); lia. }
  cbn zeta. unfold I32.add, I32.mul.
  rewrite (wrap_small (i * width)) by (unfold is_int, I32.INT_MIN, I32.INT_MAX in *; nia).
  apply wrap_small. unfold is_int, I32.INT_MIN, I32.INT_MAX in *. nia.
Qed.

(** ** Loops *)

Lemma for_each_ext_in {A S : Type} (body1 body2 : S → A → result S) xs :
  (∀ s x, x ∈ xs → body1 s x = body2 s x) →
  ∀ s, for_each body1 xs s = for_each body2 xs s.
Proof.
  induction xs as [|x xs IH]; intros Hbody s; simpl; [done|].
  rewrite Hbody by left. destruct (body2 s x); [|done]. simpl.
  apply IH. intros s' y Hy. apply Hbody. by right.
Qed.

(** Two loops whose bodies agree on the states that satisfy an invariant
    which counts down with the turns that are left. *)
Lemma for_each_countdown {A S : Type} (I : nat → S → Prop)
    (body1 body2 : S → A → result S) xs :
  (∀ n s x, x ∈ xs → I (Datatypes.S n) s →
     body1 s x = body2 s x ∧ ∀ s', body2 s x = Done s' → I n s') →
  ∀ s, I (length xs) s →
    for_each body1 xs s = for_each body2 xs s ∧
    ∀ s', for_each body2 xs s = Done s' → I 0%nat s'.
Proof.
  induction xs as [|x xs IH]; intros Hbody s Hs; simpl.
  { split; [done|]. by intros s' [= <-]. }
  destruct (Hbody (length xs) s x) as [-> Hnext]; [left|done|].
  destruct (body2 s x) as [s1|]; [|done]. simpl.
  apply IH; [|by apply Hnext].
  intros n s' y Hy. apply Hbody. by right.
Qed.

(** ** The row filter *)

Section int_filter.
Context (nd : bool) (in_ : list Z) (width height radius : Z).
Hypothesis Hsizes : filter_sizes width height radius.
Hypothesis Hin : Z.of_nat (length in_) = width * height.

Local Abbreviation holds_window := (holds_window in_ width height radius).

Local Ltac sizes :=
  pose proof Hsizes as [Hwidth Hheight Hradius Hpixels Hwindow Hcolumns Hrows];
  pose proof (window_bound radius Hradius Hwindow) as [Hradius_max Hwindow'].

Lemma I32_neg_radius : I32.neg radius = - radius.
Proof. sizes. apply wrap_small. in_range. Qed.

Lemma length_range_radius :
  Z.of_nat (length (range (- radius) radius)) = 2 * radius + 1.
Proof. sizes. unfold range. rewrite length_seqZ. lia. Qed.

Lemma elem_of_range_radius d :
  d ∈ range (- radius) radius → - radius ≤ d ≤ radius.
Proof. unfold range. rewrite elem_of_seqZ. lia. Qed.

(** One insert of a sample, as a turn of a loop. *)
Lemma I32_insert_sample (bound : Z) n hist r c :
  bound ≤ I32.INT_MAX →
  hist_inv hist ∧ counts_of (root hist) + Z.of_nat (S n) ≤ bound →
  (do val <- load in_ (I32.IDX r c height width); I32.hist_insert nd hist val 1)
  = (do val <- load in_ (IDX r c height width); hist_insert hist val 1) ∧
  ∀ hist', (do val <- load in_ (IDX r c height width); hist_insert hist val 1)
           = Done hist' →
    hist_inv hist' ∧ counts_of (root hist') + Z.of_nat n ≤ bound.
Proof.
  intros Hbound [HH Hcounts]. sizes.
  rewrite I32_IDX, (load_IDX in_ width height) by done. cbn [bind].
  destruct (hist_insert_spec hist (sample in_ width height r c) 1 HH)
    as (H1 & Hins & _); [lia|].
  destruct (I32_hist_insert nd hist (sample in_ width height r c) 1 H1 HH)
    as (Hins' & HH1 & Hcounts1); [lia|done|].
  rewrite Hins, Hins'. split; [done|]. intros ? [= <-]. split; [done|lia].
Qed.

Lemma I32_fill_histogram hist i j :
  hist_inv hist →
  counts_of (root hist) + (2 * radius + 1) * (2 * radius + 1) ≤ I32.INT_MAX →
  is_int (i - radius) → is_int (i + radius) →
  is_int (j - radius) → is_int (j + radius) →
  I32.fill_histogram nd hist in_ i j radius width height
  = fill_histogram hist in_ i j radius width height.
Proof.
  intros HH Hmax Hi1 Hi2 Hj1 Hj2. sizes.
  unfold I32.fill_histogram, fill_histogram. rewrite I32_neg_radius.
  pose proof length_range_radius as Hlen.
  apply (for_each_countdown
           (λ n h, hist_inv h ∧
                   counts_of (root h) + Z.of_nat n * (2 * radius + 1)
                   ≤ I32.INT_MAX)); [|split; [done|nia]].
  intros n h di Hdi [Hh Hn]. apply elem_of_range_radius in Hdi.
  assert (counts_of (root h) + Z.of_nat (length (range (- radius) radius))
          ≤ I32.INT_MAX - Z.of_nat n * (2 * radius + 1)) as Hstart by nia.
  destruct (for_each_countdown
              (λ m h', hist_inv h' ∧
                       counts_of (root h') + Z.of_nat m
                       ≤ I32.INT_MAX - Z.of_nat n * (2 * radius + 1))
              (λ hist dj,
                 do val <- load in_ (I32.IDX (I32.add i di) (I32.add j dj)
                                       height width);
                 I32.hist_insert nd hist val 1)
              (λ hist dj,
                 do val <- load in_ (IDX (i + di) (j + dj) height width);
                 hist_insert hist val 1)
              (range (- radius) radius)) with (s := h) as [Heq Hend];
    [|done|].
  - intros m h' dj Hdj Hm. apply elem_of_range_radius in Hdj.
    rewrite (I32_add i di), (I32_add j dj) by in_range.
    apply I32_insert_sample; [nia|done].
  - split; [done|]. intros h' Hh'. destruct (Hend h' Hh'). split; [done|lia].
Qed.

Lemma I32_shift_histogram hist i j :
  hist_inv hist →
  counts_of (root hist) + (2 * radius + 1) ≤ I32.INT_MAX →
  is_int (i - radius) → is_int (i + radius) →
  is_int (j - radius) → is_int (j + radius + 1) →
  I32.shift_histogram nd hist in_ i j radius width height
  = shift_histogram hist in_ i j radius width height.
Proof.
  intros HH Hmax Hi1 Hi2 Hj1 Hj2. sizes.
  unfold I32.shift_histogram, shift_histogram. rewrite I32_neg_radius.
  pose proof length_range_radius as Hlen.
  apply (for_each_countdown
           (λ n h, hist_inv h ∧ counts_of (root h) + Z.of_nat n ≤ I32.INT_MAX));
    [|split; [done|lia]].
  intros n h di Hdi [Hh' Hn]. apply elem_of_range_radius in Hdi.
  assert (counts_of (root h) ≤ I32.INT_MAX) as Hmax' by lia.
  rewrite (I32_add i di), (I32_sub j radius), (I32_add j radius),
    (I32_add (j + radius) 1) by in_range.
  rewrite !I32_IDX, !(load_IDX in_ width height) by done. cbn [bind].
  destruct (hist_delete h (sample in_ width height (i + di) (j - radius)) 1)
    as [h1|f] eqn:Hdel.
  - destruct (I32_hist_delete nd h _ 1 h1 Hh' Hmax' Hdel)
      as (-> & Hh1 & Hcounts1).
    cbn [bind].
    destruct (hist_insert_spec h1 (sample in_ width height (i + di)
                                     (j + radius + 1)) 1 Hh1)
      as (h2 & Hins & _); [lia|].
    destruct (I32_hist_insert nd h1 _ 1 h2 Hh1 ltac:(lia) Hins)
      as (Hins' & Hh2 & Hcounts2).
    rewrite Hins, Hins'. split; [done|]. intros ? [= <-]. split; [done|lia].
  - destruct (hist_delete_outcome h
                (sample in_ width height (i + di) (j - radius)) 1 Hh')
      as [Hunder|[h1 Hdone]]; [lia| |congruence].
    pose proof (hist_get_nonneg h
                  (sample in_ width height (i + di) (j - radius)) Hh') as Hnn.
    destruct (decide (hist_get h
                (sample in_ width height (i + di) (j - radius)) = 0)) as [Hz|Hnz].
    + rewrite hist_delete_not_found in Hdel; [done|lia|].
      by apply hist_lookup_None_iff.
    + destruct (hist_delete_spec h
                  (sample in_ width height (i + di) (j - radius)) 1 Hh')
        as (h1 & Hdone & _); [lia|congruence].
Qed.

Lemma holds_window_counts i j hist :
  holds_window i j hist →
  hist_inv hist ∧ counts_of (root hist) = (2 * radius + 1) * (2 * radius + 1).
Proof.
  sizes. intros [HH Hget]. split; [done|].
  by rewrite (holds_count hist _ HH Hget), length_window.
Qed.

Lemma I32_median_of_window i j hist :
  holds_window i j hist → I32.hist_median nd hist = hist_median hist.
Proof.
  sizes. intros Hwin. destruct (holds_window_counts i j hist Hwin) as [HH Hcounts].
  destruct (holds_window_median in_ width height radius Hradius i j hist Hwin)
    as (m & Hm & _).
  rewrite Hm. apply I32_hist_median; [done|lia|done].
Qed.

Lemma I32_row_body i j hist out :
  0 ≤ i < height → 0 ≤ j < width - 1 → holds_window i j hist →
  I32.row_body nd in_ radius width height i (hist, out) j
  = row_body in_ radius width height i (hist, out) j ∧
  ∀ hist' out',
    row_body in_ radius width height i (hist, out) j = Done (hist', out') →
    holds_window i (j + 1) hist'.
Proof.
  sizes. intros Hi Hj Hwin.
  destruct (holds_window_counts i j hist Hwin) as [HH Hcounts].
  destruct (shift_histogram_spec in_ width height radius Hwidth Hheight Hradius
              Hin hist i j Hwin) as (hist1 & Hshift & Hwin1).
  unfold I32.row_body, row_body.
  rewrite (I32_median_of_window i j hist Hwin), I32_IDX by done.
  rewrite I32_shift_histogram by (done || in_range). rewrite Hshift.
  split; [done|]. intros hist' out'.
  destruct (hist_median hist); [|done]. cbn [bind].
  destruct (store out _ _); [|done]. cbn [bind]. by intros [= <- _].
Qed.

Lemma I32_row_loop i n : ∀ j hist out,
  0 ≤ i < height → 0 ≤ j → j + Z.of_nat n ≤ width - 1 →
  holds_window i j hist →
  for_each (I32.row_body nd in_ radius width height i) (seqZ j (Z.of_nat n))
           (hist, out)
  = for_each (row_body in_ radius width height i) (seqZ j (Z.of_nat n))
             (hist, out) ∧
  ∀ hist' out',
    for_each (row_body in_ radius width height i) (seqZ j (Z.of_nat n))
             (hist, out) = Done (hist', out') →
    holds_window i (j + Z.of_nat n) hist'.
Proof.
  induction n as [|n IH]; intros j hist out Hi Hj Hn Hwin.
  { rewrite seqZ_nil, Z.add_0_r by done. split; [done|]. by intros ? ? [= <- _]. }
  rewrite seqZ_cons by lia. cbn [for_each].
  destruct (I32_row_body i j hist out) as [-> Hnext]; [done|lia|done|].
  replace (Z.pred (Z.of_nat (S n))) with (Z.of_nat n) by lia.
  replace (j + Z.of_nat (S n)) with (Z.succ j + Z.of_nat n) by lia.
  destruct (row_body in_ radius width height i (hist, out) j)
    as [[hist1 out1]|] eqn:Hbody; [|done].
  cbn [bind]. apply IH; [done|lia|lia|].
  rewrite <- Z.add_1_r. by apply (Hnext hist1 out1).
Qed.

(** A row of the filter is computed in [int] as it is with unbounded
    integers, from every state and in either build. *)
Lemma I32_filter_row st i :
  0 ≤ i < height →
  I32.filter_row nd in_ radius width height st i
  = filter_row in_ radius width height st i.
Proof.
  sizes. intros Hi. destruct st as [hist out].
  unfold I32.filter_row, filter_row, hist_clear. fold hist_create.
  rewrite (I32_sub width 1) by in_range.
  destruct (fill_histogram_fresh in_ width height radius Hwidth Hheight Hin i 0)
    as (hist0 & Hfill & Hwin0).
  rewrite I32_fill_histogram, Hfill;
    [|apply hist_inv_create|simpl; lia|in_range..].
  cbn [bind].
  destruct (I32_row_loop i (Z.to_nat (width - 1)) 0 hist0 out)
    as [Hloop Hend]; [done|lia|lia|done|].
  rewrite Z2Nat.id in Hloop, Hend by lia. rewrite Hloop.
  destruct (for_each (row_body in_ radius width height i) (seqZ 0 (width - 1))
              (hist0, out)) as [[hist1 out1]|] eqn:Hrow; [|done].
  cbn [bind]. specialize (Hend hist1 out1 eq_refl).
  by rewrite (I32_median_of_window i _ hist1 Hend), I32_IDX.
Qed.

Lemma I32_fresh_median i j :
  0 ≤ i < height → 0 ≤ j < width →
  I32.fresh_median nd in_ radius width height i j
  = fresh_median in_ radius width height i j.
Proof.
  sizes. intros Hi Hj. unfold I32.fresh_median, fresh_median.
  destruct (fill_histogram_fresh in_ width height radius Hwidth Hheight Hin i j)
    as (hist0 & Hfill & Hwin0).
  rewrite I32_fill_histogram, Hfill;
    [|apply hist_inv_create|simpl; lia|in_range..].
  cbn [bind]. by apply (I32_median_of_window i j).
Qed.

(** The filter is computed in [int] as it is with unbounded integers. *)
Lemma I32_median_filter out :
  I32.median_filter_2D_sparse_byrow nd in_ out [width; height] 2 radius
  = median_filter_2D_sparse_byrow in_ out [width; height] 2 radius.
Proof.
  unfold I32.median_filter_2D_sparse_byrow, median_filter_2D_sparse_byrow,
    I32.assert.
  change (load [width; height] 0) with (Done width).
  change (load [width; height] 1) with (Done height).
  cbn [Z.eqb Pos.eqb negb bind].
  replace (if nd then Done tt else Done tt) with (Done tt) by by destruct nd.
  cbn [bind]. f_equal. apply for_each_ext_in. intros st i Hi.
  apply elem_of_seqZ in Hi. apply I32_filter_row. lia.
Qed.

Lemma I32_parallel_filter sched out :
  Forall (λ i, 0 ≤ i < height) sched.*2 →
  I32.parallel_filter nd sched in_ out [width; height] 2 radius
  = parallel_filter sched in_ out [width; height] 2 radius.
Proof.
  intros Hsched.
  unfold I32.parallel_filter, parallel_filter, I32.assert.
  change (load [width; height] 0) with (Done width).
  change (load [width; height] 1) with (Done height).
  cbn [Z.eqb Pos.eqb negb bind].
  replace (if nd then Done tt else Done tt) with (Done tt) by by destruct nd.
  cbn [bind]. f_equal. apply for_each_ext_in. intros [hists buf] [w i] He.
  unfold I32.worker_step, worker_step. rewrite I32_filter_row; [done|].
  rewrite Forall_forall in Hsched. apply Hsched.
  apply list_elem_of_fmap. by exists (w, i).
Qed.

End int_filter.

(** ** Deletes beyond the precondition, and merge-subtract *)

Lemma I32_hist_delete_underflow H v c :
  hist_inv H → counts_of (root H) ≤ I32.INT_MAX → c ≤ I32.INT_MAX →
  0 < hist_get H v < c →
  I32.hist_delete false H v c = Abort delete_underflow.
Proof.
  intros HH Hmax Hc Hget. pose proof (hist_inv_fits H HH Hmax) as Hfit.
  unfold I32.hist_delete, I32.assert.
  destruct (Z.geb_spec c 0); [|lia]. cbn [bind].
  destruct (hist_lookup H v) as [[p n]|] eqn:Hlk.
  - destruct (hist_lookup_found_get _ _ _ _ Hlk) as (l & cs & r & ->).
    destruct (hist_lookup_from_Some _ _ _ _ _ Hlk) as (Hplug & _).
    simpl in Hplug. rewrite <- Hplug in Hfit. apply fits_plug in Hfit.
    destruct Hfit as (_ & Hcs & Hm & Hl & Hr).
    pose proof (fits_counts_of _ Hl). pose proof (fits_counts_of _ Hr).
    cbn zeta. rewrite I32_sub by in_range.
    by destruct (Z.geb_spec (hist_get H v - c) 0); [lia|].
  - unfold hist_get in Hget. rewrite Hlk in Hget. lia.
Qed.

(** In a build with assertions a delete of [c ≥ 0] is computed in [int]
    as it is with unbounded integers, also when its assertion fails. *)
Lemma I32_hist_delete_checked H v c :
  hist_inv H → counts_of (root H) ≤ I32.INT_MAX → 0 ≤ c ≤ I32.INT_MAX →
  I32.hist_delete false H v c = hist_delete H v c.
Proof.
  intros HH Hmax Hc. pose proof (hist_get_nonneg H v HH) as Hnn.
  destruct (decide (0 < hist_get H v < c)) as [Hunder|Hfine].
  - rewrite I32_hist_delete_underflow, hist_delete_underflow by (done || lia).
    done.
  - destruct (hist_delete_outcome H v c HH) as [Habort|[H' Hdel]]; [lia| |].
    + destruct (decide (hist_get H v = 0)) as [Hz|Hnz].
      * rewrite hist_delete_not_found in Habort; [done|lia|].
        by apply hist_lookup_None_iff.
      * destruct (hist_delete_spec H v c HH) as (H' & Hdel & _); [lia|].
        congruence.
    + rewrite Hdel. by apply I32_hist_delete.
Qed.

Lemma hist_delete_ndebug_counts H v c H' :
  hist_inv H → 0 ≤ c → hist_delete_ndebug H v c = Done H' →
  hist_inv H' ∧ counts_of (root H') ≤ counts_of (root H).
Proof.
  intros HH Hc Hdel. pose proof (hist_get_nonneg H v HH) as Hnn.
  destruct (hist_lookup H v) as [[p n]|] eqn:Hlk.
  - destruct (hist_lookup_found_get _ _ _ _ Hlk) as (l & cs & r & ->).
    assert (∃ c', 0 ≤ c' ≤ hist_get H v ∧ hist_delete_ndebug H v c' = Done H')
      as (c' & Hc' & Hdel').
    { destruct (decide (c ≤ hist_get H v)); [by exists c|].
      exists (hist_get H v). split; [lia|].
      by rewrite <- (hist_delete_ndebug_beyond H v c _ _ _ _ _ Hlk) by lia. }
    destruct (hist_delete_spec H v c' HH Hc') as (H1 & Hdel1 & _).
    apply hist_delete_ndebug_agrees in Hdel1 as Hdel1'.
    assert (H1 = H') as -> by congruence.
    by destruct (hist_delete_Done_counts _ _ _ _ HH Hdel1) as (_ & _ & ? & ?).
  - rewrite hist_delete_ndebug_not_found in Hdel by done. by injection Hdel as <-.
Qed.

(** Without assertions a delete of a negative number of occurrences of a
    key that has a node adds them to the node. *)
Lemma hist_delete_ndebug_negative H v c :
  hist_inv H → c < 0 → 0 < hist_get H v →
  ∃ H', hist_delete_ndebug H v c = Done H' ∧ hist_inv H' ∧
        (∀ j, hist_get H' j = hist_get H j - (if decide (v = j) then c else 0)) ∧
        counts_of (root H') = counts_of (root H) - c.
Proof.
  intros HH Hneg Hpos.
  destruct (hist_lookup H v) as [[p n]|] eqn:Hlk;
    [|apply hist_lookup_None_iff in Hlk; [lia|done]].
  destruct (hist_lookup_found_get _ _ _ _ Hlk) as (l & cs & r & ->).
  destruct (hist_lookup_from_Some _ _ _ _ _ Hlk) as [Hplug _]. simpl in Hplug.
  pose proof HH as [Hc Ho Hp]. rewrite <- Hplug in Hc, Hp.
  apply counts_ok_plug in Hc as [(Hcs & Hl & Hr) Hpath]. simpl in Hpath.
  assert (bindings (root H) =
          (before p ++ bindings l) ++ (v, hist_get H v) :: bindings r ++ after p)
    as Hb.
  { rewrite <- Hplug, bindings_plug. by same_list. }
  set (t := update_counts_to_root p (Node l v (hist_get H v - c) cs r)).
  assert (bindings t =
          (before p ++ bindings l) ++ remaining v (hist_get H v) c ++
          bindings r ++ after p) as Hbt.
  { unfold t, remaining. rewrite bindings_update_counts_to_root, bindings_plug.
    rewrite decide_True by lia. by same_list. }
  assert (ordered t) as Hot.
  { unfold ordered, keys in *. rewrite Hbt. apply remaining_ordered.
    by rewrite <- Hb. }
  assert (hist_inv (mkHist t)) as HH'.
  { split; [|done|].
    - apply counts_ok_update_counts_to_root; [done..|].
      by apply repairs_consistent.
    - unfold positive. cbn [root]. rewrite Hbt. apply remaining_positive.
      rewrite <- Hb, <- Hplug. apply Hp. }
  exists (mkHist t). split; [|split; [done|split]].
  - unfold hist_delete_ndebug. rewrite Hlk. cbn zeta.
    by destruct (Z.gtb_spec (hist_get H v - c) 0); [|lia].
  - intros j. rewrite (hist_get_mult (mkHist t)), (hist_get_mult H j) by done.
    cbn [root]. rewrite Hbt, Hb. apply remaining_mult. lia.
  - rewrite !counts_of_total by (apply HH || apply HH'). cbn [root].
    rewrite Hbt, Hb. apply remaining_total. lia.
Qed.

(** Without assertions a delete is computed in [int] as it is with
    unbounded integers, as long as the counts stay in range. *)
Lemma I32_hist_delete_unchecked H v c H' :
  hist_inv H → counts_of (root H) ≤ I32.INT_MAX → is_int c →
  hist_delete_ndebug H v c = Done H' →
  hist_inv H' → counts_of (root H') ≤ I32.INT_MAX →
  I32.hist_delete true H v c = Done H'.
Proof.
  intros HH Hmax Hc Hdel HH' Hmax'.
  apply I32_hist_delete_fits; [done|by apply hist_inv_fits..|done|done].
Qed.

Lemma hist_sub_rec_counts n : ∀ H H',
  hist_inv H → hist_sub_rec H n = Done H' →
  hist_inv H' ∧ counts_of (root H') ≤ counts_of (root H).
Proof.
  induction n as [|l IHl key cnt cs r IHr]; intros H H' HH; simpl.
  { by intros [= <-]. }
  rewrite bind_Done. intros (Ha & Hdel & Hrest).
  apply bind_Done in Hrest as (Hb & Hsubl & Hsubr).
  destruct (hist_delete_Done_counts _ _ _ _ HH Hdel) as (_ & _ & HHa & Hca).
  destruct (IHl _ _ HHa Hsubl) as [HHb Hcb].
  destruct (IHr _ _ HHb Hsubr) as [HH' Hc']. split; [done|lia].
Qed.

Lemma I32_hist_sub_rec_checked n : ∀ H,
  hist_inv H → counts_of (root H) ≤ I32.INT_MAX → fits n →
  I32.hist_sub_rec false H n = hist_sub_rec H n.
Proof.
  induction n as [|l IHl key cnt cs r IHr]; intros H HH Hmax; [done|].
  intros (Hcnt & Hcs & Hm & Hl & Hr). simpl.
  pose proof (fits_counts_of _ Hl) as Hcl.
  pose proof (fits_counts_of _ Hr) as Hcr.
  rewrite I32_hist_delete_checked by (done || lia).
  destruct (hist_delete H key cnt) as [Ha|] eqn:Hdel; [|done]. cbn [bind].
  destruct (hist_delete_Done_counts _ _ _ _ HH Hdel) as (_ & _ & HHa & Hca).
  rewrite IHl by (done || lia).
  destruct (hist_sub_rec Ha l) as [Hb|] eqn:Hsub; [|done]. cbn [bind].
  destruct (hist_sub_rec_counts _ _ _ HHa Hsub) as [HHb Hcb].
  apply IHr; [done|lia|done].
Qed.

Lemma I32_hist_sub_rec_unchecked n : ∀ H H',
  hist_inv H → counts_of (root H) ≤ I32.INT_MAX → fits n →
  hist_sub_rec_ndebug H n = Done H' →
  I32.hist_sub_rec true H n = Done H' ∧ hist_inv H' ∧
  counts_of (root H') ≤ counts_of (root H).
Proof.
  induction n as [|l IHl key cnt cs r IHr]; intros H H' HH Hmax.
  { intros _ [= <-]. done. }
  intros (Hcnt & Hcs & Hm & Hl & Hr). simpl.
  pose proof (fits_counts_of _ Hl) as Hcl.
  pose proof (fits_counts_of _ Hr) as Hcr.
  rewrite bind_Done. intros (Ha & Hdel & Hrest).
  apply bind_Done in Hrest as (Hb & Hsubl & Hsubr).
  destruct (hist_delete_ndebug_counts _ _ _ _ HH Hcnt Hdel) as [HHa Hca].
  rewrite (I32_hist_delete_unchecked H key cnt Ha) by (done || lia || in_range).
  cbn [bind].
  destruct (IHl Ha Hb HHa) as (-> & HHb & Hcb); [lia|done..|].
  cbn [bind].
  destruct (IHr Hb H' HHb) as (-> & HH' & Hc'); [lia|done..|].
  split; [done|]. split; [done|lia].
Qed.

Lemma run_counts ops : ∀ H H',
  hist_inv H → run ops H = Done H' →
  hist_inv H' ∧ counts_of (root H') ≤ counts_of (root H) + inserted ops.
Proof.
  induction ops as [|[k c|k c] ops IH]; intros H H' HH; unfold run; simpl.
  - intros [= <-]. split; [done|lia].
  - rewrite bind_Done. intros (H1 & Hins & Hrun).
    destruct (hist_insert_Done _ _ _ _ HH Hins) as (_ & HH1 & Hc1).
    destruct (IH _ _ HH1 Hrun) as [HH' Hc']. split; [done|lia].
  - rewrite bind_Done. intros (H1 & Hdel & Hrun).
    destruct (hist_delete_Done_counts _ _ _ _ HH Hdel) as (_ & _ & HH1 & Hc1).
    destruct (IH _ _ HH1 Hrun) as [HH' Hc']. split; [done|lia].
Qed.

(** The median depends on the contents only, in [int] as well. *)
Lemma I32_hist_median_ext nd H1 H2 :
  hist_inv H1 → hist_inv H2 →
  counts_of (root H1) ≤ I32.INT_MAX → counts_of (root H2) ≤ I32.INT_MAX →
  (∀ k, hist_get H1 k = hist_get H2 k) →
  I32.hist_median nd H1 = I32.hist_median nd H2.
Proof.
  intros HH1 HH2 Hmax1 Hmax2 Hget.
  pose proof (hist_is_empty_ext H1 H2 HH1 HH2 Hget) as He.
  pose proof (hist_median_ext H1 H2 HH1 HH2 Hget) as Hmed.
  destruct (hist_is_empty H1) eqn:He1.
  - symmetry in He. unfold I32.hist_median.
    by rewrite (hist_is_empty_true H1 HH1 He1), (hist_is_empty_true H2 HH2 He).
  - destruct (hist_median_elements H1 HH1 He1) as (m & Hm & _).
    rewrite (I32_hist_median nd H1 m), (I32_hist_median nd H2 m);
      (done || congruence).
Qed.

(** ** Buffers longer than the image *)

(** The filter reads and writes the first [width × height] cells of its
    buffers only: what follows them is not read, and is left as it is. *)
Lemma I32_fill_histogram_prefix nd hist in_ rest i j radius width height H' :
  I32.fill_histogram nd hist in_ i j radius width height = Done H' →
  I32.fill_histogram nd hist (in_ ++ rest) i j radius width height = Done H'.
Proof.
  unfold I32.fill_histogram. apply for_each_agree. intros s di s'.
  apply for_each_agree. intros h dj h'. rewrite !bind_Done.
  intros (val & Hval & Hins). exists val. split; [by apply load_prefix|done].
Qed.

Lemma I32_shift_histogram_prefix nd hist in_ rest i j radius width height H' :
  I32.shift_histogram nd hist in_ i j radius width height = Done H' →
  I32.shift_histogram nd hist (in_ ++ rest) i j radius width height = Done H'.
Proof.
  unfold I32.shift_histogram. apply for_each_agree. intros h di h'.
  rewrite !bind_Done. intros (vl & Hvl & Hrest).
  apply bind_Done in Hrest as (h1 & Hdel & Hrest).
  apply bind_Done in Hrest as (vr & Hvr & Hins).
  exists vl. split; [by apply load_prefix|].
  apply bind_Done. exists h1. split; [done|].
  apply bind_Done. exists vr. split; [by apply load_prefix|done].
Qed.

Lemma I32_row_body_prefix nd in_ rest_in rest radius width height i
    hist out j hist' out' :
  I32.row_body nd in_ radius width height i (hist, out) j = Done (hist', out') →
  I32.row_body nd (in_ ++ rest_in) radius width height i (hist, out ++ rest) j
  = Done (hist', out' ++ rest).
Proof.
  unfold I32.row_body. rewrite !bind_Done. intros (m & Hm & Hrest).
  apply bind_Done in Hrest as (o1 & Hstore & Hrest).
  apply bind_Done in Hrest as (h1 & Hshift & [= <- <-]).
  exists m. split; [done|]. apply bind_Done. exists (o1 ++ rest).
  split; [by apply store_prefix|]. apply bind_Done. exists h1.
  split; [by apply I32_shift_histogram_prefix|done].
Qed.

Lemma I32_filter_row_prefix nd in_ rest_in rest radius width height
    hist out i hist' out' :
  I32.filter_row nd in_ radius width height (hist, out) i = Done (hist', out') →
  I32.filter_row nd (in_ ++ rest_in) radius width height (hist, out ++ rest) i
  = Done (hist', out' ++ rest).
Proof.
  unfold I32.filter_row. cbn zeta. rewrite !bind_Done.
  intros (h0 & Hfill & Hrest).
  apply bind_Done in Hrest as ([h1 o1] & Hloop & Hrest).
  apply bind_Done in Hrest as (m & Hm & Hrest).
  apply bind_Done in Hrest as (o2 & Hstore & [= <- <-]).
  exists h0. split; [by apply I32_fill_histogram_prefix|].
  apply bind_Done. exists (h1, o1 ++ rest). split.
  { revert Hloop. apply for_each_prefix. intros ? ? ? ? ?.
    apply I32_row_body_prefix. }
  apply bind_Done. exists m. split; [done|].
  apply bind_Done. exists (o2 ++ rest). split; [by apply store_prefix|done].
Qed.

Lemma I32_median_filter_prefix in_ rest_in out rest width height more
    ndims radius out' :
  I32.median_filter_2D_sparse_byrow true in_ out [width; height] 2 radius
    = Done out' →
  I32.median_filter_2D_sparse_byrow true (in_ ++ rest_in) (out ++ rest)
    (width :: height :: more) ndims radius = Done (out' ++ rest).
Proof.
  unfold I32.median_filter_2D_sparse_byrow, I32.assert.
  change (load [width; height] 0) with (Done width).
  change (load [width; height] 1) with (Done height).
  change (load (width :: height :: more) 0) with (Done width).
  change (load (width :: height :: more) 1) with (Done height).
  cbn [bind]. rewrite !bind_Done. intros ([h1 o1] & Hloop & [= <-]).
  exists (h1, o1 ++ rest). split; [|done].
  revert Hloop. apply for_each_prefix. intros ? ? ? ? ?.
  apply I32_filter_row_prefix.
Qed.

Lemma I32_hist_sub_rec nd n : ∀ H H',
  hist_inv H → counts_of (root H) ≤ I32.INT_MAX →
  hist_sub_rec H n = Done H' → I32.hist_sub_rec nd H n = Done H'.
Proof.
  induction n as [|l IHl key cnt cs r IHr]; intros H H' HH Hmax; [done|].
  simpl. rewrite bind_Done. intros (Ha & Hdel & Hrest).
  apply bind_Done in Hrest as (Hb & Hsubl & Hsubr).
  destruct (I32_hist_delete nd H key cnt Ha HH Hmax Hdel) as (-> & HHa & Hca).
  cbn [bind]. destruct (hist_sub_rec_counts _ _ _ HHa Hsubl) as [HHb Hcb].
  rewrite (IHl Ha Hb) by (done || lia). cbn [bind].
  apply IHr; [done|lia|done].
Qed.

(** * The histogram in [int]: the properties of the specification *)

(** C5: after a sequence of inserts and deletes applied to the empty
    histogram within the preconditions (no negative multiplicity, no
    deletion of more occurrences than recorded) that inserts no more than
    [INT_MAX] occurrences in all, the operations all return, in either
    build, and [hist_get k] is, for every key [k], the sum of the inserted
    minus the sum of the deleted multiplicities of [k], which is not
    negative.  [hist_get] is a total function: it has no failure outcome,
    and it is 0 for a key that no node holds.  An insert of 0 occurrences
    returns the histogram as it was. *)
Theorem hist_get_is_net_count (ndebug : bool) (ops : list op) :
  preconditions [] ops → inserted ops ≤ I32.INT_MAX →
  (∃ H, I32.run ndebug ops hist_create = Done H ∧
        ∀ k, hist_get H k = net k ops ∧ 0 ≤ hist_get H k) ∧
  (∀ H k, k ∉ keys (root H) → hist_get H k = 0) ∧
  (∀ H k, I32.hist_insert ndebug H k 0 = Done H).
Proof.
  intros Hpre Hmax. split; [|split].
  - destruct (run_net [] ops hist_create hist_inv_create)
      as (H & Hrun & HH & Hget); [done..|].
    exists H. split.
    + apply I32_run; [apply hist_inv_create|simpl; lia|done].
    + intros k. split; [apply Hget|]. by apply hist_get_nonneg.
  - apply hist_get_absent.
  - intros H k. unfold I32.hist_insert, I32.assert. by destruct ndebug.
Qed.

Lemma hist_get_is_net_count_witness :
  preconditions [] net_run ∧ inserted net_run ≤ I32.INT_MAX ∧
  ∃ H, I32.run true net_run hist_create = Done H ∧ hist_get H 3 = 2 + 1 - 2.
Proof.
  assert (preconditions [] net_run) as Hpre by by_computation.
  assert (inserted net_run ≤ I32.INT_MAX) as Hmax by (vm_compute; discriminate).
  split; [exact Hpre|]. split; [exact Hmax|].
  destruct (hist_get_is_net_count true net_run Hpre Hmax)
    as ((H & Hrun & Hget) & _).
  exists H. split; [exact Hrun|]. exact (proj1 (Hget 3)).
Defined.

(** C7, amended: a delete of [c ≥ 0] occurrences of a key that has a node
    with fewer than [c] occurrences fails the assertion on [n->count] in
    a build with assertions; in the build of the Makefile, which has
    none, it returns without a signal, with the node of the key removed,
    the other keys as they were and the invariants kept.  The same holds
    for a merge-subtract when the receiver has a node for some key with
    fewer occurrences than the other histogram holds: with assertions it
    fails the assertion, without them it returns, and every count is the
    difference or 0.  A delete for a key that has no node returns without
    a signal and without a change in either build, and so does a
    merge-subtract when none of the other histogram's keys has a node in
    the receiver.  The histograms hold no more than [INT_MAX]
    occurrences, and [c] is an [int]. *)
Theorem hist_delete_underflow_by_build (H H2 : Hist) (k c : Z) :
  hist_inv H → hist_inv H2 →
  counts_of (root H) ≤ I32.INT_MAX → counts_of (root H2) ≤ I32.INT_MAX →
  0 ≤ c ≤ I32.INT_MAX →
  (0 < hist_get H k < c →
   I32.hist_delete false H k c = Abort delete_underflow ∧
   ∃ H', I32.hist_delete true H k c = Done H' ∧ hist_inv H' ∧
         hist_get H' k = 0 ∧ ∀ j, k ≠ j → hist_get H' j = hist_get H j) ∧
  (0 < hist_get H k < hist_get H2 k →
   I32.hist_sub false H H2 = Abort delete_underflow ∧
   ∃ H', I32.hist_sub true H H2 = Done H' ∧ hist_inv H' ∧
         ∀ j, hist_get H' j = Z.max 0 (hist_get H j - hist_get H2 j)) ∧
  (hist_get H k = 0 → ∀ ndebug, I32.hist_delete ndebug H k c = Done H) ∧
  ((∀ j, 0 < hist_get H2 j → hist_get H j = 0) →
   ∀ ndebug, I32.hist_sub ndebug H H2 = Done H).
Proof.
  intros HH HH2 Hmax Hmax2 Hc.
  pose proof (hist_inv_fits H2 HH2 Hmax2) as Hfit2.
  split; [|split; [|split]].
  - intros Hk. split; [apply I32_hist_delete_underflow; (done || lia)|].
    destruct (hist_delete_ndebug_spec H k c HH) as (H' & Hdel & HH' & Hget);
      [lia|].
    destruct (hist_delete_ndebug_counts _ _ _ _ HH (proj1 Hc) Hdel) as [_ Hc'].
    exists H'. split; [|split; [done|split]].
    + apply I32_hist_delete_unchecked; (done || lia || in_range).
    + rewrite Hget, decide_True by done. lia.
    + intros j Hj. by rewrite Hget, decide_False.
  - intros Hk. unfold I32.hist_sub. split.
    + rewrite I32_hist_sub_rec_checked by done.
      destruct HH2 as [_ Ho Hp]. rewrite (hist_get_mult H2) in Hk by done.
      by apply (hist_sub_rec_underflow H (root H2) k).
    + destruct (hist_sub_rec_ndebug_spec H (root H2) HH)
        as (H' & Hsub & HH' & Hget); [apply HH2|].
      destruct (I32_hist_sub_rec_unchecked (root H2) H H' HH Hmax Hfit2 Hsub)
        as (Hsub' & _).
      exists H'. split; [done|]. split; [done|]. intros j.
      rewrite Hget, (hist_get_mult H2) by apply HH2. done.
  - intros Hz ndebug.
    apply (I32_hist_delete ndebug H k c H HH Hmax).
    apply hist_delete_not_found; [lia|]. by apply hist_lookup_None_iff.
  - intros Habsent ndebug. apply I32_hist_sub_rec; [done..|].
    apply hist_sub_rec_absent; [apply HH2|].
    intros j Hj. apply hist_lookup_None_iff; [done|]. apply Habsent.
    destruct HH2 as [_ Ho Hp]. rewrite hist_get_mult by done.
    by apply mult_pos.
Qed.

Lemma hist_delete_underflow_by_build_witness :
  hist_inv two_sevens ∧ hist_inv sevens_and_five ∧
  I32.hist_delete false two_sevens 7 3 = Abort delete_underflow ∧
  (∃ H', I32.hist_delete true two_sevens 7 3 = Done H' ∧ hist_get H' 7 = 0) ∧
  I32.hist_sub false two_sevens sevens_and_five = Abort delete_underflow.
Proof.
  assert (hist_inv two_sevens) as HH by by_computation.
  assert (hist_inv sevens_and_five) as HH2 by by_computation.
  assert (counts_of (root two_sevens) ≤ I32.INT_MAX) as Hmax
    by (vm_compute; discriminate).
  assert (counts_of (root sevens_and_five) ≤ I32.INT_MAX) as Hmax2
    by (vm_compute; discriminate).
  assert (0 ≤ 3 ≤ I32.INT_MAX) as Hc by (unfold I32.INT_MAX; lia).
  split; [exact HH|]. split; [exact HH2|].
  destruct (hist_delete_underflow_by_build two_sevens sevens_and_five 7 3
              HH HH2 Hmax Hmax2 Hc) as (Hdel & Hsub & _).
  destruct Hdel as (Hchecked & H' & Hunchecked & _ & Hget & _);
    [vm_compute; split; reflexivity|].
  split; [exact Hchecked|]. split; [by exists H'|].
  apply Hsub. vm_compute. split; reflexivity.
Defined.

(** C8, as stated, fails in the build of the Makefile: without the
    assertion [n != NULL] nothing detects that the histogram is empty, and
    [hist_median] reads [H->root->counts] through the NULL root. *)
Lemma hist_median_empty_unchecked :
  hist_inv hist_create ∧ hist_is_empty hist_create = true ∧
  I32.hist_median true hist_create = Abort null_dereference.
Proof. split; [apply hist_inv_create|]. split; reflexivity. Qed.

(** C8, amended: [hist_median] requires a non-empty histogram.  On an
    empty one, a build with assertions fails the assertion [n != NULL] on
    the root; the build of the Makefile, which has no assertions, reads
    through the NULL root pointer.  Neither returns a median. *)
Theorem hist_median_empty_by_build (H : Hist) :
  hist_inv H → hist_is_empty H = true →
  I32.hist_median false H = Abort median_of_empty ∧
  I32.hist_median true H = Abort null_dereference.
Proof.
  intros HH He. unfold I32.hist_median.
  by rewrite (hist_is_empty_true H HH He).
Qed.

Lemma hist_median_empty_by_build_witness :
  hist_inv hist_create ∧ hist_is_empty hist_create = true ∧
  I32.hist_median false hist_create = Abort median_of_empty.
Proof.
  assert (hist_inv hist_create) as HH by by_computation.
  split; [exact HH|]. split; [reflexivity|].
  apply (hist_median_empty_by_build hist_create HH). reflexivity.
Defined.

(** * The histogram in [int]: further properties *)

(** X4: in every state reached from the empty histogram by inserts and
    deletes within their preconditions that insert no more than [INT_MAX]
    occurrences in all, every node has a count of at least 1 and no key
    is in two nodes; a key has a positive [hist_get] exactly when it has
    a node. *)
Theorem no_empty_or_duplicate_node (ndebug : bool) (ops : list op) :
  preconditions [] ops → inserted ops ≤ I32.INT_MAX →
  ∃ H, I32.run ndebug ops hist_create = Done H ∧
       Forall (λ b, 1 ≤ b.2) (bindings (root H)) ∧ NoDup (keys (root H)) ∧
       ∀ k, 0 < hist_get H k ↔ k ∈ keys (root H).
Proof.
  intros Hpre Hmax.
  destruct (run_net [] ops hist_create hist_inv_create)
    as (H & Hrun & _); [done..|].
  exists H. split; [|by apply (run_nodes_positive_distinct ops)].
  apply I32_run; [apply hist_inv_create|simpl; lia|done].
Qed.

Lemma no_empty_or_duplicate_node_witness :
  ∃ H, I32.run true splice_run hist_create = Done H ∧ NoDup (keys (root H)).
Proof.
  destruct (no_empty_or_duplicate_node true splice_run)
    as (H & Hrun & _ & Hdup & _); [by_computation|vm_compute; discriminate|].
  exists H. split; [exact Hrun|exact Hdup].
Defined.

(** X5: the merge-add of two histograms that satisfy the invariants and
    hold no more than [INT_MAX] occurrences together returns, in either
    build, a histogram that satisfies the invariants, in which the count
    of every key is the sum of its counts in the two. *)
Theorem hist_add_sums_counts (ndebug : bool) (H1 H2 : Hist) :
  hist_inv H1 → hist_inv H2 →
  counts_of (root H1) + counts_of (root H2) ≤ I32.INT_MAX →
  ∃ H', I32.hist_add ndebug H1 H2 = Done H' ∧ hist_inv H' ∧
        ∀ k, hist_get H' k = hist_get H1 k + hist_get H2 k.
Proof.
  intros HH1 HH2 Hmax.
  destruct (hist_add_spec H1 H2 HH1 HH2) as (H' & Hadd & HH' & Hget).
  exists H'. split; [|done].
  destruct (I32_hist_add_rec ndebug (root H2) H1 H' HH1) as (Hadd' & _);
    [apply HH2| |done|done].
  rewrite <- counts_of_total by apply HH2. done.
Qed.

Lemma hist_add_sums_counts_witness :
  ∃ H', I32.hist_add true two_sevens sevens_and_five = Done H' ∧
        hist_get H' 7 = 2 + 3.
Proof.
  destruct (hist_add_sums_counts true two_sevens sevens_and_five)
    as (H' & Hadd & _ & Hget);
    [by_computation|by_computation|vm_compute; discriminate|].
  exists H'. split; [exact Hadd|]. exact (Hget 7).
Defined.

(** X10: two sequences of operations within their preconditions that
    insert minus delete the same number of occurrences of every key, and
    insert no more than [INT_MAX] occurrences each, leave histograms with
    the same counts, the same median and the same printed contents, in
    whatever order they do it. *)
Theorem order_of_operations_is_irrelevant (ndebug : bool)
    (ops1 ops2 : list op) :
  preconditions [] ops1 → preconditions [] ops2 →
  inserted ops1 ≤ I32.INT_MAX → inserted ops2 ≤ I32.INT_MAX →
  (∀ k, net k ops1 = net k ops2) →
  ∃ H1 H2, I32.run ndebug ops1 hist_create = Done H1 ∧
           I32.run ndebug ops2 hist_create = Done H2 ∧
           (∀ k, hist_get H1 k = hist_get H2 k) ∧
           I32.hist_median ndebug H1 = I32.hist_median ndebug H2 ∧
           hist_print H1 = hist_print H2.
Proof.
  intros Hpre1 Hpre2 Hmax1 Hmax2 Hnet.
  destruct (run_order_irrelevant ops1 ops2 Hpre1 Hpre2 Hnet)
    as (H1 & H2 & Hrun1 & Hrun2 & Hget & _ & Hprint).
  destruct (run_counts _ _ _ hist_inv_create Hrun1) as [HH1 Hc1].
  destruct (run_counts _ _ _ hist_inv_create Hrun2) as [HH2 Hc2].
  simpl in Hc1, Hc2.
  exists H1, H2. split; [|split; [|split; [done|split; [|done]]]].
  - apply I32_run; [apply hist_inv_create|simpl; lia|done].
  - apply I32_run; [apply hist_inv_create|simpl; lia|done].
  - apply I32_hist_median_ext; (done || lia).
Qed.

Lemma order_of_operations_is_irrelevant_witness :
  ∃ H1 H2,
    I32.run true [Insert 1 1; Insert 2 1] hist_create = Done H1 ∧
    I32.run true [Insert 2 1; Insert 1 2; Delete 1 1] hist_create = Done H2 ∧
    I32.hist_median true H1 = I32.hist_median true H2.
Proof.
  destruct (order_of_operations_is_irrelevant true [Insert 1 1; Insert 2 1]
              [Insert 2 1; Insert 1 2; Delete 1 1])
    as (H1 & H2 & Hrun1 & Hrun2 & _ & Hmed & _);
    [by_computation|by_computation|vm_compute; discriminate
    |vm_compute; discriminate| |].
  - intros k. simpl. repeat case_decide; lia.
  - exists H1, H2. split; [exact Hrun1|]. split; [exact Hrun2|exact Hmed].
Defined.

(** X11: in every state reached from the empty histogram by inserts and
    deletes within their preconditions that insert no more than [INT_MAX]
    occurrences in all, [hist_print] prints the keys in strictly
    increasing order, one line per key, and the line of a key shows its
    count; the keys printed are the ones with a positive count. *)
Theorem hist_print_is_sorted (ndebug : bool) (ops : list op) :
  preconditions [] ops → inserted ops ≤ I32.INT_MAX →
  ∃ H, I32.run ndebug ops hist_create = Done H ∧
       StronglySorted Z.lt (hist_print H).*1 ∧
       ∀ k c, (k, c) ∈ hist_print H ↔ c = hist_get H k ∧ 0 < c.
Proof.
  intros Hpre Hmax.
  destruct (run_net [] ops hist_create hist_inv_create)
    as (H & Hrun & _); [done..|].
  exists H. split; [|by apply (run_print_sorted ops)].
  apply I32_run; [apply hist_inv_create|simpl; lia|done].
Qed.

Lemma hist_print_is_sorted_witness :
  ∃ H, I32.run true splice_run hist_create = Done H ∧
       StronglySorted Z.lt (hist_print H).*1.
Proof.
  destruct (hist_print_is_sorted true splice_run)
    as (H & Hrun & Hsorted & _); [by_computation|vm_compute; discriminate|].
  exists H. split; [exact Hrun|exact Hsorted].
Defined.

(** X15: in the build without assertions a negative multiplicity is not
    refused: as long as the number of occurrences stays in the range of
    [int], a delete of [c < 0] occurrences of a key that has a node adds
    [- c] occurrences to it and leaves the other keys as they were, a
    delete for a key without a node changes nothing, and an insert of
    [c < 0] occurrences changes nothing. *)
Theorem negative_multiplicity_ndebug (H : Hist) (v c : Z) :
  hist_inv H → c < 0 → counts_of (root H) - c ≤ I32.INT_MAX →
  (0 < hist_get H v →
   ∃ H', I32.hist_delete true H v c = Done H' ∧ hist_inv H' ∧
         hist_get H' v = hist_get H v + - c ∧
         ∀ j, v ≠ j → hist_get H' j = hist_get H j) ∧
  (hist_get H v = 0 → I32.hist_delete true H v c = Done H) ∧
  I32.hist_insert true H v c = Done H.
Proof.
  intros HH Hneg Hmax.
  pose proof (counts_of_nonneg (root H) (inv_counts H HH) (inv_positive H HH))
    as Hnn.
  split; [|split].
  - intros Hpos.
    destruct (hist_delete_ndebug_negative H v c HH Hneg Hpos)
      as (H' & Hdel & HH' & Hget & Hcounts).
    exists H'. split; [|split; [done|split]].
    + apply I32_hist_delete_unchecked; (done || lia || in_range).
    + rewrite Hget, decide_True by done. lia.
    + intros j Hj. rewrite Hget, decide_False by done. lia.
  - intros Hz. unfold I32.hist_delete, I32.assert. cbn [bind].
    by rewrite (proj2 (hist_lookup_None_iff H v HH) Hz).
  - unfold I32.hist_insert, I32.assert. cbn [bind].
    by destruct (Z.gtb_spec c 0); [lia|].
Qed.

Lemma negative_multiplicity_ndebug_witness :
  ∃ H', I32.hist_delete true two_sevens 7 (-3) = Done H' ∧
        hist_get H' 7 = 2 + - -3.
Proof.
  destruct (negative_multiplicity_ndebug two_sevens 7 (-3))
    as (Hdel & _); [by_computation|lia|vm_compute; discriminate|].
  destruct Hdel as (H' & Hdel & _ & Hget & _); [vm_compute; reflexivity|].
  exists H'. split; [exact Hdel|exact Hget].
Defined.

(** * The row filter in [int]: the properties of the specification *)

(** C3: for a buffer of [width × height] samples and a radius [≥ 0], of
    sizes for which no [int] of the filter overflows ([filter_sizes]),
    the filter returns, in either build, an output buffer of the same
    length in which the pixel at row [i], column [j] is the median of the
    [(2 radius + 1) × (2 radius + 1)] window of input samples centred at
    [(i, j)], every coordinate outside the buffer replaced by the nearest
    valid one.  On the 5 × 5 buffer holding 0..24 in row-major order, with
    radius 1, the window at (2,2) is 6, 7, 8, 11, 12, 13, 16, 17, 18 and the
    output there is 12. *)
Theorem median_filter_window_median (ndebug : bool) (in_ out : list Z)
    (width height radius : Z) :
  filter_sizes width height radius →
  Z.of_nat (length in_) = width * height → length out = length in_ →
  (∃ out',
     I32.median_filter_2D_sparse_byrow ndebug in_ out [width; height] 2 radius
       = Done out' ∧
     length out' = length out ∧
     ∀ i j, 0 ≤ i < height → 0 ≤ j < width →
       ∃ m, out' !! Z.to_nat (I32.IDX i j height width) = Some m ∧
            median_of (window in_ width height radius i j) = Some m) ∧
  window ramp 5 5 1 2 2 = [6; 7; 8; 11; 12; 13; 16; 17; 18] ∧
  (∃ out', I32.median_filter_2D_sparse_byrow ndebug ramp (replicate 25 0)
             [5; 5] 2 1 = Done out' ∧
           out' !! Z.to_nat (I32.IDX 2 2 5 5) = Some 12).
Proof.
  intros Hsizes Hin Hout. pose proof Hsizes as [Hw Hh Hr Hpix _ _ _].
  split; [|split; [done|]].
  - rewrite I32_median_filter by done.
    destruct (median_filter_pixels in_ out width height radius Hw Hh Hr Hin Hout)
      as (out' & Hrun & Hlen & Hpixels).
    exists out'. split; [done|]. split; [done|]. intros i j Hi Hj.
    rewrite I32_IDX, IDX_inside by done. rewrite (Hpixels i j Hi Hj).
    destruct (fresh_median_spec in_ width height radius Hw Hh Hr Hin i j)
      as (m & _ & Hm).
    by exists m.
  - destruct ndebug; (eexists; split; [vm_compute; reflexivity|reflexivity]).
Qed.

Lemma median_filter_window_median_witness :
  filter_sizes 3 2 1 ∧
  ∃ out', I32.median_filter_2D_sparse_byrow true [3; 1; 2; 9; 7; 8]
            [0; 0; 0; 0; 0; 0] [3; 2] 2 1 = Done out' ∧
          ∃ m, out' !! Z.to_nat (I32.IDX 0 1 2 3) = Some m ∧
               median_of (window [3; 1; 2; 9; 7; 8] 3 2 1 0 1) = Some m.
Proof.
  assert (filter_sizes 3 2 1) as Hsizes
    by (split; unfold I32.INT_MAX; lia).
  split; [exact Hsizes|].
  destruct (median_filter_window_median true [3; 1; 2; 9; 7; 8]
              [0; 0; 0; 0; 0; 0] 3 2 1 Hsizes)
    as ((out' & Hrun & _ & Hpix) & _); [reflexivity|reflexivity|].
  exists out'. split; [exact Hrun|]. apply Hpix; lia.
Defined.

(** C4: for every row [i] of a buffer and every radius [≥ 0], of sizes for
    which no [int] of the filter overflows, the row of medians the filter
    emits, from a histogram filled once for column 0 and then updated by
    the deletes and inserts of each shift, is, column by column, the
    sequence of medians of histograms filled from scratch for each
    column. *)
Theorem sliding_window_equals_fresh (ndebug : bool) (in_ out : list Z)
    (hist : Hist) (width height radius i : Z) :
  filter_sizes width height radius →
  Z.of_nat (length in_) = width * height → length out = length in_ →
  0 ≤ i < height →
  ∃ hist' out',
    I32.filter_row ndebug in_ radius width height (hist, out) i
      = Done (hist', out') ∧
    Forall2 (λ j m, I32.fresh_median ndebug in_ radius width height i j = Done m)
            (seqZ 0 width) (emitted_row out' width i).
Proof.
  intros Hsizes Hin Hout Hi. pose proof Hsizes as [Hw Hh Hr _ _ _ _].
  destruct (filter_row_fresh in_ out hist width height radius i
              Hw Hh Hr Hin Hout Hi) as (hist' & out' & Hrow & Hfresh).
  exists hist', out'. split; [by rewrite I32_filter_row|].
  apply Forall2_same_length_lookup.
  apply Forall2_same_length_lookup in Hfresh as [Hlen Hlook]. split; [done|].
  intros n j m Hj Hm. pose proof Hj as Hj'.
  apply lookup_seqZ in Hj' as [-> Hn].
  rewrite I32_fresh_median by (done || lia). by apply (Hlook n).
Qed.

Lemma sliding_window_equals_fresh_witness :
  filter_sizes 3 2 1 ∧
  ∃ hist' out',
    I32.filter_row true [3; 1; 2; 9; 7; 8] 1 3 2
      (hist_create, [0; 0; 0; 0; 0; 0]) 1 = Done (hist', out') ∧
    Forall2 (λ j m, I32.fresh_median true [3; 1; 2; 9; 7; 8] 1 3 2 1 j = Done m)
            [0; 1; 2] (emitted_row out' 3 1).
Proof.
  assert (filter_sizes 3 2 1) as Hsizes
    by (split; unfold I32.INT_MAX; lia).
  split; [exact Hsizes|].
  apply (sliding_window_equals_fresh true [3; 1; 2; 9; 7; 8] [0; 0; 0; 0; 0; 0]
           hist_create 3 2 1 1 Hsizes); (reflexivity || lia).
Defined.

(** C9: for sizes for which no [int] of the filter overflows, the output
    of the filter does not depend on how the rows are given to the
    workers, on how many workers there are, or on the order in which the
    rows are processed: every schedule in which each row is processed once
    gives the output of the sequential run, which is a function of the
    input buffer, the sizes and the radius.  A row starts by clearing its
    histogram, so what it computes does not depend on the histogram left
    by the row processed before it. *)
Theorem filter_schedule_independent (ndebug : bool) (in_ out : list Z)
    (width height radius : Z) (sched1 sched2 : list (nat * Z)) :
  filter_sizes width height radius →
  Z.of_nat (length in_) = width * height → length out = length in_ →
  sched1.*2 ≡ₚ seqZ 0 height → sched2.*2 ≡ₚ seqZ 0 height →
  (∃ out',
     I32.median_filter_2D_sparse_byrow ndebug in_ out [width; height] 2 radius
       = Done out' ∧
     I32.parallel_filter ndebug sched1 in_ out [width; height] 2 radius
       = Done out' ∧
     I32.parallel_filter ndebug sched2 in_ out [width; height] 2 radius
       = Done out') ∧
  (∀ hist1 hist2 buf i,
     I32.filter_row ndebug in_ radius width height (hist1, buf) i =
     I32.filter_row ndebug in_ radius width height (hist2, buf) i).
Proof.
  intros Hsizes Hin Hout Hs1 Hs2. pose proof Hsizes as [Hw Hh Hr _ _ _ _].
  split; [|done].
  assert (Z.of_nat (length out) = width * height) as Hlen by lia.
  destruct (median_filter_spec in_ width height radius Hw Hh Hr Hin out Hlen)
    as (out' & Hrun & _).
  exists out'. rewrite I32_median_filter by done. split; [done|].
  rewrite !I32_parallel_filter
    by (done || (rewrite ?Hs1, ?Hs2; apply Forall_seqZ; lia)).
  rewrite !(parallel_filter_spec in_ width height radius Hw Hh Hr Hin) by done.
  done.
Qed.

Lemma filter_schedule_independent_witness :
  filter_sizes 3 3 1 ∧
  two_workers.*2 ≡ₚ seqZ 0 3 ∧ three_workers.*2 ≡ₚ seqZ 0 3 ∧
  ∃ out',
    I32.parallel_filter true two_workers [3; 1; 2; 9; 7; 8; 4; 6; 5]
      (replicate 9 0) [3; 3] 2 1 = Done out' ∧
    I32.parallel_filter true three_workers [3; 1; 2; 9; 7; 8; 4; 6; 5]
      (replicate 9 0) [3; 3] 2 1 = Done out'.
Proof.
  assert (filter_sizes 3 3 1) as Hsizes
    by (split; unfold I32.INT_MAX; lia).
  assert (two_workers.*2 ≡ₚ seqZ 0 3) as Hs1 by reflexivity.
  assert (three_workers.*2 ≡ₚ seqZ 0 3) as Hs2.
  { change ([2; 1; 0] ≡ₚ [0; 1; 2]). apply (bool_decide_unpack _). reflexivity. }
  split; [exact Hsizes|]. split; [exact Hs1|]. split; [exact Hs2|].
  destruct (filter_schedule_independent true [3; 1; 2; 9; 7; 8; 4; 6; 5]
              (replicate 9 0) 3 3 1 two_workers three_workers Hsizes)
    as ((out' & _ & Hrun1 & Hrun2) & _);
    [reflexivity|reflexivity|exact Hs1|exact Hs2|].
  exists out'. split; [exact Hrun1|exact Hrun2].
Defined.

(** * The row filter in [int]: further properties *)

Lemma filter_sizes_radius_0 width height :
  0 < width → 0 < height → width * height ≤ I32.INT_MAX →
  filter_sizes width height 0.
Proof. intros Hw Hh Hpix. split; unfold I32.INT_MAX in *; nia. Qed.

(** X18: the filter as the Makefile builds it, without assertions,
    returns for a buffer of [width × height] samples and a radius [≥ 0],
    of sizes for which no [int] of the filter overflows, the output of
    the filter with assertions, so that every pixel is the median of its
    window; it does so whatever [ndims] is, because the test of [ndims]
    is an assertion. *)
Theorem median_filter_ndebug_same_output (in_ out : list Z)
    (width height radius ndims : Z) :
  filter_sizes width height radius →
  Z.of_nat (length in_) = width * height → length out = length in_ →
  ∃ out',
    I32.median_filter_2D_sparse_byrow true in_ out [width; height] ndims radius
      = Done out' ∧
    I32.median_filter_2D_sparse_byrow false in_ out [width; height] 2 radius
      = Done out' ∧
    ∀ i j, 0 ≤ i < height → 0 ≤ j < width →
      out' !! Z.to_nat (I32.IDX i j height width)
      = median_of (window in_ width height radius i j).
Proof.
  intros Hsizes Hin Hout. pose proof Hsizes as [Hw Hh Hr Hpix _ _ _].
  destruct (median_filter_pixels in_ out width height radius Hw Hh Hr Hin Hout)
    as (out' & Hrun & _ & Hpixels).
  exists out'. split; [|split].
  - change (I32.median_filter_2D_sparse_byrow true in_ out [width; height]
              ndims radius)
      with (I32.median_filter_2D_sparse_byrow true in_ out [width; height]
              2 radius).
    by rewrite I32_median_filter.
  - by rewrite I32_median_filter.
  - intros i j Hi Hj. rewrite I32_IDX, IDX_inside by done. by apply Hpixels.
Qed.

Lemma median_filter_ndebug_same_output_witness :
  filter_sizes 3 2 1 ∧
  I32.median_filter_2D_sparse_byrow false [3; 1; 2; 9; 7; 8]
    [0; 0; 0; 0; 0; 0] [3; 2] 3 1 = Abort filter_ndims ∧
  ∃ out', I32.median_filter_2D_sparse_byrow true [3; 1; 2; 9; 7; 8]
            [0; 0; 0; 0; 0; 0] [3; 2] 3 1 = Done out' ∧
          I32.median_filter_2D_sparse_byrow false [3; 1; 2; 9; 7; 8]
            [0; 0; 0; 0; 0; 0] [3; 2] 2 1 = Done out'.
Proof.
  assert (filter_sizes 3 2 1) as Hsizes
    by (split; unfold I32.INT_MAX; lia).
  split; [exact Hsizes|]. split; [reflexivity|].
  destruct (median_filter_ndebug_same_output [3; 1; 2; 9; 7; 8]
              [0; 0; 0; 0; 0; 0] 3 2 1 3 Hsizes) as (out' & Hnd & Hchk & _);
    [reflexivity|reflexivity|].
  exists out'. split; [exact Hnd|exact Hchk].
Defined.

(** X19: for a buffer with at least one row and one column and no more
    than [INT_MAX] pixels, [IDX] is an index inside the buffer for every
    pair of coordinates, also negative ones and ones past the end; it is
    [i * width + j] for coordinates inside the image, and in general the
    index of the nearest pixel of the image. *)
Theorem IDX_is_always_inside (i j height width : Z) :
  0 < width → 0 < height → width * height ≤ I32.INT_MAX →
  0 ≤ I32.IDX i j height width < width * height ∧
  I32.IDX i j height width = clamp i height * width + clamp j width ∧
  (0 ≤ i < height → 0 ≤ j < width → I32.IDX i j height width = i * width + j).
Proof.
  intros Hw Hh Hpix. rewrite I32_IDX by done. split; [|split].
  - by apply IDX_range.
  - by apply IDX_clamp.
  - by apply IDX_inside.
Qed.

Lemma IDX_is_always_inside_witness :
  0 ≤ I32.IDX (-4) 7 2 3 < 3 * 2 ∧ I32.IDX (-4) 7 2 3 = 0 * 3 + 2.
Proof.
  destruct (IDX_is_always_inside (-4) 7 2 3) as (Hrange & Hclamp & _);
    [lia|lia|vm_compute; discriminate|].
  split; [exact Hrange|exact Hclamp].
Defined.

(** X20: with radius 0 the filter copies the input, for every buffer of
    no more than [INT_MAX] pixels and in either build: the output buffer
    is the input buffer. *)
Theorem median_filter_radius_0_is_identity (ndebug : bool) (in_ out : list Z)
    (width height : Z) :
  0 < width → 0 < height → width * height ≤ I32.INT_MAX →
  Z.of_nat (length in_) = width * height → length out = length in_ →
  I32.median_filter_2D_sparse_byrow ndebug in_ out [width; height] 2 0
  = Done in_.
Proof.
  intros Hw Hh Hpix Hin Hout.
  rewrite I32_median_filter by (done || by apply filter_sizes_radius_0).
  by apply median_filter_radius_0.
Qed.

Lemma median_filter_radius_0_is_identity_witness :
  I32.median_filter_2D_sparse_byrow true [3; 1; 2; 9; 7; 8]
    [0; 0; 0; 0; 0; 0] [3; 2] 2 0 = Done [3; 1; 2; 9; 7; 8].
Proof.
  apply (median_filter_radius_0_is_identity true [3; 1; 2; 9; 7; 8]
           [0; 0; 0; 0; 0; 0] 3 2);
    (reflexivity || lia || (vm_compute; discriminate)).
Defined.

(** X21: for sizes for which no [int] of the filter overflows, every
    value the filter writes is a sample of the input, taken from the
    window of the pixel it is written to: the filter makes up no value. *)
Theorem median_filter_outputs_are_samples (ndebug : bool) (in_ out : list Z)
    (width height radius : Z) :
  filter_sizes width height radius →
  Z.of_nat (length in_) = width * height → length out = length in_ →
  ∃ out',
    I32.median_filter_2D_sparse_byrow ndebug in_ out [width; height] 2 radius
      = Done out' ∧
    ∀ i j, 0 ≤ i < height → 0 ≤ j < width →
      ∃ m di dj, out' !! Z.to_nat (I32.IDX i j height width) = Some m ∧
                 - radius ≤ di ≤ radius ∧ - radius ≤ dj ≤ radius ∧
                 m = sample in_ width height (i + di) (j + dj) ∧ m ∈ in_.
Proof.
  intros Hsizes Hin Hout. pose proof Hsizes as [Hw Hh Hr Hpix _ _ _].
  destruct (median_filter_samples in_ out width height radius Hw Hh Hr Hin Hout)
    as (out' & Hrun & Hsamples).
  exists out'. split; [by rewrite I32_median_filter|].
  intros i j Hi Hj. rewrite I32_IDX by done. by apply Hsamples.
Qed.

Lemma median_filter_outputs_are_samples_witness :
  filter_sizes 3 2 1 ∧
  ∃ out', I32.median_filter_2D_sparse_byrow true [3; 1; 2; 9; 7; 8]
            [0; 0; 0; 0; 0; 0] [3; 2] 2 1 = Done out' ∧
          ∃ m, out' !! Z.to_nat (I32.IDX 1 2 2 3) = Some m ∧
               m ∈ [3; 1; 2; 9; 7; 8].
Proof.
  assert (filter_sizes 3 2 1) as Hsizes
    by (split; unfold I32.INT_MAX; lia).
  split; [exact Hsizes|].
  destruct (median_filter_outputs_are_samples true [3; 1; 2; 9; 7; 8]
              [0; 0; 0; 0; 0; 0] 3 2 1 Hsizes) as (out' & Hrun & Hpix);
    [reflexivity|reflexivity|].
  exists out'. split; [exact Hrun|].
  destruct (Hpix 1 2) as (m & _ & _ & Hm & _ & _ & _ & Hin); [lia|lia|].
  exists m. split; [exact Hm|exact Hin].
Defined.

(** X22: a buffer in which all samples are equal is a fixed point of the
    filter, for every radius [≥ 0] and sizes for which no [int] of the
    filter overflows. *)
Theorem median_filter_keeps_constant_image (ndebug : bool) (in_ out : list Z)
    (width height radius v : Z) :
  filter_sizes width height radius →
  Z.of_nat (length in_) = width * height → length out = length in_ →
  Forall (λ x, x = v) in_ →
  I32.median_filter_2D_sparse_byrow ndebug in_ out [width; height] 2 radius
  = Done in_.
Proof.
  intros Hsizes Hin Hout Hconst. pose proof Hsizes as [Hw Hh Hr _ _ _ _].
  rewrite I32_median_filter by done.
  by apply (median_filter_constant in_ out width height radius v).
Qed.

Lemma median_filter_keeps_constant_image_witness :
  filter_sizes 2 2 3 ∧
  I32.median_filter_2D_sparse_byrow true [7; 7; 7; 7] [0; 1; 2; 3] [2; 2] 2 3
  = Done [7; 7; 7; 7].
Proof.
  assert (filter_sizes 2 2 3) as Hsizes
    by (split; unfold I32.INT_MAX; lia).
  split; [exact Hsizes|].
  apply (median_filter_keeps_constant_image true [7; 7; 7; 7] [0; 1; 2; 3]
           2 2 3 7 Hsizes); [reflexivity|reflexivity|].
  repeat constructor.
Defined.

(** X23: for sizes for which no [int] of the filter overflows, the output
    of the filter does not depend on what the output buffer holds before
    the call: every cell of it is written. *)
Theorem median_filter_overwrites_output (ndebug : bool)
    (in_ out1 out2 : list Z) (width height radius : Z) :
  filter_sizes width height radius →
  Z.of_nat (length in_) = width * height →
  length out1 = length in_ → length out2 = length in_ →
  I32.median_filter_2D_sparse_byrow ndebug in_ out1 [width; height] 2 radius =
  I32.median_filter_2D_sparse_byrow ndebug in_ out2 [width; height] 2 radius.
Proof.
  intros Hsizes Hin Hout1 Hout2. pose proof Hsizes as [Hw Hh Hr _ _ _ _].
  rewrite !I32_median_filter by done.
  by apply median_filter_overwrites.
Qed.

Lemma median_filter_overwrites_output_witness :
  filter_sizes 3 2 1 ∧
  I32.median_filter_2D_sparse_byrow true [3; 1; 2; 9; 7; 8]
    [0; 0; 0; 0; 0; 0] [3; 2] 2 1 =
  I32.median_filter_2D_sparse_byrow true [3; 1; 2; 9; 7; 8]
    [5; 5; 5; 5; 5; 5] [3; 2] 2 1.
Proof.
  assert (filter_sizes 3 2 1) as Hsizes
    by (split; unfold I32.INT_MAX; lia).
  split; [exact Hsizes|].
  apply (median_filter_overwrites_output true [3; 1; 2; 9; 7; 8]
           [0; 0; 0; 0; 0; 0] [5; 5; 5; 5; 5; 5] 3 2 1 Hsizes); reflexivity.
Defined.

(** X26: for a buffer of [width × height] samples and a radius [≥ 0], of
    sizes for which no [int] of the filter overflows, [fill_histogram] on
    an empty histogram returns for every centre [(i, j)] whose window
    coordinates are in the range of [int], also one outside the image, a
    histogram that satisfies the invariants and holds the samples of the
    window exactly: the count of every value is the number of times the
    value is in the window, and there are [(2 radius + 1)²] occurrences
    in all. *)
Theorem fill_histogram_builds_window (ndebug : bool) (in_ : list Z)
    (width height radius i j : Z) :
  filter_sizes width height radius →
  Z.of_nat (length in_) = width * height →
  is_int (i - radius) → is_int (i + radius) →
  is_int (j - radius) → is_int (j + radius) →
  ∃ H, I32.fill_histogram ndebug hist_create in_ i j radius width height
       = Done H ∧
       hist_inv H ∧
       (∀ k, hist_get H k = occ k (window in_ width height radius i j)) ∧
       counts_of (root H) = (2 * radius + 1) * (2 * radius + 1).
Proof.
  intros Hsizes Hin Hi1 Hi2 Hj1 Hj2. pose proof Hsizes as [Hw Hh Hr _ Hwin _ _].
  destruct (fill_histogram_window in_ width height radius i j Hw Hh Hr Hin)
    as (H & Hfill & Hrest).
  exists H. split; [|done].
  rewrite (I32_fill_histogram ndebug in_ width height radius Hsizes Hin);
    [done|apply hist_inv_create|simpl; lia|done..].
Qed.

Lemma fill_histogram_builds_window_witness :
  filter_sizes 3 2 1 ∧
  ∃ H, I32.fill_histogram true hist_create [3; 1; 2; 9; 7; 8] (-1) 5 1 3 2
       = Done H ∧
       counts_of (root H) = (2 * 1 + 1) * (2 * 1 + 1).
Proof.
  assert (filter_sizes 3 2 1) as Hsizes
    by (split; unfold I32.INT_MAX; lia).
  split; [exact Hsizes|].
  destruct (fill_histogram_builds_window true [3; 1; 2; 9; 7; 8] 3 2 1 (-1) 5
              Hsizes)
    as (H & Hfill & _ & _ & Hcount);
    [reflexivity|unfold is_int, I32.INT_MIN, I32.INT_MAX; lia..|].
  exists H. split; [exact Hfill|exact Hcount].
Defined.

(** X27: on a histogram that holds the samples of the window at [(i, j)],
    for sizes for which no [int] of the filter overflows and coordinates
    of the two windows in the range of [int], [shift_histogram] returns a
    histogram that holds the samples of the window at [(i, j + 1)], also
    at the last column of the image and past it; no delete fails, no
    index is outside the buffer, and the number of occurrences stays the
    same. *)
Theorem shift_histogram_slides_window (ndebug : bool) (in_ : list Z) (H : Hist)
    (width height radius i j : Z) :
  filter_sizes width height radius →
  Z.of_nat (length in_) = width * height →
  is_int (i - radius) → is_int (i + radius) →
  is_int (j - radius) → is_int (j + radius + 1) →
  hist_inv H →
  (∀ k, hist_get H k = occ k (window in_ width height radius i j)) →
  ∃ H', I32.shift_histogram ndebug H in_ i j radius width height = Done H' ∧
        hist_inv H' ∧
        (∀ k, hist_get H' k = occ k (window in_ width height radius i (j + 1))) ∧
        counts_of (root H') = counts_of (root H).
Proof.
  intros Hsizes Hin Hi1 Hi2 Hj1 Hj2 HH Hget.
  pose proof Hsizes as [Hw Hh Hr _ Hwin _ _].
  destruct (window_bound radius Hr Hwin) as [_ Hwin'].
  destruct (shift_histogram_window in_ H width height radius i j Hw Hh Hr Hin
              HH Hget) as (H' & Hshift & Hrest).
  exists H'. split; [|done].
  rewrite (I32_shift_histogram ndebug in_ width height radius Hsizes Hin);
    [done..| |done|done|done|done].
  destruct (holds_window_counts in_ width height radius Hsizes i j H)
    as [_ ->]; [by split|lia].
Qed.

Lemma shift_histogram_slides_window_witness :
  filter_sizes 3 2 1 ∧
  ∃ H H', I32.fill_histogram true hist_create [3; 1; 2; 9; 7; 8] 1 2 1 3 2
          = Done H ∧
          I32.shift_histogram true H [3; 1; 2; 9; 7; 8] 1 2 1 3 2 = Done H' ∧
          counts_of (root H') = counts_of (root H).
Proof.
  assert (filter_sizes 3 2 1) as Hsizes
    by (split; unfold I32.INT_MAX; lia).
  split; [exact Hsizes|].
  destruct (fill_histogram_fresh [3; 1; 2; 9; 7; 8] 3 2 1) with (i := 1) (j := 2)
    as (H & Hfill & HH & Hget); [lia|lia|reflexivity|].
  destruct (shift_histogram_slides_window true [3; 1; 2; 9; 7; 8] H 3 2 1 1 2
              Hsizes)
    as (H' & Hshift & _ & _ & Hcount);
    [reflexivity|unfold is_int, I32.INT_MIN, I32.INT_MAX; lia..
    |exact HH|exact Hget|].
  exists H, H'. split; [|split; [exact Hshift|exact Hcount]].
  rewrite (I32_fill_histogram true [3; 1; 2; 9; 7; 8] 3 2 1 Hsizes);
    [exact Hfill|reflexivity|apply hist_inv_create|vm_compute; discriminate
    |unfold is_int, I32.INT_MIN, I32.INT_MAX; lia..].
Defined.

(** X28: for sizes for which no [int] of the filter overflows, a row of
    the filter writes the cells of its own row and no other cell of the
    output buffer, keeps the length of the buffer, and does so whatever
    histogram it is handed. *)
Theorem filter_row_writes_its_row_only (ndebug : bool) (in_ out : list Z)
    (hist : Hist) (width height radius i : Z) :
  filter_sizes width height radius →
  Z.of_nat (length in_) = width * height → length out = length in_ →
  0 ≤ i < height →
  ∃ hist' out',
    I32.filter_row ndebug in_ radius width height (hist, out) i
      = Done (hist', out') ∧
    length out' = length out ∧
    ∀ q, 0 ≤ q → ¬ (i * width ≤ q < i * width + width) →
      out' !! Z.to_nat q = out !! Z.to_nat q.
Proof.
  intros Hsizes Hin Hout Hi. pose proof Hsizes as [Hw Hh Hr _ _ _ _].
  destruct (filter_row_frame in_ out hist width height radius i
              Hw Hh Hr Hin Hout Hi) as (hist' & out' & Hrow & Hrest).
  exists hist', out'. split; [by rewrite I32_filter_row|done].
Qed.

Lemma filter_row_writes_its_row_only_witness :
  filter_sizes 3 2 1 ∧
  ∃ hist' out',
    I32.filter_row true [3; 1; 2; 9; 7; 8] 1 3 2
      (one_five, [0; 0; 0; 0; 0; 0]) 1 = Done (hist', out') ∧
    out' !! Z.to_nat 2 = [0; 0; 0; 0; 0; 0] !! Z.to_nat 2.
Proof.
  assert (filter_sizes 3 2 1) as Hsizes
    by (split; unfold I32.INT_MAX; lia).
  split; [exact Hsizes|].
  destruct (filter_row_writes_its_row_only true [3; 1; 2; 9; 7; 8]
              [0; 0; 0; 0; 0; 0] one_five 3 2 1 1 Hsizes)
    as (hist' & out' & Hrow & _ & Hframe); [reflexivity|reflexivity|lia|].
  exists hist', out'. split; [exact Hrow|]. apply Hframe; lia.
Defined.

(** X30: the filter on a volume.  When the caller passes three
    dimensions, the filter with assertions refuses the call; the filter
    as the Makefile builds it does not look at the third dimension: for
    sizes of a plane for which no [int] of the filter overflows it
    filters the first plane of the volume, every pixel of which becomes
    the median of its window in that plane, and leaves all the other
    cells of the output buffer as they were before the call. *)
Theorem median_filter_ndebug_first_plane_only (in_ out : list Z)
    (width height depth radius : Z) :
  filter_sizes width height radius → 0 < depth →
  Z.of_nat (length in_) = width * height * depth → length out = length in_ →
  I32.median_filter_2D_sparse_byrow false in_ out [width; height; depth] 3 radius
    = Abort filter_ndims ∧
  ∃ out',
    I32.median_filter_2D_sparse_byrow true in_ out [width; height; depth] 3
      radius = Done out' ∧
    length out' = length out ∧
    (∀ i j, 0 ≤ i < height → 0 ≤ j < width →
       out' !! Z.to_nat (i * width + j)
       = median_of (window in_ width height radius i j)) ∧
    (∀ q, width * height ≤ q → out' !! Z.to_nat q = out !! Z.to_nat q).
Proof.
  intros Hsizes Hd Hin Hout. pose proof Hsizes as [Hw Hh Hr _ _ _ _].
  split; [done|].
  set (n := Z.to_nat (width * height)).
  assert (width * height ≤ Z.of_nat (length in_)) as Hle by nia.
  assert (Z.of_nat (length (take n in_)) = width * height) as Hin'.
  { rewrite length_take. lia. }
  destruct (median_filter_pixels (take n in_) (take n out) width height radius)
    as (plane & Hrun & Hlen & Hpix); [done|done|done|done|..].
  { rewrite !length_take. lia. }
  rewrite <- (I32_median_filter true (take n in_) width height radius Hsizes Hin')
    in Hrun.
  apply (I32_median_filter_prefix _ (drop n in_) _ (drop n out)
           _ _ [depth] 3) in Hrun.
  rewrite !take_drop in Hrun.
  assert (length plane = n) as Hplane by (rewrite Hlen, length_take; lia).
  exists (plane ++ drop n out). split; [done|]. split; [|split].
  - rewrite length_app, length_drop. lia.
  - intros i j Hi Hj. rewrite lookup_app_l by nia.
    rewrite (Hpix i j Hi Hj). unfold n. by rewrite window_take.
  - intros q Hq. rewrite lookup_app_r by lia.
    rewrite lookup_drop. f_equal. lia.
Qed.

Lemma median_filter_ndebug_first_plane_only_witness :
  filter_sizes 3 2 1 ∧
  ∃ out',
    I32.median_filter_2D_sparse_byrow true
      [3; 1; 2; 9; 7; 8; 4; 4; 4; 4; 4; 4] [0; 0; 0; 0; 0; 0; 6; 6; 6; 6; 6; 6]
      [3; 2; 2] 3 1 = Done out' ∧
    ∀ q, 3 * 2 ≤ q →
      out' !! Z.to_nat q = [0; 0; 0; 0; 0; 0; 6; 6; 6; 6; 6; 6] !! Z.to_nat q.
Proof.
  assert (filter_sizes 3 2 1) as Hsizes
    by (split; unfold I32.INT_MAX; lia).
  split; [exact Hsizes|].
  destruct (median_filter_ndebug_first_plane_only
              [3; 1; 2; 9; 7; 8; 4; 4; 4; 4; 4; 4]
              [0; 0; 0; 0; 0; 0; 6; 6; 6; 6; 6; 6] 3 2 2 1 Hsizes)
    as (_ & out' & Hrun & _ & _ & Hrest); [lia|reflexivity|reflexivity|].
  exists out'. split; [exact Hrun|exact Hrest].
Defined.
